(** * papa/server/proc.py: output queues, process handles, capture workers
      and watch sessions

    A shallow embedding of [papa.server.proc] and the properties of its
    bounded output buffer, process creation and the watch protocol.

    Conventions of the embedding:
    - Python byte strings and (encoded) text are [string]s, one [ascii] per
      byte; [cast_bytes] of [papa.utils] encodes text and is the identity
      on them.  The built-ins [int()], [repr()], [lower()] and the like
      are those of Python 3.11, on ASCII text.
    - Python integers are [Z].
    - A timestamp is the value returned by [time()].  Only its order, its
      truth value and its text form are used by the code, so it is
      embedded in [Z] order-preservingly, with [0.0] as [0].
    - Exceptions are values of [exn]; code that can raise runs in the
      state-and-exception monad [M]. *)

From Stdlib Require Import Ascii String.
From stdpp Require Import gmap strings list pretty sorting.

Local Open Scope string_scope.
Local Open Scope list_scope.
Local Open Scope Z_scope.

(** ** Python values, exceptions and the monad *)

(** What [OutputQueue.Item.data] holds: bytes read from a pipe, the exit
    status returned by [Popen.wait()], or the default [None]. *)
Inductive PyData :=
  | DBytes (b : string)
  | DInt (n : Z)
  | DNone.

Inductive exn :=
  | Error (msg : string)      (* papa.utils.Error *)
  | ValueError
  | KeyError
  | IndexError
  | TypeError
  | AttributeError
  | Dangling.                 (* model only: a reference to no object *)

Inductive result (A : Type) :=
  | Ok (a : A)
  | Raise (e : exn).
Arguments Ok {A} a.
Arguments Raise {A} e.

(** A computation over a mutable state [S] that returns or raises; the
    state reached is kept in both cases, as a Python object keeps the
    mutations made before an exception. *)
Definition M (S A : Type) : Type := S -> result A * S.

Definition ret {S A} (a : A) : M S A := fun s => (Ok a, s).
Definition raise {S A} (e : exn) : M S A := fun s => (Raise e, s).
Definition bind {S A B} (c : M S A) (k : A -> M S B) : M S B :=
  fun s => match c s with
           | (Ok a, s') => k a s'
           | (Raise e, s') => (Raise e, s')
           end.
Definition get {S} : M S S := fun s => (Ok s, s).
Definition put {S} (s : S) : M S unit := fun _ => (Ok tt, s).
Definition lift {S A} (r : result A) : M S A := fun s => (r, s).

#[global] Instance M_ret {S} : MRet (M S) := @ret S.
#[global] Instance M_bind {S} : MBind (M S) := fun A B k c => bind c k.

(** [bool(data)] *)
Definition truthy (d : PyData) : bool :=
  match d with
  | DBytes b => negb (String.eqb b "")
  | DInt n => negb (n =? 0)
  | DNone => false
  end.

(** [len(data)]: defined on bytes, [TypeError] on an int or [None]. *)
Definition py_len (d : PyData) : result Z :=
  match d with
  | DBytes b => Ok (Z.of_nat (String.length b))
  | _ => Raise TypeError
  end.

(** The exception monad of code that touches no state. *)
#[global] Instance result_ret : MRet result := @Ok.
#[global] Instance result_bind : MBind result := fun A B k r =>
  match r with Ok a => k a | Raise e => Raise e end.
#[global] Instance result_fmap : FMap result := fun A B f r =>
  match r with Ok a => Ok (f a) | Raise e => Raise e end.

(** ** Python built-ins on strings *)

Module Py.

(** The ASCII white space that [int()] skips on both sides. *)
Definition is_space (a : ascii) : bool :=
  let n := Ascii.N_of_ascii a in
  ((n =? 32) || ((9 <=? n) && (n <=? 13)))%N.

Definition is_digit (a : ascii) : bool :=
  let n := Ascii.N_of_ascii a in ((48 <=? n) && (n <=? 57))%N.

Definition digit_val (a : ascii) : Z := Z.of_N (Ascii.N_of_ascii a) - 48.

Fixpoint lstrip (s : string) : string :=
  match s with
  | String a s' => if is_space a then lstrip s' else s
  | EmptyString => EmptyString
  end.

Fixpoint rstrip (s : string) : string :=
  match s with
  | String a s' =>
      let r := rstrip s' in
      if is_space a && String.eqb r "" then "" else String a r
  | EmptyString => EmptyString
  end.

Definition strip (s : string) : string := lstrip (rstrip s).

(** The limit [sys.get_int_max_str_digits()] of Python 3.11 and later,
    at its default. *)
Definition max_str_digits : nat := 4300.

(** Reading digits left to right, as [int()] accumulates them: a digit,
    and then the end, a further digit, or one [_] and a further digit.
    It gives the value and the number of digits read. *)
Fixpoint digits (acc : Z) (count : nat) (s : string) : option (Z * nat) :=
  match s with
  | EmptyString => None
  | String a s' =>
      if is_digit a then
        let acc' := acc * 10 + digit_val a in
        match s' with
        | EmptyString => Some (acc', S count)
        | String b s'' =>
            if Ascii.eqb b "_" then digits acc' (S count) s''
            else digits acc' (S count) s'
        end
      else None
  end.

(** The sign in front, and what follows it. *)
Definition signed (body : string) : bool * string :=
  match body with
  | String a r =>
      if Ascii.eqb a "+" then (false, r)
      else if Ascii.eqb a "-" then (true, r)
      else (false, body)
  | EmptyString => (false, EmptyString)
  end.

(** [int(s)] in base ten, on ASCII text, as Python 3.11 reads it:
    optional white space around an optional sign and at least one digit,
    single underscores allowed between digits, and no more than
    [max_str_digits] digits; [ValueError] otherwise.  (Text that is not
    ASCII may hold further spaces and digits; it is outside the
    embedding.) *)
Definition int (s : string) : result Z :=
  let '(negative, ds) := signed (strip s) in
  match digits 0 0 ds with
  | Some (n, count) =>
      if (max_str_digits <? count)%nat then Raise ValueError
      else Ok (if negative then - n else n)
  | None => Raise ValueError
  end.

(** [c.lower()] on one character *)
Definition lower_char (a : ascii) : ascii :=
  let n := Ascii.N_of_ascii a in
  if ((65 <=? n) && (n <=? 90))%N then Ascii.ascii_of_N (n + 32) else a.

(** [s.lower()] *)
Fixpoint lower (s : string) : string :=
  match s with
  | String a s' => String (lower_char a) (lower s')
  | EmptyString => EmptyString
  end.

(** [s[:-1]] *)
Fixpoint but_last (s : string) : string :=
  match s with
  | EmptyString => EmptyString
  | String a EmptyString => EmptyString
  | String a s' => String a (but_last s')
  end.

(** [s[-1]], [IndexError] on the empty string *)
Fixpoint last_char (s : string) : result ascii :=
  match s with
  | EmptyString => Raise IndexError
  | String a EmptyString => Ok a
  | String _ s' => last_char s'
  end.

(** [repr()] of ASCII text and of bytes: in single quotes, or in double
    quotes when there is a single quote in it and no double quote.  The
    quote in use and the backslash are escaped, a tab, a line feed and a
    carriage return are written as a backslash and [t], [n] or [r], and
    the other control characters, and in bytes the values above 127, as
    a backslash, [x] and two hexadecimal digits. *)
Definition hex_digit (n : N) : ascii :=
  Ascii.ascii_of_N (if (n <? 10)%N then 48 + n else 87 + n)%N.

Definition repr_char (bytes : bool) (quote a : ascii) : string :=
  let n := Ascii.N_of_ascii a in
  let escaped (c : ascii) := String "092" (String c "") in
  if Ascii.eqb a quote || Ascii.eqb a "092" then escaped a
  else if (n =? 9)%N then escaped "t"%char
  else if (n =? 10)%N then escaped "n"%char
  else if (n =? 13)%N then escaped "r"%char
  else if (n <? 32)%N || (n =? 127)%N || (bytes && (127 <? n)%N) then
    String "092" (String "x" (String (hex_digit (n / 16))
                               (String (hex_digit (n mod 16)) "")))
  else String a "".

Fixpoint contains (c : ascii) (s : string) : bool :=
  match s with
  | EmptyString => false
  | String a s' => Ascii.eqb a c || contains c s'
  end.

Fixpoint repr_body (bytes : bool) (quote : ascii) (s : string) : string :=
  match s with
  | EmptyString => EmptyString
  | String a s' => repr_char bytes quote a +:+ repr_body bytes quote s'
  end.

Definition repr_quote (s : string) : ascii :=
  if contains "'" s && negb (contains "034" s) then "034"%char else "'"%char.

Definition repr (s : string) : string :=
  String (repr_quote s)
    (repr_body false (repr_quote s) s +:+ String (repr_quote s) "").

Definition repr_bytes (s : string) : string :=
  String "b" (String (repr_quote s)
    (repr_body true (repr_quote s) s +:+ String (repr_quote s) "")).

(** [sep.join(l)] *)
Fixpoint join (sep : string) (l : list string) : string :=
  match l with
  | [] => ""
  | [x] => x
  | x :: l' => x +:+ sep +:+ join sep l'
  end.

(** [str(n)] of an integer *)
Definition str (n : Z) : string := pretty n.

(** Notions used to state what [int] accepts. *)

(** A plain decimal string: one digit or more and nothing else. *)
Fixpoint all_digits (s : string) : bool :=
  match s with
  | EmptyString => true
  | String a s' => is_digit a && all_digits s'
  end.

Definition plain_decimal (s : string) : bool :=
  negb (String.eqb s "") && all_digits s.

(** The number a plain decimal string denotes: the sum of its digits
    weighted by powers of ten. *)
Fixpoint decimal_value (s : string) : Z :=
  match s with
  | EmptyString => 0
  | String a s' => digit_val a * 10 ^ Z.of_nat (String.length s') + decimal_value s'
  end.

Fixpoint all_space (s : string) : bool :=
  match s with
  | EmptyString => true
  | String a s' => is_space a && all_space s'
  end.

(** [grouped s ds]: [s] is the digits [ds], one at least, with single
    underscores between some of them. *)
Inductive grouped : string -> string -> Prop :=
  | grouped_last a :
      is_digit a = true -> grouped (String a "") (String a "")
  | grouped_next a s ds :
      is_digit a = true -> grouped s ds -> grouped (String a s) (String a ds)
  | grouped_sep a s ds :
      is_digit a = true -> grouped s ds ->
      grouped (String a (String "_" s)) (String a ds).

(** The text of an integer and the integer it denotes: white space, a
    sign or none, grouped digits, no more than [max_str_digits] of them,
    and white space. *)
Inductive numeral : string -> Z -> Prop :=
  | numeral_plain l body ds r :
      all_space l = true -> all_space r = true -> grouped body ds ->
      (String.length ds <= max_str_digits)%nat ->
      numeral (l +:+ body +:+ r) (decimal_value ds)
  | numeral_plus l body ds r :
      all_space l = true -> all_space r = true -> grouped body ds ->
      (String.length ds <= max_str_digits)%nat ->
      numeral (l +:+ "+" +:+ body +:+ r) (decimal_value ds)
  | numeral_minus l body ds r :
      all_space l = true -> all_space r = true -> grouped body ds ->
      (String.length ds <= max_str_digits)%nat ->
      numeral (l +:+ "-" +:+ body +:+ r) (- decimal_value ds).

(** ASCII text: every character is below 128. *)
Fixpoint is_ascii (s : string) : bool :=
  match s with
  | EmptyString => true
  | String a s' => (Ascii.N_of_ascii a <? 128)%N && is_ascii s'
  end.

End Py.

(** ** convert_size_string_to_bytes *)

(** The dictionary [{'g': 1073741824, 'm': 1048576, 'k': 1024}];
    [None] is its [KeyError]. *)
Definition size_suffix (c : ascii) : option Z :=
  if Ascii.eqb c "g"%char then Some 1073741824
  else if Ascii.eqb c "m"%char then Some 1048576
  else if Ascii.eqb c "k"%char then Some 1024
  else None.

(** [try: return int(s)] and, on [ValueError] only,
    [int(s[:-1]) * {...}[s[-1].lower()]], operands evaluated left to
    right; nothing raised by the handler is caught. *)
Definition convert_size_string_to_bytes (s : string) : result Z :=
  match Py.int s with
  | Ok n => Ok n
  | Raise ValueError =>
      n ← Py.int (Py.but_last s);
      c ← Py.last_char s;
      match size_suffix (Py.lower_char c) with
      | Some m => Ok (n * m)
      | None => Raise KeyError
      end
  | Raise e => Raise e
  end.

(** ** class OutputQueue *)

Module OutputQueue.

Definition STDOUT : Z := 0.
Definition STDERR : Z := 1.
Definition CLOSED : Z := -1.

(** [Item = namedtuple('Item', 'type timestamp data')] *)
Record Item := mkItem { type : Z; timestamp : Z; data : PyData }.

(** The lock serialises the methods; each runs atomically here. *)
Record t := mk { bufsize : Z; q : list Item; _used : Z }.

Definition __init__ (bufsize : Z) : t := mk bufsize [] 0.

(** The loop [while self._used > self.bufsize: first = self.q.popleft();
    self._used -= len(first.data)].  [popleft] on an empty deque raises
    [IndexError]; the item is already popped when [len] raises. *)
Fixpoint evict (bufsize used : Z) (q : list Item) {struct q}
  : option exn * (Z * list Item) :=
  if bufsize <? used then
    match q with
    | [] => (Some IndexError, (used, []))
    | first :: q' =>
        match py_len (data first) with
        | Ok n => evict bufsize (used - n) q'
        | Raise e => (Some e, (used, q'))
        end
    end
  else (None, (used, q)).

(** [add(self, output_type, data)]; [now] is the value of [time()]. *)
Definition add (now : Z) (output_type : Z) (data : PyData) : M t unit :=
  fun self =>
    let data_tuple := mkItem output_type now data in
    let append (s : t) := mk (bufsize s) (q s ++ [data_tuple]) (_used s) in
    if negb (output_type =? CLOSED) && truthy data then
      match py_len data with
      | Raise e => (Raise e, self)
      | Ok n =>
          if bufsize self <=? n then
            (Ok tt, append (mk (bufsize self) [] n))
          else
            match evict (bufsize self) (_used self + n) (q self) with
            | (None, (used', q')) =>
                (Ok tt, append (mk (bufsize self) q' used'))
            | (Some e, (used', q')) =>
                (Raise e, mk (bufsize self) q' used')
            end
      end
    else (Ok tt, append self).

(** [retrieve(self)]: [(l[-1].timestamp, l)], or [(0, None)] when the
    queue is empty. *)
Definition retrieve (self : t) : Z * option (list Item) :=
  match last (q self) with
  | Some it => (timestamp it, Some (q self))
  | None => (0, None)
  end.

(** The loop of [remove]: [while q and q[0].timestamp <= timestamp:
    q.popleft()]. *)
Fixpoint popleft_while (ts : Z) (q : list Item) : list Item :=
  match q with
  | [] => []
  | first :: q' =>
      if timestamp first <=? ts then popleft_while ts q' else q
  end.

(** [remove(self, timestamp)]; [_used] is not touched. *)
Definition remove (ts : Z) (self : t) : t :=
  mk (bufsize self) (popleft_while ts (q self)) (_used self).

(** [__len__] *)
Definition __len__ (self : t) : nat := length (q self).

(** *** Notions used to state the buffer's properties *)

(** The payload bytes an item counts for: its length if it is a STDOUT
    or STDERR item holding bytes, nothing for a CLOSED item. *)
Definition payload (it : Item) : Z :=
  if type it =? CLOSED then 0
  else match data it with
       | DBytes b => Z.of_nat (String.length b)
       | _ => 0
       end.

Definition retained (q : list Item) : Z :=
  foldr (fun it acc => payload it + acc) 0 q.

(** One call of [add], as the capture worker or a test issues it. *)
Record op := mkOp { op_now : Z; op_type : Z; op_data : PyData }.

Definition item_of (o : op) : Item :=
  mkItem (op_type o) (op_now o) (op_data o).

(** A stream event carries bytes; a CLOSED event carries the status. *)
Definition stream_op (o : op) : bool :=
  ((op_type o =? STDOUT) || (op_type o =? STDERR)) &&
  match op_data o with DBytes _ => true | _ => false end.

Definition closed_op (o : op) : bool :=
  (op_type o =? CLOSED) &&
  match op_data o with DInt _ => true | _ => false end.

Definition op_wf (o : op) : bool := stream_op o || closed_op o.

(** A non-empty stream payload: the case [add] accounts for. *)
Definition accounted (o : op) : bool :=
  negb (op_type o =? CLOSED) && truthy (op_data o).

Definition add_op (o : op) : M t unit :=
  add (op_now o) (op_type o) (op_data o).

Fixpoint add_all (ops : list op) : M t unit :=
  match ops with
  | [] => ret tt
  | o :: ops' => add_op o ≫= λ _, add_all ops'
  end.

(** Timestamps in append order never decrease. *)
Fixpoint nondecreasing (q : list Item) : bool :=
  match q with
  | [] => true
  | a :: q' =>
      match q' with
      | [] => true
      | b :: _ => (timestamp a <=? timestamp b) && nondecreasing q'
      end
  end.

(** Items as the well-formed calls of [add] leave them in the queue. *)
Definition stream_item (it : Item) : bool :=
  ((type it =? STDOUT) || (type it =? STDERR)) &&
  match data it with DBytes _ => true | _ => false end.

Definition item_wf (it : Item) : bool :=
  stream_item it ||
  ((type it =? CLOSED) && match data it with DInt _ => true | _ => false end).

(** The accounting invariant: [_used] is the payload retained. *)
Definition inv (s : t) : Prop :=
  forallb item_wf (q s) = true ∧ _used s = retained (q s).

(** The bound in the words of the specification: after an [add] the
    count is within the capacity, unless the payload added is at least
    the capacity, in which case it is retained alone. *)
Definition oversize (cap : Z) (o : op) : bool :=
  accounted o &&
  match op_data o with
  | DBytes b => cap <=? Z.of_nat (String.length b)
  | _ => false
  end.

Definition bound_as_stated (cap : Z) (o : op) (s' : t) : Prop :=
  if oversize cap o
  then q s' = [item_of o] ∧ py_len (op_data o) = Ok (_used s')
  else _used s' <= cap ∧ retained (q s') <= cap.

Definition sample_ops : list op :=
  [mkOp 10 STDOUT (DBytes "ab"); mkOp 11 STDERR (DBytes "cd")].
Definition sample_op : op := mkOp 12 STDOUT (DBytes "e").

Definition sample_queue : t :=
  mk 16 [mkItem STDOUT 3 (DBytes "a"); mkItem STDERR 3 (DBytes "b");
         mkItem STDOUT 5 (DBytes "c"); mkItem CLOSED 7 (DInt 0)] 3.

End OutputQueue.


(** ** The platform: the optional modules [pwd] and [grp] *)

Module Platform.

Record passwd := mkPasswd { pw_name : string; pw_uid : Z; pw_gid : Z }.
Record group := mkGroup { gr_name : string; gr_gid : Z }.

(** The identity database.  A lookup that finds no entry raises
    [KeyError] ([OverflowError] for a group id out of range, which
    [__init__] handles alike): [None]. *)
Record pwd_module := mkPwd {
  getpwuid : Z -> option passwd;
  getpwnam : string -> option passwd }.

Record grp_module := mkGrp {
  getgrgid : Z -> option group;
  getgrnam : string -> option group }.

(** [pwd] and [grp] are [None] where the import failed. *)
Record t := mk { pwd : option pwd_module; grp : option grp_module }.

End Platform.

(** ** class Process *)

Module Process.

(** [self.err]: an integer, or the string ['stdout'] *)
Inductive err_mode :=
  | ErrInt (n : Z)
  | ErrStdout.

#[global] Instance err_mode_eq_dec : EqDecision err_mode.
Proof. solve_decision. Defined.

Definition err_truthy (e : err_mode) : bool :=
  match e with
  | ErrInt n => negb (n =? 0)
  | ErrStdout => true
  end.

(** The attributes of a [Process] object.  A keyword argument left at
    its default ([None], and [False] for [shell]) is [None]; one given
    on the command line is its string.  [_worker] is the index of the
    [Popen] object among the processes created, [_output] the queue.
    ([_processes] is the registry of the state below; [_sockets],
    [_thread] and [_lock] are written and never read.) *)
Record t := mkProcess {
  name : string;
  args : list string;
  env : gmap string string;
  rlimits : gmap Z Z;
  working_dir : option string;
  shell : option string;
  pid : Z;
  bufsize : Z;
  running : bool;
  out : Z;
  err : err_mode;
  username : option string;
  uid : option Z;
  gid : option Z;
  _worker : option nat;
  _output : option OutputQueue.t }.

(** Truth value of an optional string argument: [None] and [''] are
    false. *)
Definition given (a : option string) : option string :=
  match a with
  | Some s => if String.eqb s "" then None else Some s
  | None => None
  end.

(** Lines 138-155 of [__init__]: [self.username] and [self.uid]. *)
Definition __init__uid (plat : Platform.t) (uid : option string)
  : result (option string * option Z) :=
  match given uid with
  | Some u =>
      match Platform.pwd plat with
      | Some pwd =>
          match Py.int u with
          | Ok n =>
              match Platform.getpwuid pwd n with
              | Some pw => Ok (Some (Platform.pw_name pw), Some n)
              | None => Raise (Error (Py.repr u +:+ " is not a valid user id"))
              end
          | Raise ValueError =>
              match Platform.getpwnam pwd u with
              | Some pw => Ok (Some u, Some (Platform.pw_uid pw))
              | None => Raise (Error (Py.repr u +:+ " is not a valid user name"))
              end
          | Raise e => Raise e
          end
      | None => Raise (Error "uid is not supported on this platform")
      end
  | None => Ok (None, None)
  end.

(** Lines 157-174 of [__init__]: [self.gid], given the [self.uid] just
    set.  [elif self.uid:] tests the truth value of the uid. *)
Definition __init__gid (plat : Platform.t) (gid : option string)
    (self_uid : option Z) : result (option Z) :=
  match given gid with
  | Some g =>
      match Platform.grp plat with
      | Some grp =>
          match Py.int g with
          | Ok n =>
              match Platform.getgrgid grp n with
              | Some _ => Ok (Some n)
              | None => Raise (Error ("No such group: " +:+ Py.repr g))
              end
          | Raise ValueError =>
              match Platform.getgrnam grp g with
              | Some gr => Ok (Some (Platform.gr_gid gr))
              | None => Raise (Error ("No such group: " +:+ Py.repr g))
              end
          | Raise e => Raise e
          end
      | None => Raise (Error "gid is not supported on this platform")
      end
  | None =>
      match self_uid with
      | Some u =>
          if u =? 0 then Ok None
          else
            match Platform.pwd plat with
            | Some pwd =>
                match Platform.getpwuid pwd u with
                | Some pw => Ok (Some (Platform.pw_gid pw))
                | None => Raise KeyError
                end
            | None => Raise AttributeError
            end
      | None => Ok None
      end
  end.

(** Lines 129-136 of [__init__]: [self.bufsize], [self.out] and
    [self.err].  The selectors [stdout] and [stderr] default to the
    integer 1, here the string ["1"], which [int] maps to it. *)
Definition __init__capture (stdout stderr bufsize : string)
  : result (Z * Z * err_mode) :=
  bufsize ← convert_size_string_to_bytes bufsize;
  if negb (bufsize =? 0) then
    out ← Py.int stdout;
    err ← (if String.eqb stderr "stdout" then Ok ErrStdout
           else ErrInt <$> Py.int stderr);
    Ok (bufsize, out, err)
  else Ok (bufsize, 0, ErrInt 0).

(** [Process.__init__] *)
Definition __init__ (plat : Platform.t)
    (name : string) (args : list string) (env : gmap string string)
    (rlimits : gmap Z Z) (working_dir shell uid gid : option string)
    (stdout stderr bufsize : string) : result t :=
  '(bufsize, out, err) ← __init__capture stdout stderr bufsize;
  '(username, uid) ← __init__uid plat uid;
  gid ← __init__gid plat gid uid;
  Ok {| name := name; args := args; env := env; rlimits := rlimits;
        working_dir := working_dir; shell := shell; pid := 0;
        bufsize := bufsize; running := false; out := out; err := err;
        username := username; uid := uid; gid := gid;
        _worker := None; _output := None |}.

(** [Process.__eq__] *)
Definition __eq__ (self other : t) : bool :=
  bool_decide (name self = name other) &&
  bool_decide (args self = args other) &&
  bool_decide (env self = env other) &&
  bool_decide (rlimits self = rlimits other) &&
  bool_decide (working_dir self = working_dir other) &&
  bool_decide (shell self = shell other) &&
  bool_decide (out self = out other) &&
  bool_decide (err self = err other) &&
  bool_decide (bufsize self = bufsize other) &&
  bool_decide (uid self = uid other) &&
  bool_decide (gid self = gid other).

(** [Process.__str__] *)
Definition __str__ (self : t) : string :=
  name self +:+ " pid=" +:+ Py.str (pid self).

(** *** The supervisor's state *)

(** [subprocess.PIPE] and [subprocess.STDOUT] *)
Inductive pipe_arg :=
  | PIPE
  | STDOUT.

(** One call of [Popen], that is one OS process created: the arguments
    the supervisor passed and the process id it got.  ([preexec_fn] runs
    in the child and is no part of the supervisor's state.) *)
Record Popen := mkPopen {
  popen_args : list string;
  popen_shell : option string;
  popen_cwd : option string;
  popen_env : gmap string string;
  popen_stdout : option pipe_arg;
  popen_stderr : option pipe_arg;
  popen_pid : Z }.

(** - [objs]: the [Process] objects, by reference;
    - [processes]: the registry [instance['globals']['processes']];
    - [os]: the OS processes created so far, [next_pid] the id of the next;
    - [threads]: the handles whose capture thread was started;
    - [clock]: the value [time()] returns;
    - [sent]: what [sock.sendall] has written, oldest first;
    - [inbox]: the lines [connection.readline()] will return. *)
Record World := mkWorld {
  objs : gmap nat t;
  processes : gmap string nat;
  os : list Popen;
  next_pid : Z;
  threads : list nat;
  clock : Z;
  sent : list string;
  inbox : list string }.

Definition set_objs (f : gmap nat t -> gmap nat t) (w : World) : World :=
  mkWorld (f (objs w)) (processes w) (os w) (next_pid w) (threads w)
          (clock w) (sent w) (inbox w).

Definition set_processes (f : gmap string nat -> gmap string nat) (w : World)
  : World :=
  mkWorld (objs w) (f (processes w)) (os w) (next_pid w) (threads w)
          (clock w) (sent w) (inbox w).

Definition set_clock (c : Z) (w : World) : World :=
  mkWorld (objs w) (processes w) (os w) (next_pid w) (threads w)
          c (sent w) (inbox w).

Definition set_sent (l : list string) (w : World) : World :=
  mkWorld (objs w) (processes w) (os w) (next_pid w) (threads w)
          (clock w) l (inbox w).

Definition set_inbox (l : list string) (w : World) : World :=
  mkWorld (objs w) (processes w) (os w) (next_pid w) (threads w)
          (clock w) (sent w) l.

Definition deref (r : nat) : M World t :=
  fun w => match objs w !! r with
           | Some p => (Ok p, w)
           | None => (Raise Dangling, w)
           end.

Definition assign (r : nat) (p : t) : M World unit :=
  fun w => (Ok tt, set_objs <[r:=p]> w).

(** Creating an object: it gets a reference not in use. *)
Definition new (p : t) : M World nat :=
  fun w => let r := fresh (dom (objs w)) in (Ok r, set_objs <[r:=p]> w).

Definition set_pid (n : Z) (p : t) : t :=
  mkProcess (name p) (args p) (env p) (rlimits p) (working_dir p) (shell p)
            n (bufsize p) (running p) (out p) (err p)
            (username p) (uid p) (gid p) (_worker p) (_output p).

Definition set_running (b : bool) (p : t) : t :=
  mkProcess (name p) (args p) (env p) (rlimits p) (working_dir p) (shell p)
            (pid p) (bufsize p) b (out p) (err p)
            (username p) (uid p) (gid p) (_worker p) (_output p).

Definition set_output (o : option OutputQueue.t) (p : t) : t :=
  mkProcess (name p) (args p) (env p) (rlimits p) (working_dir p) (shell p)
            (pid p) (bufsize p) (running p) (out p) (err p)
            (username p) (uid p) (gid p) (_worker p) o.

(** The keyword arguments [extra] of the [Popen] call. *)
Definition extra_stdout (p : t) : option pipe_arg :=
  if negb (out p =? 0) then Some PIPE else None.

Definition extra_stderr (p : t) : option pipe_arg :=
  if err_truthy (err p) then
    match err p with
    | ErrStdout => Some STDOUT
    | ErrInt _ => Some PIPE
    end
  else None.

(** [Process.spawn], on the object at reference [self].  A [Process]
    object is always true, so [if existing:] asks whether the name is
    registered.  [Popen] is taken to succeed; [fixed_args] is a copy of
    [self.args]. *)
Definition spawn (self : nat) : M World nat :=
  me ← deref self;
  w ← get;
  match processes w !! name me with
  | Some existing_ref =>
      existing ← deref existing_ref;
      if __eq__ me existing then
        assign self (set_pid (pid existing) me) ≫= λ _, mret self
      else
        raise (Error ("Process for " +:+ name me +:+
                      " has already been created - " +:+ __str__ existing))
  | None =>
      let worker :=
        mkPopen (args me) (shell me) (working_dir me) (env me)
                (extra_stdout me) (extra_stderr me) (next_pid w) in
      let me' :=
        mkProcess (name me) (args me) (env me) (rlimits me) (working_dir me)
                  (shell me) (popen_pid worker) (bufsize me) true
                  (out me) (err me) (username me) (uid me) (gid me)
                  (Some (length (os w)))
                  (Some (OutputQueue.__init__ (bufsize me))) in
      put (mkWorld (<[self:=me']> (objs w)) (<[name me:=self]> (processes w))
                   (os w ++ [worker]) (next_pid w + 1) (threads w ++ [self])
                   (clock w) (sent w) (inbox w)) ≫= λ _,
      mret self
  end.

(** Running a method of [self._output]; [None] has no methods. *)
Definition with_output {A} (self : nat) (c : M OutputQueue.t A) : M World A :=
  me ← deref self;
  match _output me with
  | Some queue =>
      let '(r, queue') := c queue in
      assign self (set_output (Some queue') me) ≫= λ _, lift r
  | None => raise AttributeError
  end.

(** [time()] *)
Definition time : M World Z := fun w => (Ok (clock w), w).

(** The environment lets [dt] pass while the caller is suspended. *)
Definition elapse (dt : Z) : M World unit :=
  fun w => (Ok tt, set_clock (clock w + dt) w).

(** *** The capture worker *)

Inductive pipe :=
  | Stdout
  | Stderr.

#[global] Instance pipe_eq_dec : EqDecision pipe.
Proof. solve_decision. Defined.

(** What [select] returns after [elapsed]: the pipes that are ready. *)
Record round := mkRound { elapsed : Z; ready : list pipe }.

(** The child as the worker meets it: the chunks each pipe delivers to
    successive [read]s before its end of stream, the rounds of [select],
    and the exit status [wait()] returns after [exit_after]. *)
Record child := mkChild {
  stdout_chunks : list string;
  stderr_chunks : list string;
  rounds : list round;
  exit_after : Z;
  exit_status : Z }.

(** [p.read()] on a ready pipe: the next chunk, or [b''] at the end of
    the stream. *)
Definition read (p : pipe) (st : list string * list string)
  : string * (list string * list string) :=
  match p with
  | Stdout => match st.1 with
              | [] => ("", st)
              | c :: rest => (c, (rest, st.2))
              end
  | Stderr => match st.2 with
              | [] => ("", st)
              | c :: rest => (c, (st.1, rest))
              end
  end.

(** The body [for p in out: data = p.read(); if data: output.add(...)];
    [data] is carried as its truth value. *)
Fixpoint read_ready (self : nat) (out : list pipe)
    (st : list string * list string) (data : bool)
  : M World ((list string * list string) * bool) :=
  match out with
  | [] => mret (st, data)
  | p :: out' =>
      let '(chunk, st') := read p st in
      (if truthy (DBytes chunk) then
         now ← time;
         with_output self
           (OutputQueue.add now
              (if decide (p = Stdout) then OutputQueue.STDOUT
               else OutputQueue.STDERR)
              (DBytes chunk))
       else mret tt) ≫= λ _,
      read_ready self out' st' (truthy (DBytes chunk))
  end.

(** How a thread stands when the rounds of the environment are used up. *)
Inductive thread_end :=
  | Finished
  | Waiting.

(** The loop [while data: out = select.select(pipes, [], [])[0]; ...];
    [select] returns pipes of the wait set only.  It answers whether the
    loop was left. *)
Fixpoint watch_loop (self : nat) (pipes : list pipe) (rs : list round)
    (st : list string * list string) (data : bool) : M World thread_end :=
  if data then
    match rs with
    | [] => mret Waiting
    | r :: rs' =>
        elapse (elapsed r) ≫= λ _,
        '(st', data') ←
           read_ready self (filter (λ p, p ∈ pipes) (ready r)) st data;
        watch_loop self pipes rs' st' data'
    end
  else mret Finished.

(** The wait set of [_watch]. *)
Definition wait_set (me : t) : list pipe :=
  (if negb (out me =? 0) then [Stdout] else []) ++
  (if err_truthy (err me) && negb (bool_decide (err me = ErrStdout))
   then [Stderr] else []).

(** [Process._watch], the target of the capture thread. *)
Definition _watch (c : child) (self : nat) : M World thread_end :=
  me ← deref self;
  let pipes := wait_set me in
  loop ← (match pipes with
          | [] => mret Finished
          | _ => watch_loop self pipes (rounds c)
                   (stdout_chunks c, stderr_chunks c) true
          end);
  match loop with
  | Waiting => mret Waiting
  | Finished =>
      elapse (exit_after c) ≫= λ _,
      now ← time;
      with_output self
        (OutputQueue.add now OutputQueue.CLOSED (DInt (exit_status c))) ≫= λ _,
      me ← deref self;
      assign self (set_running false me) ≫= λ _,
      mret Finished
  end.

(** [Process.watch] and [Process.remove_output] *)
Definition watch (self : nat) : M World (Z * option (list OutputQueue.Item)) :=
  with_output self (fun queue => (Ok (OutputQueue.retrieve queue), queue)).

Definition remove_output (self : nat) (timestamp : Z) : M World unit :=
  with_output self (fun queue => (Ok tt, OutputQueue.remove timestamp queue)).

(** *** Notions used to state the properties of handles *)

(** The fields [__eq__] compares. *)
Definition config (p : t) :=
  (name p, args p, env p, rlimits p, working_dir p, shell p,
   out p, err p, bufsize p, uid p, gid p).




(** A small identity database: root and one ordinary user. *)
Definition sample_users : list Platform.passwd :=
  [Platform.mkPasswd "root" 0 0; Platform.mkPasswd "alice" 1001 2000].

Definition sample_groups : list Platform.group :=
  [Platform.mkGroup "root" 0; Platform.mkGroup "staff" 2000].

Definition sample_pwd : Platform.pwd_module :=
  Platform.mkPwd
    (λ n, List.find (λ pw, Platform.pw_uid pw =? n) sample_users)
    (λ s, List.find (λ pw, String.eqb (Platform.pw_name pw) s) sample_users).

Definition sample_grp : Platform.grp_module :=
  Platform.mkGrp
    (λ n, List.find (λ gr, Platform.gr_gid gr =? n) sample_groups)
    (λ s, List.find (λ gr, String.eqb (Platform.gr_name gr) s) sample_groups).

Definition posix : Platform.t := Platform.mk (Some sample_pwd) (Some sample_grp).
Definition bare : Platform.t := Platform.mk None None.

(** A supervisor that has created nothing yet. *)
Definition empty_world : World := mkWorld ∅ ∅ [] 100 [] 1000 [] [].

(** Creating a handle and spawning it, as [process_command] does. *)
Definition start (created : result t) : M World nat :=
  p ← lift created;
  self ← new p;
  spawn self.

(** A handle that captures both streams, and the same request again. *)
Definition sample_handle : result t :=
  __init__ bare "a" ["/bin/cat"] ∅ ∅ None None None None "1" "1" "1m".

Definition sample_running : World := (start sample_handle empty_world).2.

Definition sample_again : World :=
  ((p ← lift sample_handle; new p) sample_running).2.

(** The same name with another command line. *)
Definition sample_other : World :=
  ((p ← lift (__init__ bare "a" ["/bin/ls"] ∅ ∅ None None None None
                "1" "1" "1m"); new p) sample_running).2.

(** A child that closes its standard error at once and then writes two
    chunks to its standard output. *)
Definition sample_child : child :=
  mkChild ["a"; "b"] []
          [mkRound 1 [Stdout; Stderr]; mkRound 1 [Stdout]; mkRound 1 [Stdout]]
          1 0.

(** A handle created with a capacity of zero. *)
Definition sample_silent : result t :=
  __init__ bare "s" ["/bin/cat"] ∅ ∅ None None None None "1" "1" "0".

End Process.

(** ** The watch session: [watch_command] and [_do_watch] *)

(** The line feed [b'\n'] *)
Definition LF : string := String "010"%char "".

(** What the capture threads may do while a session is suspended. *)
Inductive env_action :=
  | WorkerAdd (self : nat) (output_type : Z) (data : PyData)
  | WorkerExit (self : nat)
  | Elapse (dt : Z).

(** How a session stands when the script of the environment is used up
    or the client sends no further line. *)
Inductive session_end :=
  | Returned (msg : string)
  | Suspended.

(** One value of the dictionary [procs]:
    [{'p': proc, 't': 0, 'closed': False}] *)
Record tracked := mkTracked { p : nat; t : Z; closed : bool }.

(** A dictionary in insertion order. *)
Fixpoint dict_set {V} (k : string) (v : V) (d : list (string * V))
  : list (string * V) :=
  match d with
  | [] => [(k, v)]
  | (k', v') :: d' =>
      if String.eqb k k' then (k, v) :: d' else (k', v') :: dict_set k v d'
  end.

Definition dict {V} (pairs : list (string * V)) : list (string * V) :=
  foldl (λ d kv, dict_set kv.1 kv.2 d) [] pairs.

Definition dict_has {V} (k : string) (d : list (string * V)) : bool :=
  existsb (λ kv, String.eqb k kv.1) d.

(** [del d[k]], [KeyError] when the key is missing *)
Definition dict_del {V} (k : string) (d : list (string * V))
  : result (list (string * V)) :=
  if dict_has k d then Ok (filter (λ kv, kv.1 ≠ k) d) else Raise KeyError.

Section WatchSession.

(** The text [str.format] gives a timestamp. *)
Variable str_time : Z -> string.

(** [papa.utils.wildcard_iter(all_processes, args, True)]: the (name,
    process) pairs of the registry that [args] selects. *)
Variable wildcard_iter :
  gmap string nat -> list string -> result (list (string * nat)).

(** [sock.sendall(out)] *)
Definition sendall (out : string) : M Process.World unit :=
  fun w => (Ok tt, Process.set_sent (Process.sent w ++ [out]) w).

(** [connection.readline()]; [None] when the client sends nothing more
    and the call never returns. *)
Definition readline : M Process.World (option string) :=
  fun w => match Process.inbox w with
           | [] => (Ok None, w)
           | line :: rest => (Ok (Some line), Process.set_inbox rest w)
           end.

(** An exception in a capture thread ends that thread, not the session. *)
Definition in_thread {A} (c : M Process.World A) : M Process.World unit :=
  fun w => (Ok tt, (c w).2).

Definition act (a : env_action) : M Process.World unit :=
  match a with
  | WorkerAdd self ty d =>
      in_thread (now ← Process.time;
                 Process.with_output self (OutputQueue.add now ty d))
  | WorkerExit self =>
      in_thread (me ← Process.deref self;
                 Process.assign self (Process.set_running false me))
  | Elapse dt => Process.elapse dt
  end.

Fixpoint interfere (acts : list env_action) : M Process.World unit :=
  match acts with
  | [] => mret tt
  | a :: acts' => act a ≫= λ _, interfere acts'
  end.

(** ['{2}'.format(item.data)] of a CLOSED item *)
Definition format_data (d : PyData) : string :=
  match d with
  | DInt n => Py.str n
  | DNone => "None"
  | DBytes b => Py.repr_bytes b
  end.

(** What one item appends to [data]. *)
Definition frames (name : string) (item : OutputQueue.Item)
  : result (list string) :=
  if OutputQueue.type item =? OutputQueue.CLOSED then
    Ok ["closed:" +:+ name +:+ ":" +:+ str_time (OutputQueue.timestamp item)
        +:+ ":" +:+ format_data (OutputQueue.data item)]
  else
    n ← py_len (OutputQueue.data item);
    match OutputQueue.data item with
    | DBytes b =>
        Ok [(if OutputQueue.type item =? OutputQueue.STDOUT
             then "out" else "err") +:+ ":" +:+ name +:+ ":" +:+
            str_time (OutputQueue.timestamp item) +:+ ":" +:+ Py.str n;
            b]
    | _ => Raise TypeError
    end.

(** [for item in l: ...]: the frames and whether a CLOSED item was met. *)
Fixpoint frames_of (name : string) (l : list OutputQueue.Item)
  : result (list string * bool) :=
  match l with
  | [] => Ok ([], false)
  | item :: l' =>
      fs ← frames name item;
      '(rest, c) ← frames_of name l';
      Ok (fs ++ rest,
          (OutputQueue.type item =? OutputQueue.CLOSED) || c)
  end.

(** [for name, proc in procs.items(): t, l = proc['p'].watch(); ...]:
    the list [data] and the dictionary with [t] and [closed] updated. *)
Fixpoint collect (procs : list (string * tracked))
  : M Process.World (list string * list (string * tracked)) :=
  match procs with
  | [] => mret ([], [])
  | (name, proc) :: rest =>
      '(ts, l) ← Process.watch (p proc);
      '(fs, proc') ←
         (match l with
          | Some (item :: items) =>
              '(fs, c) ← lift (frames_of name (item :: items));
              mret (fs, mkTracked (p proc) ts (closed proc || c))
          | _ => mret ([], proc)
          end);
      '(data, rest') ← collect rest;
      mret (fs ++ data, (name, proc') :: rest')
  end.

(** After the acknowledgment: [for name, proc in procs.items(): t =
    proc['t']; if t: proc['p'].remove_output(t); if proc['closed']:
    closed.append(name)]. *)
Fixpoint trim (procs : list (string * tracked)) : M Process.World (list string) :=
  match procs with
  | [] => mret []
  | (name, proc) :: rest =>
      c ← (if negb (t proc =? 0) then
             Process.remove_output (p proc) (t proc) ≫= λ _,
             mret (if closed proc then [name] else [])
           else mret []);
      cs ← trim rest;
      mret (c ++ cs)
  end.

(** [for name in closed: del procs[name]; del all_processes[name]] *)
Fixpoint prune (closed : list string) (procs : list (string * tracked))
  : M Process.World (list (string * tracked)) :=
  match closed with
  | [] => mret procs
  | name :: closed' =>
      procs' ← lift (dict_del name procs);
      w ← get;
      (match Process.processes w !! name with
       | Some _ => put (Process.set_processes (delete name) w)
       | None => raise KeyError
       end) ≫= λ _,
      prune closed' procs'
  end.

(** [_do_watch(sock, procs, instance)].  Each turn of [while True] takes
    from [script] what the capture Process.threads do while the session is
    suspended in that turn, in [readline] or in [sleep]. *)
Fixpoint _do_watch (script : list (list env_action))
    (procs : list (string * tracked)) : M Process.World session_end :=
  match script with
  | [] => mret Suspended
  | acts :: script' =>
      '(data, procs) ← collect procs;
      match data with
      | _ :: _ =>
          sendall (Py.join LF (data ++ ["] "])) ≫= λ _,
          line ← readline;
          match line with
          | None => mret Suspended
          | Some line =>
              let one_line := Py.lower line in
              interfere acts ≫= λ _,
              closed ← trim procs;
              procs ← prune closed procs;
              match procs with
              | [] => mret (Returned "Nothing left to watch")
              | _ =>
                  if String.eqb one_line "q"
                  then mret (Returned "Stopped watching")
                  else _do_watch script' procs
              end
          end
      | [] => interfere acts ≫= λ _, _do_watch script' procs
      end
  end.


(** *** Notions used to state the properties of a session *)

(** The frames of an event in the words of the wire protocol: a header
    [<out|err>:<name>:<timestamp>:<byte-length>] and then the payload for
    a STDOUT or STDERR event, the single frame
    [closed:<name>:<timestamp>:<exit-status>] for a CLOSED event. *)
Definition event_frames (name : string) (item : OutputQueue.Item)
  : list string :=
  let stamp := str_time (OutputQueue.timestamp item) in
  match OutputQueue.data item with
  | DBytes payload =>
      let kind := if OutputQueue.type item =? OutputQueue.STDERR
                  then "err" else "out" in
      [kind +:+ ":" +:+ name +:+ ":" +:+ stamp +:+ ":" +:+
       Py.str (Z.of_nat (String.length payload));
       payload]
  | DInt status =>
      ["closed:" +:+ name +:+ ":" +:+ stamp +:+ ":" +:+ Py.str status]
  | DNone => []
  end.

(** The frames of the items seen of each process, process by process. *)
Definition snapshot_frames (snap : list (string * list OutputQueue.Item))
  : list string :=
  concat (map (λ ni, concat (map (event_frames ni.1) ni.2)) snap).

(** A batch: frames joined by line feeds and then the terminator. *)
Definition batch_of (data : list string) : string :=
  Py.join LF data +:+ LF +:+ "] ".

(** What [collect] reads of the handles: the items of each tracked
    process whose queue is not empty. *)
Fixpoint snapshot (objs : gmap nat Process.t) (procs : list (string * tracked))
  : list (string * list OutputQueue.Item) :=
  match procs with
  | [] => []
  | (name, proc) :: rest =>
      match objs !! p proc ≫= Process._output with
      | Some queue =>
          match OutputQueue.q queue with
          | [] => snapshot objs rest
          | items => (name, items) :: snapshot objs rest
          end
      | None => snapshot objs rest
      end
  end.

(** The dictionary after [collect]: the cursor of a process with items
    is the timestamp of its last item, and its flag is set once a CLOSED
    item was among them. *)
Definition observe (objs : gmap nat Process.t) (procs : list (string * tracked))
  : list (string * tracked) :=
  map (λ np,
         match objs !! p np.2 ≫= Process._output with
         | Some queue =>
             match last (OutputQueue.q queue) with
             | Some it =>
                 (np.1,
                  mkTracked (p np.2) (OutputQueue.timestamp it)
                    (closed np.2 ||
                     existsb (λ i, OutputQueue.type i =? OutputQueue.CLOSED)
                             (OutputQueue.q queue)))
             | None => np
             end
         | None => np
         end) procs.

(** The names [trim] reports closed: those with a cursor and the flag. *)
Definition pruned (procs : list (string * tracked)) : list string :=
  map fst (filter (λ kv, negb (t kv.2 =? 0) && closed kv.2 = true) procs).

End WatchSession.

(** The handle at [r] has an output queue. *)
Definition has_output (w : Process.World) (r : nat) : Prop :=
  ∃ h queue, Process.objs w !! r = Some h ∧ Process._output h = Some queue.

(** Every queue holds well-formed items only: stream items with bytes,
    CLOSED items with a status. *)
Definition wf_world (w : Process.World) : Prop :=
  ∀ r h queue,
    Process.objs w !! r = Some h → Process._output h = Some queue →
    forallb OutputQueue.item_wf (OutputQueue.q queue) = true.

Definition act_wf (a : env_action) : bool :=
  match a with
  | WorkerAdd _ ty d => OutputQueue.op_wf (OutputQueue.mkOp 0 ty d)
  | _ => true
  end.

(** A computation that touches neither the socket, the connection nor
    the registry, and takes no queue from a handle. *)
Definition quiet {A} (c : M Process.World A) : Prop :=
  ∀ w, Process.sent (c w).2 = Process.sent w ∧
       Process.inbox (c w).2 = Process.inbox w ∧
       Process.processes (c w).2 = Process.processes w ∧
       ∀ r, has_output w r → has_output (c w).2 r.

(** A computation that keeps the queues well-formed. *)
Definition keeps_wf {A} (c : M Process.World A) : Prop :=
  ∀ w, wf_world w → wf_world (c w).2.

(** [wf_world], as a check that computes. *)
Definition wf_worldb (w : Process.World) : bool :=
  forallb (λ rh : nat * Process.t,
             match Process._output rh.2 with
             | Some queue => forallb OutputQueue.item_wf (OutputQueue.q queue)
             | None => true
             end)
          (map_to_list (Process.objs w)).


(** A snapshot as [collect] takes it: no process without items. *)
Definition snapshot_wf (snap : list (string * list OutputQueue.Item)) : Prop :=
  Forall (λ ni, ni.2 ≠ [] ∧ forallb OutputQueue.item_wf ni.2 = true) snap.

(** A timestamp printed as a decimal, and a [wildcard_iter] that selects
    the whole registry. *)
Definition decimal_time (ts : Z) : string := pretty ts.


(** The process of [Process.sample_running] after its worker has run,
    watched by a client that answers [q]. *)
Definition sample_finished : Process.World :=
  Process.set_inbox ["q"]
    (Process._watch Process.sample_child 0 Process.sample_running).2.

Definition sample_tracked : list (string * tracked) :=
  [("a", mkTracked 0 0 false)].

(** The same process before its worker has seen the exit, with data. *)
Definition sample_streaming : Process.World :=
  Process.set_inbox [""; "Q"]
    ((act (WorkerAdd 0 OutputQueue.STDOUT (DBytes "hi")))
       Process.sample_running).2.

(** While the session waits, the worker adds a chunk in the second turn. *)
Definition sample_script : list (list env_action) :=
  [[]; [WorkerAdd 0 OutputQueue.STDOUT (DBytes "x")]; []].

(** ** The commands [process] and [processes] *)

(** Further built-ins on strings. *)
Module PyText.

(** [c.upper()] on one character *)
Definition upper_char (a : ascii) : ascii :=
  let n := Ascii.N_of_ascii a in
  if ((97 <=? n) && (n <=? 122))%N then Ascii.ascii_of_N (n - 32) else a.

(** [s.upper()] *)
Fixpoint upper (s : string) : string :=
  match s with
  | String a s' => String (upper_char a) (upper s')
  | EmptyString => EmptyString
  end.

(** [s.startswith(prefix)] *)
Definition startswith (prefix s : string) : bool := String.prefix prefix s.

(** [s[n:]] *)
Fixpoint slice_from (n : nat) (s : string) : string :=
  match n, s with
  | O, _ => s
  | S n', String _ s' => slice_from n' s'
  | S _, EmptyString => EmptyString
  end.

(** [sorted(l)] on strings, which Python orders by code point, a proper
    prefix first: an insertion sort. *)
Fixpoint insort (x : string) (l : list string) : list string :=
  match l with
  | [] => [x]
  | y :: l' => if String.leb x y then x :: l else y :: insort x l'
  end.

Definition sorted (l : list string) : list string := foldr insort [] l.

(** The double quote, as a string. *)
Definition DQ : string := String "034"%char "".

End PyText.

(** [d.get(k)] on a dictionary in insertion order *)
Fixpoint dict_get {V} (k : string) (d : list (string * V)) : option V :=
  match d with
  | [] => None
  | (k', v) :: d' => if String.eqb k k' then Some v else dict_get k d'
  end.

(** The three dictionaries the loop of [process_command] fills. *)
Record options := mkOptions {
  opt_env : gmap string string;
  opt_rlimits : gmap Z Z;
  opt_kwargs : list (string * string) }.

(** The keyword parameters of [Process.__init__] after [instance]. *)
Definition keywords : list string :=
  ["working_dir"; "shell"; "uid"; "gid"; "stdout"; "stderr"; "bufsize"].

Section Commands.

Variable str_time : Z -> string.

(** The platform: [pwd] and [grp], and the module [resource], given by
    the value of each attribute it defines; it is [None] where the
    import failed. *)
Variable plat : Platform.t.
Variable resource : option (string -> option Z).

(** [papa.utils.extract_name_value_pairs(args)]: the dictionary it
    returns, in iteration order, and the list [args] as it leaves it. *)
Variable extract_name_value_pairs :
  list string -> result (list (string * string) * list string).

(** [papa.utils.wildcard_iter(instance_globals['processes'], args)] *)
Variable wildcard_iter :
  gmap string nat -> list string -> result (list (string * nat)).

(** [getattr(resource, 'RLIMIT_%s' % key.upper())] *)
Definition getattr_rlimit (key : string) : result Z :=
  match resource with
  | Some attrs =>
      match attrs ("RLIMIT_" +:+ PyText.upper key) with
      | Some limit => Ok limit
      | None => Raise AttributeError
      end
  | None => Raise AttributeError
  end.

(** The body of [for key, value in ...items()].  In
    [rlimits[getattr(...)] = int(value)] the right-hand side is
    evaluated first. *)
Definition option_step (o : options) (key value : string) : result options :=
  if PyText.startswith "env." key then
    Ok (mkOptions (<[PyText.slice_from 4 key := value]> (opt_env o))
                  (opt_rlimits o) (opt_kwargs o))
  else if PyText.startswith "rlimit." key then
    let key := PyText.slice_from 7 key in
    match Py.int value with
    | Ok n =>
        match getattr_rlimit key with
        | Ok limit =>
            Ok (mkOptions (opt_env o) (<[limit := n]> (opt_rlimits o))
                          (opt_kwargs o))
        | Raise AttributeError =>
            Raise (Error ("Unknown rlimit " +:+ PyText.DQ +:+ key +:+ PyText.DQ))
        | Raise e => Raise e
        end
    | Raise ValueError =>
        Raise (Error ("The rlimit value for " +:+ PyText.DQ +:+ key +:+
                      PyText.DQ +:+ " must be an integer, not " +:+
                      PyText.DQ +:+ value +:+ PyText.DQ))
    | Raise e => Raise e
    end
  else
    Ok (mkOptions (opt_env o) (opt_rlimits o) (dict_set key value (opt_kwargs o))).

Fixpoint read_options (o : options) (pairs : list (string * string))
  : result options :=
  match pairs with
  | [] => Ok o
  | (key, value) :: pairs' =>
      o' ← option_step o key value;
      read_options o' pairs'
  end.

(** [watch = int(kwargs.pop('watch', 0))] *)
Definition pop_watch (kwargs : list (string * string))
  : result (Z * list (string * string)) :=
  match dict_get "watch" kwargs with
  | Some v =>
      n ← Py.int v;
      Ok (n, filter (λ kv, kv.1 ≠ "watch") kwargs)
  | None => Ok (0, kwargs)
  end.

(** [Process(name, args, env, rlimits, instance, **kwargs)]: a key that
    is no keyword parameter, or names a parameter given by position, is
    a [TypeError] of the call, raised before the body runs. *)
Definition Process_call (name : string) (args : list string)
    (env : gmap string string) (rlimits : gmap Z Z)
    (kwargs : list (string * string)) : result Process.t :=
  if forallb (λ kv : string * string, bool_decide (kv.1 ∈ keywords)) kwargs then
    Process.__init__ plat name args env rlimits
      (dict_get "working_dir" kwargs) (dict_get "shell" kwargs)
      (dict_get "uid" kwargs) (dict_get "gid" kwargs)
      (default "1" (dict_get "stdout" kwargs))
      (default "1" (dict_get "stderr" kwargs))
      (default "1m" (dict_get "bufsize" kwargs))
  else Raise TypeError.

(** [process_command(sock, args, instance)]; what it returns without
    [watch] is the text of the handle. *)
Definition process_command (script : list (list env_action))
    (args : list string) : M Process.World session_end :=
  match args with
  | [] => raise IndexError
  | name :: args =>
      '(pairs, args) ← lift (extract_name_value_pairs args);
      o ← lift (read_options (mkOptions ∅ ∅ []) pairs);
      '(watch, kwargs) ← lift (pop_watch (opt_kwargs o));
      result ← Process.start
                 (Process_call name args (opt_env o) (opt_rlimits o) kwargs);
      me ← Process.deref result;
      if negb (watch =? 0) then
        sendall (Process.__str__ me +:+ LF) ≫= λ _,
        _do_watch str_time script [(name, mkTracked result 0 false)]
      else mret (Returned (Process.__str__ me))
  end.

(** ['{0}'.format(proc) for _, proc in ...] *)
Fixpoint proc_lines (pairs : list (string * nat))
  : M Process.World (list string) :=
  match pairs with
  | [] => mret []
  | (_, proc) :: pairs' =>
      me ← Process.deref proc;
      rest ← proc_lines pairs';
      mret (Process.__str__ me :: rest)
  end.

(** [processes_command(sock, args, instance)] *)
Definition processes_command (args : list string) : M Process.World string :=
  w ← get;
  pairs ← lift (wildcard_iter (Process.processes w) args);
  lines ← proc_lines pairs;
  mret (Py.join LF (PyText.sorted lines)).

End Commands.

(** *** Notions used to state further properties *)

(** Calls on one queue, as the capture worker ([add]) and the sessions
    ([retrieve], [remove]) interleave them. *)
Inductive call :=
  | Add (o : OutputQueue.op)
  | Retrieve
  | Remove (ts : Z).

Definition call_wf (c : call) : bool :=
  match c with
  | Add o => OutputQueue.op_wf o
  | _ => true
  end.

Definition do_call (c : call) : M OutputQueue.t unit :=
  match c with
  | Add o => OutputQueue.add_op o
  | Retrieve => fun s => let _ := OutputQueue.retrieve s in (Ok tt, s)
  | Remove ts => fun s => (Ok tt, OutputQueue.remove ts s)
  end.

Fixpoint do_calls (cs : list call) : M OutputQueue.t unit :=
  match cs with
  | [] => mret tt
  | c :: cs' => do_call c ≫= λ _, do_calls cs'
  end.

(** The only payload of a queue is one item of at least the capacity,
    at its front. *)
Definition lone_oversize (cap : Z) (q : list OutputQueue.Item) : Prop :=
  ∃ it rest, q = it :: rest ∧ cap <= OutputQueue.payload it ∧
             OutputQueue.retained rest = 0.

(** The invariant of a queue used by a worker and by sessions: the items
    are well-formed, the count is at least the payload retained, and the
    payload retained is within the capacity unless it is that of a lone
    oversize item. *)
Definition shared_inv (s : OutputQueue.t) : Prop :=
  forallb OutputQueue.item_wf (OutputQueue.q s) = true ∧
  OutputQueue.retained (OutputQueue.q s) <= OutputQueue._used s ∧
  (OutputQueue.retained (OutputQueue.q s) <= OutputQueue.bufsize s ∨
   lone_oversize (OutputQueue.bufsize s) (OutputQueue.q s)).

(** The chunks a pipe has yet to deliver. *)
Definition chunks_of (pp : Process.pipe) (st : list string * list string)
  : list string :=
  match pp with
  | Process.Stdout => st.1
  | Process.Stderr => st.2
  end.

Definition type_of (pp : Process.pipe) : Z :=
  match pp with
  | Process.Stdout => OutputQueue.STDOUT
  | Process.Stderr => OutputQueue.STDERR
  end.

(** The calls of [add] for chunks read one per round, each stamped with
    the clock at the return of its [select]. *)
Fixpoint stamped (ty : Z) (now : Z) (rs : list Process.round)
    (chunks : list string) : list OutputQueue.op :=
  match rs, chunks with
  | r :: rs', ch :: chunks' =>
      OutputQueue.mkOp (now + Process.elapsed r) ty (DBytes ch)
      :: stamped ty (now + Process.elapsed r) rs' chunks'
  | _, _ => []
  end.

Definition total_elapsed (rs : list Process.round) : Z :=
  foldr (λ r acc, Process.elapsed r + acc) 0 rs.

(** Every registered name refers to a handle of that name that has been
    spawned: it has an output queue. *)
Definition registry_wf (w : Process.World) : Prop :=
  ∀ n r, Process.processes w !! n = Some r →
    ∃ h queue, Process.objs w !! r = Some h ∧ Process.name h = n ∧
               Process._output h = Some queue.

(** An action of the environment that adds no output. *)
Definition silent (a : env_action) : bool :=
  match a with
  | WorkerAdd _ _ _ => false
  | _ => true
  end.

(** The handle at [r] has an empty queue. *)
Definition no_items (w : Process.World) (r : nat) : Prop :=
  ∃ h queue, Process.objs w !! r = Some h ∧ Process._output h = Some queue ∧
             OutputQueue.q queue = [].

(** A stand-in for [extract_name_value_pairs]: it takes the leading
    arguments that hold a [=] and splits each at the first one; a key
    given twice keeps its first place and its last value, as in a
    dictionary. *)
Fixpoint split_eq (s : string) : option (string * string) :=
  match s with
  | EmptyString => None
  | String a s' =>
      if Ascii.eqb a "="%char then Some ("", s')
      else match split_eq s' with
           | Some (k, v) => Some (String a k, v)
           | None => None
           end
  end.

Fixpoint leading_pairs (args : list string)
  : list (string * string) * list string :=
  match args with
  | [] => ([], [])
  | a :: args' =>
      match split_eq a with
      | Some kv => let '(pairs, rest) := leading_pairs args' in (kv :: pairs, rest)
      | None => ([], args)
      end
  end.

Definition sample_extract (args : list string)
  : result (list (string * string) * list string) :=
  let '(pairs, rest) := leading_pairs args in Ok (dict pairs, rest).

(** A [resource] module that defines two limits. *)
Definition sample_resource : option (string -> option Z) :=
  Some (λ attr, if String.eqb attr "RLIMIT_NOFILE" then Some 7
                else if String.eqb attr "RLIMIT_CPU" then Some 0
                else None).

(** How the state may change while handles are watched and trimmed: the
    registry only loses names, and those among [names] only; no OS
    process is created and no thread started; every handle stays where it
    is, with its name, and keeps having an output queue if it had one. *)
Definition evolves (names : list string) (w w' : Process.World) : Prop :=
  (∀ n r, Process.processes w' !! n = Some r →
          Process.processes w !! n = Some r) ∧
  (∀ n, n ∉ names → Process.processes w' !! n = Process.processes w !! n) ∧
  Process.os w' = Process.os w ∧ Process.threads w' = Process.threads w ∧
  Process.next_pid w' = Process.next_pid w ∧
  ∀ r h, Process.objs w !! r = Some h →
    ∃ h', Process.objs w' !! r = Some h' ∧ Process.name h' = Process.name h ∧
          (is_Some (Process._output h) → is_Some (Process._output h')).

Definition gentle {A} (c : M Process.World A) : Prop :=
  ∀ w, evolves [] w (c w).2.

(** A handle whose standard error is merged into its standard output,
    spawned, and a child that writes two chunks and exits. *)
Definition sample_merged : result Process.t :=
  Process.__init__ Process.bare "m" ["/bin/cat"] ∅ ∅ None None None None
    "1" "stdout" "1m".

Definition sample_merged_running : Process.World :=
  (Process.start sample_merged Process.empty_world).2.

Definition sample_writer : Process.child :=
  Process.mkChild ["a"; "b"] []
    [Process.mkRound 1 [Process.Stdout]; Process.mkRound 2 [Process.Stdout];
     Process.mkRound 3 [Process.Stdout]; Process.mkRound 9 [Process.Stdout]]
    1 0.

(** The order of Python on strings, as a relation. *)
Definition str_le (a b : string) : Prop := String.leb a b = true.

(** The texts of the handles a list of (name, process) pairs refers to. *)
Definition listing (w : Process.World) (pairs : list (string * nat))
  : list string :=
  omap (λ np : string * nat, Process.__str__ <$> Process.objs w !! np.2) pairs.
(* ================================================================== *)
(** * Properties *)
(* ================================================================== *)

(** ** The bounded output buffer *)

Module OutputQueueSpec.
Import OutputQueue.

Lemma retained_app q1 q2 : retained (q1 ++ q2) = retained q1 + retained q2.
Proof. induction q1 as [|a q1 IH]; simpl; [done | rewrite IH; lia]. Qed.

Lemma payload_nonneg it : 0 <= payload it.
Proof. unfold payload. destruct (type it =? CLOSED), (data it); lia. Qed.

Lemma retained_nonneg q : 0 <= retained q.
Proof.
  induction q as [|a q IH]; simpl; [lia | pose proof (payload_nonneg a); lia].
Qed.

Lemma item_wf_of_op o : op_wf o = true → item_wf (item_of o) = true.
Proof. by destruct o. Qed.

Lemma stream_not_closed it : stream_item it = true → (type it =? CLOSED) = false.
Proof.
  unfold stream_item, STDOUT, STDERR, CLOSED. intros H.
  apply andb_true_iff in H as [H _].
  apply orb_true_iff in H as [H|H]; apply Z.eqb_eq in H; by rewrite H.
Qed.

Lemma stream_payload it :
  stream_item it = true → py_len (data it) = Ok (payload it).
Proof.
  intros H. unfold payload. rewrite (stream_not_closed _ H).
  unfold stream_item in H. apply andb_true_iff in H as [_ H].
  by destruct (data it).
Qed.

Lemma wf_len_payload it n :
  item_wf it = true → py_len (data it) = Ok n → payload it = n ∧ stream_item it = true.
Proof.
  unfold item_wf. intros H L. apply orb_true_iff in H as [H|H].
  - rewrite (stream_payload _ H) in L. by injection L as <-.
  - apply andb_true_iff in H as [_ H]. by destruct (data it).
Qed.

(** What a completed eviction did: it popped a prefix [ev], one item at
    a time while the count was above the capacity. *)
Lemma evict_ok cap q0 : ∀ used used' q',
  forallb item_wf q0 = true →
  evict cap used q0 = (None, (used', q')) →
  ∃ ev, q0 = ev ++ q' ∧ used' = used - retained ev ∧ used' <= cap ∧
        ∀ ev1 e ev2, ev = ev1 ++ e :: ev2 → cap < used - retained ev1.
Proof.
  induction q0 as [|a q0 IH]; intros used used' q' Hwf; simpl.
  - destruct (cap <? used) eqn:E; [done|]. intros [= <- <-].
    exists []. simpl. repeat split; try lia.
    intros ev1 e ev2 H. by destruct ev1.
  - simpl in Hwf. apply andb_true_iff in Hwf as [Ha Hq].
    destruct (cap <? used) eqn:E.
    + destruct (py_len (data a)) as [n|e] eqn:L; [|done].
      intros H. destruct (IH _ _ _ Hq H) as (ev & -> & -> & Hle & Hmin).
      destruct (wf_len_payload _ _ Ha L) as [Hp _].
      exists (a :: ev). simpl. repeat split; try lia.
      intros [|b ev1] e ev2; simpl; intros [= ? ?]; subst.
      * simpl. lia.
      * specialize (Hmin _ _ _ eq_refl). simpl. lia.
    + intros [= <- <-]. exists []. simpl. repeat split; try lia.
      intros ev1 e ev2 H. by destruct ev1.
Qed.

(** Eviction cannot run dry or meet a status while the queue holds only
    stream items and the incoming payload fits the capacity. *)
Lemma evict_total cap q0 : ∀ used,
  forallb stream_item q0 = true → used - retained q0 <= cap →
  ∃ used' q', evict cap used q0 = (None, (used', q')).
Proof.
  induction q0 as [|a q0 IH]; intros used Hs Hle; simpl in *.
  - destruct (cap <? used) eqn:E; [lia | eauto].
  - apply andb_true_iff in Hs as [Ha Hq].
    destruct (cap <? used) eqn:E; [|eauto].
    rewrite (stream_payload _ Ha). apply IH; [done | lia].
Qed.

Lemma add_all_app ops1 ops2 s :
  add_all (ops1 ++ ops2) s =
  match add_all ops1 s with
  | (Ok _, s1) => add_all ops2 s1
  | (Raise e, s1) => (Raise e, s1)
  end.
Proof.
  revert s. induction ops1 as [|o ops1 IH]; intros s; simpl; [done|].
  unfold mbind, M_bind, bind. destruct (add_op o s) as [[[]|e] s1]; [apply IH | done].
Qed.

Lemma inv_init cap : inv (__init__ cap).
Proof. by split. Qed.

(** One successful [add] from a state that satisfies the invariant. *)
Lemma add_step o s s' :
  inv s → op_wf o = true → add_op o s = (Ok tt, s') →
  inv s' ∧ bufsize s' = bufsize s ∧
  if accounted o then
    ∃ n, py_len (op_data o) = Ok n ∧
      if bufsize s <=? n then q s' = [item_of o] ∧ _used s' = n
      else _used s' <= bufsize s ∧
           ∃ ev kept, q s = ev ++ kept ∧ q s' = kept ++ [item_of o] ∧
             ∀ ev1 e ev2, ev = ev1 ++ e :: ev2 →
               bufsize s < retained (e :: ev2 ++ kept) + n
  else q s' = q s ++ [item_of o] ∧ _used s' = _used s.
Proof.
  intros [Hwf Hu] Ho. pose proof (item_wf_of_op _ Ho) as Hit.
  unfold add_op, add, accounted. fold (item_of o).
  destruct (negb (op_type o =? CLOSED) && truthy (op_data o)) eqn:Hacc.
  - destruct (py_len (op_data o)) as [n|e] eqn:L; [|done].
    destruct (wf_len_payload (item_of o) n Hit L) as [Hp _].
    destruct (bufsize s <=? n) eqn:Hbig.
    + intros [= <-]. repeat split; simpl.
      * by rewrite Hit.
      * lia.
      * exists n. rewrite Hbig. done.
    + destruct (evict (bufsize s) (_used s + n) (q s)) as [[e|] [used' q']] eqn:E;
        [done|]. intros [= <-].
      destruct (evict_ok _ _ _ _ _ Hwf E) as (ev & Hq & Hu' & Hle & Hmin).
      rewrite Hq, forallb_app in Hwf. apply andb_true_iff in Hwf as [_ Hk].
      rewrite Hq, retained_app in Hu.
      repeat split; simpl.
      * rewrite forallb_app, Hk. simpl. by rewrite Hit.
      * rewrite retained_app. simpl. lia.
      * exists n. rewrite Hbig. split; [done|]. split; [lia|].
        exists ev, q'. split; [done|]. split; [done|].
        intros ev1 e ev2 ->. specialize (Hmin _ _ _ eq_refl).
        rewrite retained_app in Hu. simpl in Hu.
        rewrite retained_app. lia.
  - intros [= <-]. repeat split; simpl; try done.
    + rewrite forallb_app, Hwf. simpl. by rewrite Hit.
    + rewrite retained_app. simpl.
      assert (payload (item_of o) = 0) as ->; [|lia].
      unfold payload, item_of; simpl.
      apply andb_false_iff in Hacc as [H|H].
      * apply negb_false_iff in H. by rewrite H.
      * destruct (op_type o =? CLOSED); [done|].
        destruct (op_data o) as [b| |]; try done. simpl in H.
        apply negb_false_iff, String.eqb_eq in H. by subst.
Qed.

Lemma add_all_inv ops : ∀ s s',
  inv s → forallb op_wf ops = true → add_all ops s = (Ok tt, s') →
  inv s' ∧ bufsize s' = bufsize s.
Proof.
  induction ops as [|o ops IH]; intros s s' Hi Hw; simpl in *.
  - by intros [= <-].
  - apply andb_true_iff in Hw as [Ho Hw].
    unfold mbind, M_bind, bind. destruct (add_op o s) as [[[]|e] s1] eqn:E; [|done].
    intros H. destruct (add_step _ _ _ Hi Ho E) as (Hi1 & Hb1 & _).
    destruct (IH _ _ Hi1 Hw H) as [? ?]. split; [done | congruence].
Qed.

(** [add] raises nothing while the queue holds stream items only. *)
Lemma add_total o s :
  inv s → forallb stream_item (q s) = true → op_wf o = true →
  ∃ s', add_op o s = (Ok tt, s') ∧
        (stream_op o = true → forallb stream_item (q s') = true).
Proof.
  intros [Hwf Hu] Hs Ho. pose proof (item_wf_of_op _ Ho) as Hit.
  assert (stream_op o = true → stream_item (item_of o) = true) as Hso
    by (by destruct o).
  unfold add_op, add. fold (item_of o).
  destruct (negb (op_type o =? CLOSED) && truthy (op_data o)) eqn:Hacc.
  - apply andb_true_iff in Hacc as [Hty Htr].
    assert (stream_op o = true) as Hst.
    { unfold op_wf, closed_op in Ho. apply negb_true_iff in Hty.
      rewrite Hty in Ho. simpl in Ho. by rewrite orb_false_r in Ho. }
    destruct (op_data o) as [b| |] eqn:D;
      try (unfold stream_op in Hst; rewrite D, andb_false_r in Hst; done).
    simpl. destruct (bufsize s <=? Z.of_nat (String.length b)) eqn:Hbig.
    + eexists. split; [done|]. intros _. simpl. by rewrite (Hso Hst).
    + destruct (evict_total (bufsize s) (q s)
                  (_used s + Z.of_nat (String.length b)) Hs) as (u' & q' & E);
        [lia|].
      rewrite E. eexists. split; [done|]. intros _. simpl.
      destruct (evict_ok _ _ _ _ _ Hwf E) as (ev & Hq & _).
      rewrite Hq, forallb_app in Hs. apply andb_true_iff in Hs as [_ Hk].
      rewrite forallb_app, Hk. simpl. by rewrite (Hso Hst).
  - eexists. split; [done|]. intros Hst. simpl.
    rewrite forallb_app, Hs. simpl. by rewrite (Hso Hst).
Qed.

Lemma add_all_total ops : ∀ s,
  inv s → forallb stream_item (q s) = true → forallb stream_op ops = true →
  ∃ s', add_all ops s = (Ok tt, s') ∧ forallb stream_item (q s') = true.
Proof.
  induction ops as [|o ops IH]; intros s Hi Hs Hops; simpl in *.
  - by exists s.
  - apply andb_true_iff in Hops as [Ho Hops].
    assert (op_wf o = true) as Hw by (unfold op_wf; by rewrite Ho).
    destruct (add_total o s Hi Hs Hw) as (s1 & E & Hs1).
    unfold mbind, M_bind, bind. rewrite E.
    destruct (add_step _ _ _ Hi Hw E) as (Hi1 & _).
    apply IH; auto.
Qed.

(** C1, as stated, fails: capacity 4, a 5-byte STDOUT payload and then
    the CLOSED event of the capture worker.  After the second [add],
    whose payload is not an oversize one, 5 bytes are retained. *)
Lemma add_bound_as_stated_fails :
  ¬ (∀ cap ops o s',
       0 < cap → forallb op_wf (ops ++ [o]) = true →
       add_all (ops ++ [o]) (__init__ cap) = (Ok tt, s') →
       bound_as_stated cap o s').
Proof.
  intros H.
  specialize (H 4 [mkOp 1 STDOUT (DBytes "hello")] (mkOp 2 CLOSED (DInt 0))
                _ ltac:(lia) eq_refl eq_refl).
  vm_compute in H. destruct H as [H _]. by apply H.
Qed.

(** C1 (amended).  Along every sequence of well-formed [add] calls on a
    fresh queue of any capacity, [_used] is the payload retained (CLOSED
    items count for nothing).  An [add] of a non-empty stream payload of
    at least the capacity leaves that item alone, with [_used] its
    length; one of a shorter payload leaves [_used] within the capacity,
    after popping items from the front, oldest first, each only while
    the count was above the capacity, and appends the item; an [add] of
    a CLOSED item or an empty payload appends the item and leaves
    [_used] as it was.  No [add] raises while only stream items have
    been added. *)
Theorem add_bound (cap : Z) (ops : list op) (o : op) :
  forallb op_wf ops = true → op_wf o = true →
  (forallb stream_op ops = true →
   ∃ s s', add_all ops (__init__ cap) = (Ok tt, s) ∧
           add_op o s = (Ok tt, s')) ∧
  ∀ s s',
    add_all ops (__init__ cap) = (Ok tt, s) → add_op o s = (Ok tt, s') →
    _used s' = retained (q s') ∧
    if accounted o then
      ∃ n, py_len (op_data o) = Ok n ∧
        if cap <=? n then q s' = [item_of o] ∧ _used s' = n
        else _used s' <= cap ∧
             ∃ ev kept, q s = ev ++ kept ∧ q s' = kept ++ [item_of o] ∧
               ∀ ev1 e ev2, ev = ev1 ++ e :: ev2 →
                 cap < retained (e :: ev2 ++ kept) + n
    else q s' = q s ++ [item_of o] ∧ _used s' = _used s.
Proof.
  intros Hops Ho. split.
  - intros Hst.
    destruct (add_all_total ops (__init__ cap) (inv_init cap) eq_refl Hst)
      as (s & E & Hs).
    destruct (add_all_inv _ _ _ (inv_init cap) Hops E) as [Hi _].
    destruct (add_total o s Hi Hs Ho) as (s' & E' & _). eauto.
  - intros s s' E E'.
    destruct (add_all_inv _ _ _ (inv_init cap) Hops E) as [Hi Hb].
    destruct (add_step _ _ _ Hi Ho E') as ([_ Hu] & _ & Hcase).
    simpl in Hb. rewrite Hb in Hcase. done.
Qed.

Lemma add_bound_witness :
  ∃ s s', add_all sample_ops (__init__ 4) = (Ok tt, s) ∧
          add_op sample_op s = (Ok tt, s') ∧ _used s' = retained (q s') ∧
          _used s' = 3.
Proof.
  destruct (add_bound 4 sample_ops sample_op eq_refl eq_refl) as [Hrun Hpost].
  destruct (Hrun eq_refl) as (s & s' & E & E').
  exists s, s'. split; [exact E|]. split; [exact E'|].
  destruct (Hpost s s' E E') as [Hu _]. split; [exact Hu|].
  vm_compute in E. injection E as <-. vm_compute in E'. injection E' as <-.
  reflexivity.
Defined.

(** *** remove *)

Lemma nondecreasing_tail a q0 :
  nondecreasing (a :: q0) = true → nondecreasing q0 = true.
Proof.
  simpl. destruct q0; [done|]. intros H. by apply andb_true_iff in H as [_ ?].
Qed.

Lemma nondecreasing_above ts q0 : ∀ a,
  nondecreasing (a :: q0) = true → ts < timestamp a →
  Forall (λ it, ts < timestamp it) (a :: q0).
Proof.
  induction q0 as [|b q0 IH]; intros a Hs Ha.
  - by constructor.
  - constructor; [done|]. simpl in Hs. apply andb_true_iff in Hs as [Hab Hs].
    apply IH; [done | lia].
Qed.

Lemma popleft_while_split ts q0 :
  ∃ pre, q0 = pre ++ popleft_while ts q0 ∧
         Forall (λ it, timestamp it <= ts) pre ∧
         match popleft_while ts q0 with
         | [] => True
         | first :: _ => ts < timestamp first
         end.
Proof.
  induction q0 as [|a q0 (pre & Hq & Hpre & Hhd)]; simpl.
  - exists []. by repeat split.
  - destruct (timestamp a <=? ts) eqn:E.
    + exists (a :: pre). split; [simpl; by f_equal|]. split; [|done].
      constructor; [lia | done].
    + exists []. split; [done|]. split; [constructor | lia].
Qed.

Lemma popleft_while_idem ts q0 :
  popleft_while ts (popleft_while ts q0) = popleft_while ts q0.
Proof.
  induction q0 as [|a q0 IH]; simpl; [done|].
  destruct (timestamp a <=? ts) eqn:E; [done|]. simpl. by rewrite E.
Qed.

(** C2.  On a queue whose timestamps never decrease, [remove ts] pops a
    prefix of items stamped at most [ts] and keeps, unchanged and in
    order, the rest, every item of which is stamped later than [ts]: the
    prefix is the maximal one, and every item stamped at most [ts] is
    gone.  A second [remove ts] changes nothing. *)
Theorem remove_prefix (ts : Z) (s : t) :
  nondecreasing (q s) = true →
  (∃ pre, q s = pre ++ q (remove ts s) ∧
          Forall (λ it, timestamp it <= ts) pre) ∧
  Forall (λ it, ts < timestamp it) (q (remove ts s)) ∧
  bufsize (remove ts s) = bufsize s ∧
  remove ts (remove ts s) = remove ts s.
Proof.
  intros Hs. destruct (popleft_while_split ts (q s)) as (pre & Hq & Hpre & Hhd).
  split; [by exists pre|]. split; [|split; [done|]].
  - simpl. destruct (popleft_while ts (q s)) as [|a r] eqn:E; [constructor|].
    apply nondecreasing_above; [|done].
    rewrite Hq in Hs. clear -Hs. induction pre as [|b pre IH]; [done|].
    apply IH. by apply (nondecreasing_tail b).
  - unfold remove. simpl. by rewrite popleft_while_idem.
Qed.

(** [remove] gives no bytes back to [_used]: once a watcher has trimmed
    the queue, an [add] that has to evict can find the queue empty. *)
Lemma add_after_remove_raises :
  ∃ s1 s2,
    add_op (mkOp 1 STDOUT (DBytes "123456")) (__init__ 10) = (Ok tt, s1) ∧
    add_op (mkOp 2 STDOUT (DBytes "abcdef")) (remove 1 s1)
    = (Raise IndexError, s2).
Proof. vm_compute. eauto. Qed.

Lemma remove_prefix_witness :
  q (remove 3 sample_queue) =
    [mkItem STDOUT 5 (DBytes "c"); mkItem CLOSED 7 (DInt 0)] ∧
  Forall (λ it, 3 < timestamp it) (q (remove 3 sample_queue)) ∧
  remove 3 (remove 3 sample_queue) = remove 3 sample_queue.
Proof.
  destruct (remove_prefix 3 sample_queue eq_refl) as (_ & Hlater & _ & Hidem).
  split; [reflexivity|]. split; [exact Hlater | exact Hidem].
Defined.

End OutputQueueSpec.

(** ** Size strings *)

Module SizeSpec.
Import Py.

(** *** Strings *)

Lemma append_assoc (a b c : string) : (a +:+ b) +:+ c = a +:+ (b +:+ c).
Proof.
  induction a as [|x a IH]; [done|].
  change (String x ((a +:+ b) +:+ c) = String x (a +:+ (b +:+ c))).
  by rewrite IH.
Qed.

Lemma append_cons a s t : String a s +:+ t = String a (s +:+ t).
Proof. done. Qed.

Lemma append_nil_r s : s +:+ "" = s.
Proof.
  induction s as [|x s IH]; [done|].
  change (String x (s +:+ "") = String x s). by rewrite IH.
Qed.

Lemma but_last_snoc s c : but_last (s +:+ String c "") = s.
Proof.
  induction s as [|a s IH]; simpl; [done|]. rewrite IH.
  by destruct s.
Qed.

Lemma last_char_snoc s c : last_char (s +:+ String c "") = Ok c.
Proof.
  induction s as [|a s IH]; simpl; [done|]. rewrite IH. by destruct s.
Qed.

Lemma last_char_nonempty a s : ∃ c, last_char (String a s) = Ok c.
Proof.
  revert a. induction s as [|b s IH]; intros a; simpl; eauto.
Qed.

Lemma last_char_cons a b s :
  last_char (String a (String b s)) = last_char (String b s).
Proof. done. Qed.

Lemma last_char_app s a t : last_char (s +:+ String a t) = last_char (String a t).
Proof.
  induction s as [|b s IH]; [done|].
  change (String b s +:+ String a t) with (String b (s +:+ String a t)).
  destruct (s +:+ String a t) as [|x y] eqn:E; [by destruct s|].
  by rewrite last_char_cons.
Qed.

Lemma snoc_but_last a s c :
  last_char (String a s) = Ok c →
  String a s = but_last (String a s) +:+ String c "".
Proof.
  revert a. induction s as [|b s IH]; intros a.
  - by intros [= ->].
  - rewrite last_char_cons. intros H.
    change (String a (String b s) =
            String a (but_last (String b s) +:+ String c "")).
    f_equal. by apply IH.
Qed.

(** *** Characters *)

Lemma digit_not_space a : is_digit a = true → is_space a = false.
Proof.
  unfold is_digit, is_space. intros H.
  apply andb_true_iff in H as [H1 H2].
  apply N.leb_le in H1. apply N.leb_le in H2.
  apply orb_false_iff. split.
  - apply N.eqb_neq. lia.
  - apply andb_false_iff. right. apply N.leb_gt. lia.
Qed.

Lemma digit_not_mark a :
  is_digit a = true →
  Ascii.eqb a "_" = false ∧ Ascii.eqb a "+" = false ∧ Ascii.eqb a "-" = false.
Proof.
  destruct a as [[] [] [] [] [] [] [] []]; vm_compute; by intros.
Qed.

Lemma suffix_char c m :
  size_suffix (lower_char c) = Some m → is_digit c = false ∧ is_space c = false.
Proof.
  destruct c as [[] [] [] [] [] [] [] []]; vm_compute; by intros.
Qed.

(** *** White space on both sides *)

Lemma lstrip_split s : ∃ l, s = l +:+ lstrip s ∧ all_space l = true.
Proof.
  induction s as [|a s (l & Hl & Hs)]; [by exists ""|]. simpl.
  destruct (is_space a) eqn:E; [|by exists ""].
  exists (String a l). rewrite append_cons. simpl. rewrite E.
  split; [by f_equal | done].
Qed.

Lemma rstrip_split s : ∃ r, s = rstrip s +:+ r ∧ all_space r = true.
Proof.
  induction s as [|a s (r & Hr & Hs)]; [by exists ""|]. simpl.
  destruct (is_space a && String.eqb (rstrip s) "") eqn:E.
  - apply andb_true_iff in E as [Ea Ee]. apply String.eqb_eq in Ee.
    rewrite Ee in Hr. change ("" +:+ r) with r in Hr. subst s.
    exists (String a r). split; [done|]. simpl. by rewrite Ea.
  - exists r. rewrite append_cons. split; [by f_equal | done].
Qed.

Lemma lstrip_space l s : all_space l = true → lstrip (l +:+ s) = lstrip s.
Proof.
  induction l as [|a l IH]; [done|]. rewrite append_cons. simpl. intros H.
  apply andb_true_iff in H as [-> H]. by apply IH.
Qed.

Lemma rstrip_all_space r : all_space r = true → rstrip r = "".
Proof.
  induction r as [|a r IH]; simpl; [done|]. intros H.
  apply andb_true_iff in H as [-> H]. by rewrite IH.
Qed.

Lemma rstrip_space s r : all_space r = true → rstrip (s +:+ r) = rstrip s.
Proof.
  intros H. induction s as [|a s IH]; [by apply rstrip_all_space|].
  rewrite append_cons. simpl. by rewrite IH.
Qed.

Lemma rstrip_keep s c :
  last_char s = Ok c → is_space c = false → rstrip s = s.
Proof.
  induction s as [|a s IH]; [done|]. destruct s as [|b s].
  - simpl. by intros [= ->] ->.
  - rewrite last_char_cons. intros H Hc. specialize (IH H Hc).
    change (rstrip (String a (String b s)))
      with (if is_space a && String.eqb (rstrip (String b s)) ""
            then "" else String a (rstrip (String b s))).
    rewrite IH. simpl. by rewrite andb_false_r.
Qed.

Lemma all_space_last a r :
  all_space (String a r) = true →
  ∃ c, last_char (String a r) = Ok c ∧ is_space c = true.
Proof.
  revert a. induction r as [|b r IH]; intros a H.
  - simpl in H. apply andb_true_iff in H as [H _]. by exists a.
  - rewrite last_char_cons. apply IH. simpl in H.
    apply andb_true_iff in H as [_ H]. exact H.
Qed.

(** The text between the white space is what [strip] leaves. *)
Lemma strip_core l a t r c :
  all_space l = true → all_space r = true → is_space a = false →
  last_char (String a t) = Ok c → is_space c = false →
  strip (l +:+ String a t +:+ r) = String a t.
Proof.
  intros Hl Hr Ha Hc Hs. unfold strip.
  rewrite <- append_assoc, (rstrip_space _ _ Hr).
  rewrite (rstrip_keep _ c); [| by rewrite last_char_app | done].
  rewrite (lstrip_space _ _ Hl). simpl. by rewrite Ha.
Qed.

Lemma strip_split s :
  ∃ l r, s = l +:+ strip s +:+ r ∧ all_space l = true ∧ all_space r = true.
Proof.
  destruct (rstrip_split s) as (r & Hr & Hrs).
  destruct (lstrip_split (rstrip s)) as (l & Hl & Hls).
  exists l, r. split; [|done]. unfold strip.
  rewrite <- append_assoc, <- Hl. exact Hr.
Qed.

(** *** Digits *)

Lemma grouped_head s ds :
  grouped s ds → ∃ a t, s = String a t ∧ is_digit a = true.
Proof. destruct 1; eauto. Qed.

Lemma grouped_last_char s ds :
  grouped s ds → ∃ c, last_char s = Ok c ∧ is_digit c = true.
Proof.
  induction 1 as [a Ha | a s ds Ha Hg (c & Hc & Hd) | a s ds Ha Hg (c & Hc & Hd)].
  - by exists a.
  - destruct (grouped_head _ _ Hg) as (b & t & -> & _).
    exists c. by rewrite last_char_cons.
  - destruct (grouped_head _ _ Hg) as (b & t & -> & _).
    exists c. by rewrite !last_char_cons.
Qed.

Lemma grouped_plain s : plain_decimal s = true → grouped s s.
Proof.
  unfold plain_decimal. intros H. apply andb_true_iff in H as [Hne Hd].
  induction s as [|a s IH]; [done|]. simpl in Hd.
  apply andb_true_iff in Hd as [Ha Hs].
  destruct s as [|b s]; [by constructor|].
  apply grouped_next; [done|]. by apply IH.
Qed.

Lemma digits_sound n : ∀ s acc cnt v c,
  (String.length s <= n)%nat → digits acc cnt s = Some (v, c) →
  ∃ ds, grouped s ds ∧
        v = acc * 10 ^ Z.of_nat (String.length ds) + decimal_value ds ∧
        c = (cnt + String.length ds)%nat.
Proof.
  induction n as [|n IH]; intros s acc cnt v c Hlen H;
    destruct s as [|a s]; simpl in Hlen, H; try done; [lia|].
  destruct (is_digit a) eqn:Ea; [|done]. destruct s as [|b s].
  - injection H as <- <-. exists (String a "").
    split; [by constructor|]. simpl. split; lia.
  - destruct (Ascii.eqb b "_") eqn:Eb.
    + apply Ascii.eqb_eq in Eb as ->.
      apply IH in H as (ds & Hg & -> & ->); [|simpl in Hlen; lia].
      exists (String a ds). split; [by apply grouped_sep|]. simpl.
      split; [|lia]. rewrite Nat2Z.inj_succ, Z.pow_succ_r by lia. lia.
    + apply IH in H as (ds & Hg & -> & ->); [|simpl in *; lia].
      exists (String a ds). split; [by apply grouped_next|]. simpl.
      split; [|lia]. rewrite Nat2Z.inj_succ, Z.pow_succ_r by lia. lia.
Qed.

Lemma digits_cons acc cnt a s :
  digits acc cnt (String a s) =
  if is_digit a then
    match s with
    | "" => Some (acc * 10 + digit_val a, S cnt)
    | String b s'' =>
        if Ascii.eqb b "_" then digits (acc * 10 + digit_val a) (S cnt) s''
        else digits (acc * 10 + digit_val a) (S cnt) s
    end
  else None.
Proof. by destruct s. Qed.

Lemma digits_complete s ds :
  grouped s ds → ∀ acc cnt,
  digits acc cnt s =
    Some (acc * 10 ^ Z.of_nat (String.length ds) + decimal_value ds,
          (cnt + String.length ds)%nat).
Proof.
  induction 1 as [a Ha | a s ds Ha Hg IH | a s ds Ha Hg IH]; intros acc cnt.
  - simpl. rewrite Ha. f_equal. f_equal; lia.
  - destruct (grouped_head _ _ Hg) as (b & t & -> & Hb).
    destruct (digit_not_mark b Hb) as (Hu & _).
    rewrite digits_cons, Ha, Hu. rewrite IH. f_equal. simpl.
    rewrite Nat2Z.inj_succ, Z.pow_succ_r by lia. f_equal; lia.
  - rewrite digits_cons, Ha. change (Ascii.eqb "_" "_") with true. cbv iota.
    rewrite IH. f_equal. simpl.
    rewrite Nat2Z.inj_succ, Z.pow_succ_r by lia. f_equal; lia.
Qed.

(** *** What [int] accepts *)

Lemma int_raises s e : int s = Raise e → e = ValueError.
Proof.
  unfold int. destruct (signed (strip s)) as [negative ds].
  destruct (digits 0 0 ds) as [[n count]|]; [|by intros [= <-]].
  destruct (max_str_digits <? count)%nat; [by intros [= <-] | done].
Qed.

Lemma int_numeral s n : int s = Ok n → numeral s n.
Proof.
  unfold int. destruct (strip_split s) as (l & r & Hs & Hl & Hr).
  unfold signed. destruct (strip s) as [|a body]; [done|].
  assert (∀ negative ds,
            match digits 0 0 ds with
            | Some (v, count) =>
                if (max_str_digits <? count)%nat then Raise ValueError
                else Ok (if negative : bool then - v else v)
            | None => Raise ValueError
            end = Ok n →
            ∃ dd, grouped ds dd ∧
                  (String.length dd <= max_str_digits)%nat ∧
                  n = if negative then - decimal_value dd else decimal_value dd)
    as Hscan.
  { intros negative ds. destruct (digits 0 0 ds) as [[v count]|] eqn:Ed; [|done].
    destruct (max_str_digits <? count)%nat eqn:El; [done|]. intros [= <-].
    apply (digits_sound (String.length ds)) in Ed as (dd & Hg & -> & ->);
      [|done].
    exists dd. split; [done|]. apply Nat.ltb_ge in El.
    split; [lia|]. destruct negative; f_equal; lia. }
  destruct (Ascii.eqb a "+") eqn:Ep; [|destruct (Ascii.eqb a "-") eqn:Em].
  - apply Ascii.eqb_eq in Ep as ->. intros H.
    destruct (Hscan false body H) as (dd & Hg & Hlen & ->). rewrite Hs.
    by apply (numeral_plus l body dd r).
  - apply Ascii.eqb_eq in Em as ->. intros H.
    destruct (Hscan true body H) as (dd & Hg & Hlen & ->). rewrite Hs.
    by apply (numeral_minus l body dd r).
  - intros H.
    destruct (Hscan false (String a body) H) as (dd & Hg & Hlen & ->).
    rewrite Hs. by apply (numeral_plain l (String a body) dd r).
Qed.

Lemma scan_grouped (negative : bool) body ds :
  grouped body ds → (String.length ds <= max_str_digits)%nat →
  match digits 0 0 body with
  | Some (v, count) =>
      if (max_str_digits <? count)%nat then Raise ValueError
      else Ok (if negative then - v else v)
  | None => Raise ValueError
  end = Ok (if negative then - decimal_value ds else decimal_value ds).
Proof.
  intros Hg Hlen. rewrite (digits_complete _ _ Hg).
  assert ((max_str_digits <? 0 + String.length ds)%nat = false) as ->
    by (apply Nat.ltb_ge; lia).
  destruct negative; f_equal; lia.
Qed.

Lemma numeral_int s n : numeral s n → int s = Ok n.
Proof.
  destruct 1 as [l body ds r Hl Hr Hg Hlen | l body ds r Hl Hr Hg Hlen
                | l body ds r Hl Hr Hg Hlen];
    destruct (grouped_head _ _ Hg) as (a & t & -> & Ha);
    destruct (grouped_last_char _ _ Hg) as (c & Hc & Hd);
    destruct (digit_not_mark a Ha) as (_ & Hp & Hm);
    unfold int.
  - rewrite (strip_core l a t r c); try done; try by apply digit_not_space.
    unfold signed. rewrite Hp, Hm. by apply (scan_grouped false).
  - change (l +:+ "+" +:+ String a t +:+ r)
      with (l +:+ String "+" (String a t) +:+ r).
    rewrite (strip_core l "+" (String a t) r c); try done;
      try by apply digit_not_space.
    unfold signed. simpl Ascii.eqb. by apply (scan_grouped false).
  - change (l +:+ "-" +:+ String a t +:+ r)
      with (l +:+ String "-" (String a t) +:+ r).
    rewrite (strip_core l "-" (String a t) r c); try done;
      try by apply digit_not_space.
    unfold signed. simpl Ascii.eqb. by apply (scan_grouped true).
Qed.

(** [int] reads exactly the texts of integers. *)
Lemma int_spec s n : int s = Ok n ↔ numeral s n.
Proof. split; [apply int_numeral | apply numeral_int]. Qed.

(** The text of an integer ends in a digit or in white space. *)
Lemma numeral_last s n :
  numeral s n →
  ∃ c, last_char s = Ok c ∧ (is_digit c = true ∨ is_space c = true).
Proof.
  assert (∀ x r c, last_char x = Ok c → is_digit c = true →
                   all_space r = true → x ≠ "" →
                   ∃ c', last_char (x +:+ r) = Ok c' ∧
                         (is_digit c' = true ∨ is_space c' = true)) as Hend.
  { intros x r c Hc Hd Hr Hx. destruct r as [|b r].
    - rewrite append_nil_r. eauto.
    - destruct (all_space_last b r Hr) as (c' & Hc' & Hs').
      exists c'. rewrite last_char_app. eauto. }
  destruct 1 as [l body ds r Hl Hr Hg Hlen | l body ds r Hl Hr Hg Hlen
                | l body ds r Hl Hr Hg Hlen];
    destruct (grouped_head _ _ Hg) as (a & t & -> & Ha);
    destruct (grouped_last_char _ _ Hg) as (c & Hc & Hd).
  - rewrite <- append_assoc.
    apply (Hend (l +:+ String a t) r c); try done.
    + by rewrite last_char_app.
    + by destruct l.
  - change (l +:+ "+" +:+ String a t +:+ r)
      with (l +:+ String "+" (String a t) +:+ r).
    rewrite <- append_assoc.
    apply (Hend (l +:+ String "+" (String a t)) r c); try done.
    + by rewrite last_char_app, last_char_cons.
    + by destruct l.
  - change (l +:+ "-" +:+ String a t +:+ r)
      with (l +:+ String "-" (String a t) +:+ r).
    rewrite <- append_assoc.
    apply (Hend (l +:+ String "-" (String a t)) r c); try done.
    + by rewrite last_char_app, last_char_cons.
    + by destruct l.
Qed.

(** A text that ends in a suffix is not the text of an integer. *)
Lemma int_suffixed t c m :
  size_suffix (lower_char c) = Some m →
  int (t +:+ String c "") = Raise ValueError.
Proof.
  intros Hc. destruct (suffix_char _ _ Hc) as [Hnd Hns].
  destruct (int (t +:+ String c "")) as [n|e] eqn:E.
  - apply int_numeral, numeral_last in E as (c' & Hlast & Hc').
    rewrite last_char_snoc in Hlast. injection Hlast as <-.
    destruct Hc'; congruence.
  - by apply int_raises in E as ->.
Qed.

Lemma convert_raises s e :
  convert_size_string_to_bytes s = Raise e → e = ValueError ∨ e = KeyError.
Proof.
  unfold convert_size_string_to_bytes.
  destruct (int s) as [n|e0] eqn:E; [done|].
  apply int_raises in E as ->.
  destruct (int (but_last s)) as [n|e1] eqn:E1; simpl.
  - destruct s as [|a s]; [done|].
    destruct (last_char_nonempty a s) as [c ->]. simpl.
    destruct (size_suffix (lower_char c)); [done|]. intros [= <-]. by right.
  - apply int_raises in E1 as ->. intros [= <-]. by left.
Qed.

End SizeSpec.

(** ** Creating a handle: sizes and identities *)

Module CreateSpec.
Import Py Process.

Lemma suffix_cases c m :
  size_suffix (lower_char c) = Some m →
  (c = "k"%char ∨ c = "K"%char) ∧ m = 1024 ∨
  (c = "m"%char ∨ c = "M"%char) ∧ m = 1048576 ∨
  (c = "g"%char ∨ c = "G"%char) ∧ m = 1073741824.
Proof.
  destruct c as [[] [] [] [] [] [] [] []]; vm_compute; intros H;
    try discriminate; injection H as <-; intuition auto.
Qed.

Lemma init_size_raises plat name args env rlimits wd sh uid gid so se s e :
  convert_size_string_to_bytes s = Raise e →
  __init__ plat name args env rlimits wd sh uid gid so se s = Raise e.
Proof.
  intros H. unfold __init__, __init__capture. by rewrite H.
Qed.

Lemma numeral_converts t n :
  numeral t n →
  convert_size_string_to_bytes t = Ok n ∧
  ∀ c m, size_suffix (lower_char c) = Some m →
         convert_size_string_to_bytes (t +:+ String c "") = Ok (n * m).
Proof.
  intros Ht. apply SizeSpec.numeral_int in Ht.
  unfold convert_size_string_to_bytes. split; [by rewrite Ht|].
  intros c m Hc. rewrite (SizeSpec.int_suffixed _ _ _ Hc).
  rewrite SizeSpec.but_last_snoc, SizeSpec.last_char_snoc, Ht. simpl.
  by rewrite Hc.
Qed.

Lemma plain_numeral ds :
  plain_decimal ds = true → (String.length ds <= max_str_digits)%nat →
  numeral ds (decimal_value ds).
Proof.
  intros Hd Hlen. rewrite <- (SizeSpec.append_nil_r ds) at 1.
  apply (numeral_plain "" ds ds ""); try done.
  by apply SizeSpec.grouped_plain.
Qed.

(** C9, as stated, fails: the string [-5] is no plain decimal and no
    decimal with a suffix, and it converts, to a negative capacity. *)
Lemma size_as_stated_fails :
  ¬ (∀ s,
       plain_decimal s = false →
       (∀ ds c m, plain_decimal ds = true →
                  size_suffix (lower_char c) = Some m →
                  s ≠ ds +:+ String c "") →
       ∃ e, convert_size_string_to_bytes s = Raise e ∧
            ∀ plat name args env rlimits wd sh uid gid so se,
              __init__ plat name args env rlimits wd sh uid gid so se s
              = Raise e).
Proof.
  intros H. destruct (H "-5") as (e & He & _); [done | | by vm_compute in He].
  intros ds c m _ Hc Heq.
  assert (last_char "-5" = Ok c) as Hlast
    by (rewrite Heq; apply SizeSpec.last_char_snoc).
  injection Hlast as <-. by vm_compute in Hc.
Qed.

(** C9 (amended).  A plain decimal string of no more than 4300 digits
    converts to the number it denotes, and followed by k, m or g in
    either case to that number times 1024, 1048576 or 1073741824.  More
    generally, every text that [int()] reads as an integer (white space
    around a sign or none and digits, single underscores allowed between
    digits) converts to that integer, a negative one included, and
    followed by a suffix to the integer times the suffix.  For every
    other string of ASCII text the conversion fails, and creation with
    it: with [KeyError] when the string without its last character is the
    text of an integer, and with [ValueError] when it is not. *)
Theorem convert_size_string :
  (∀ ds, plain_decimal ds = true → (String.length ds <= max_str_digits)%nat →
     convert_size_string_to_bytes ds = Ok (decimal_value ds) ∧
     ∀ c m, size_suffix (lower_char c) = Some m →
       convert_size_string_to_bytes (ds +:+ String c "")
       = Ok (decimal_value ds * m)) ∧
  (∀ c m, size_suffix (lower_char c) = Some m ↔
     (c = "k"%char ∨ c = "K"%char) ∧ m = 1024 ∨
     (c = "m"%char ∨ c = "M"%char) ∧ m = 1048576 ∨
     (c = "g"%char ∨ c = "G"%char) ∧ m = 1073741824) ∧
  (∀ t n, numeral t n →
     convert_size_string_to_bytes t = Ok n ∧
     ∀ c m, size_suffix (lower_char c) = Some m →
       convert_size_string_to_bytes (t +:+ String c "") = Ok (n * m)) ∧
  (∀ s, is_ascii s = true →
     (∀ n, ¬ numeral s n) →
     (∀ t c m n, numeral t n → size_suffix (lower_char c) = Some m →
                 s ≠ t +:+ String c "") →
     ∃ e, convert_size_string_to_bytes s = Raise e ∧
          (∀ plat name args env rlimits wd sh uid gid so se,
             __init__ plat name args env rlimits wd sh uid gid so se s
             = Raise e) ∧
          (e = KeyError ∧ (∃ n, numeral (but_last s) n) ∨
           e = ValueError ∧ ∀ n, ¬ numeral (but_last s) n)).
Proof.
  split; [|split; [|split]].
  - intros ds Hd Hlen. by apply numeral_converts, plain_numeral.
  - intros c m. split; [apply suffix_cases|].
    intros [[[-> | ->] ->] | [[[-> | ->] ->] | [[-> | ->] ->]]]; reflexivity.
  - apply numeral_converts.
  - intros s _ Hnot Hsuffix.
    assert (∀ e, convert_size_string_to_bytes s = Raise e →
                 convert_size_string_to_bytes s = Raise e ∧
                 ∀ plat name args env rlimits wd sh uid gid so se,
                   __init__ plat name args env rlimits wd sh uid gid so se s
                   = Raise e) as Hfails.
    { intros e He. split; [done|]. intros. by apply init_size_raises. }
    assert (int s = Raise ValueError) as E.
    { destruct (int s) as [n|e] eqn:E.
      - by apply SizeSpec.int_numeral, Hnot in E.
      - by apply SizeSpec.int_raises in E as ->. }
    destruct (int (but_last s)) as [n|e1] eqn:E1.
    + apply SizeSpec.int_numeral in E1 as Hn.
      destruct s as [|a s]; [by vm_compute in E1|].
      destruct (SizeSpec.last_char_nonempty a s) as [c E2].
      destruct (size_suffix (lower_char c)) as [m|] eqn:E3.
      { destruct (Hsuffix _ c m n Hn E3). by apply SizeSpec.snoc_but_last. }
      exists KeyError.
      destruct (Hfails KeyError) as [H1 H2].
      { unfold convert_size_string_to_bytes. rewrite E, E1, E2. simpl.
        by rewrite E3. }
      split; [done|]. split; [done|]. left. eauto.
    + apply SizeSpec.int_raises in E1 as E1'. subst e1.
      exists ValueError.
      destruct (Hfails ValueError) as [H1 H2].
      { unfold convert_size_string_to_bytes. by rewrite E, E1. }
      split; [done|]. split; [done|]. right. split; [done|].
      intros n Hn. apply SizeSpec.numeral_int in Hn. congruence.
Qed.

Lemma convert_size_string_witness :
  convert_size_string_to_bytes "64" = Ok 64 ∧
  convert_size_string_to_bytes "64K" = Ok 65536 ∧
  convert_size_string_to_bytes " -1_0m" = Ok (-10485760) ∧
  convert_size_string_to_bytes "1x" = Raise KeyError.
Proof.
  destruct convert_size_string as (Hplain & _ & Hnum & Hother).
  destruct (Hplain "64" eq_refl) as [H1 H2];
    [unfold max_str_digits; simpl; lia|].
  split; [exact H1|]. split; [exact (H2 "K"%char 1024 eq_refl)|].
  split.
  - assert (numeral (" " +:+ "-" +:+ "1_0" +:+ "") (- decimal_value "10"))
      as Hn.
    { apply numeral_minus; [done | done | | unfold max_str_digits; simpl; lia].
      apply grouped_sep; [done|]. by apply grouped_last. }
    exact (proj2 (Hnum _ _ Hn) "m"%char 1048576 eq_refl).
  - destruct (Hother "1x" eq_refl) as (e & He & _ & _).
    + intros n Hn. by apply SizeSpec.numeral_int in Hn.
    + intros t c m n _ Hc Heq.
      assert (last_char "1x" = Ok c) as Hlast
        by (rewrite Heq; apply SizeSpec.last_char_snoc).
      injection Hlast as <-. by vm_compute in Hc.
    + rewrite He. vm_compute in He. by symmetry.
Defined.

(** *** Identities *)





Lemma init_uid_none plat a : given a = None → __init__uid plat a = Ok (None, None).
Proof. intros H. unfold __init__uid. by rewrite H. Qed.




(** *** A capacity of zero *)

Lemma capture_zero so se bs :
  convert_size_string_to_bytes bs = Ok 0 →
  __init__capture so se bs = Ok (0, 0, ErrInt 0).
Proof. intros H. unfold __init__capture. by rewrite H. Qed.

Lemma init_fields plat name args env rlimits wd sh uid gid so se bs b o e p :
  __init__capture so se bs = Ok (b, o, e) →
  __init__ plat name args env rlimits wd sh uid gid so se bs = Ok p →
  Process.name p = name ∧ Process.bufsize p = b ∧ out p = o ∧ err p = e ∧
  running p = false ∧ _output p = None ∧ pid p = 0.
Proof.
  intros Hcap. unfold __init__. rewrite Hcap. simpl.
  destruct (__init__uid plat uid) as [[nm id]|?]; [simpl|done].
  destruct (__init__gid plat gid id) as [g|?]; [simpl|done].
  by intros [= <-].
Qed.

End CreateSpec.

(** ** Spawning and the capture worker *)

Module ProcessSpec.
Import Process.

Ltac run_monad :=
  unfold mbind, M_bind, bind, mret, M_ret, ret, raise, get, put, lift,
    deref, assign in *.

(** [__eq__] is equality of the compared fields. *)
Lemma eq_config (a b : t) : __eq__ a b = true ↔ config a = config b.
Proof.
  unfold __eq__, config.
  repeat rewrite andb_true_iff. repeat rewrite bool_decide_eq_true.
  split.
  - intros [[[[[[[[[[-> ->] ->] ->] ->] ->] ->] ->] ->] ->] ->]. done.
  - intros [= -> -> -> -> -> -> -> -> -> -> ->]. done.
Qed.

Lemma neq_config (a b : t) : __eq__ a b = false ↔ config a ≠ config b.
Proof.
  rewrite <- eq_config. destruct (__eq__ a b); split; try done.
Qed.

(** C5.  When the name of the handle is registered to a handle whose
    compared fields differ, [spawn] raises the error that names the
    process already created and leaves the whole state as it was: no OS
    process is created, no thread started, and the registry and every
    handle, the registered one with its running flag and output queue
    among them, are unchanged. *)
Theorem spawn_conflict (w : World) (self r : nat) (me existing : t) :
  objs w !! self = Some me →
  processes w !! name me = Some r →
  objs w !! r = Some existing →
  config me ≠ config existing →
  spawn self w =
    (Raise (Error ("Process for " +:+ name me +:+
                   " has already been created - " +:+ __str__ existing)), w).
Proof.
  intros Hme Hreg Hex Hne. apply neq_config in Hne.
  unfold spawn. run_monad. rewrite Hme, Hreg, Hex, Hne. done.
Qed.

Lemma spawn_conflict_witness :
  spawn 1 sample_other =
    (Raise (Error "Process for a has already been created - a pid=100"),
     sample_other).
Proof.
  assert (∃ me, objs sample_other !! 1%nat = Some me ∧ name me = "a" ∧
                args me = ["/bin/ls"]) as (me & Hme & Hn & Ha)
    by (vm_compute; eauto).
  assert (∃ ex, objs sample_other !! 0%nat = Some ex ∧
                args ex = ["/bin/cat"] ∧ __str__ ex = "a pid=100")
    as (ex & Hex & Hb & Hs) by (vm_compute; eauto).
  assert (processes sample_other !! name me = Some 0%nat) as Hreg
    by (rewrite Hn; vm_compute; reflexivity).
  assert (config me ≠ config ex) as Hne.
  { unfold config. rewrite Ha, Hb. intros H. discriminate H. }
  rewrite (spawn_conflict sample_other 1 0 me ex Hme Hreg Hex Hne).
  rewrite Hs, Hn. reflexivity.
Defined.

(** C4, as stated, fails: the handle returned for a second, identical
    request is not the registered one, neither by reference nor by its
    state. *)
Lemma spawn_again_as_stated_fails :
  ¬ (∀ w self r me existing,
       objs w !! self = Some me →
       processes w !! name me = Some r →
       objs w !! r = Some existing →
       config me = config existing →
       ∃ w' h, spawn self w = (Ok h, w') ∧ objs w' !! h = Some existing).
Proof.
  intros H.
  assert (∃ me ex, objs sample_again !! 1%nat = Some me ∧
                   objs sample_again !! 0%nat = Some ex ∧
                   processes sample_again !! name me = Some 0%nat ∧
                   config me = config ex ∧ running ex = true)
    as (me & ex & Hme & Hex & Hreg & Hcfg & Hrun) by (vm_compute; eauto 10).
  destruct (H sample_again 1%nat 0%nat me ex Hme Hreg Hex Hcfg)
    as (w' & h & Hs & Hh).
  assert (∃ w2 p2, spawn 1 sample_again = (Ok 1%nat, w2) ∧
                   objs w2 !! 1%nat = Some p2 ∧ running p2 = false)
    as (w2 & p2 & Hs2 & Hp2 & Hr2) by (vm_compute; eauto 10).
  rewrite Hs2 in Hs. injection Hs as <- <-.
  rewrite Hp2 in Hh. injection Hh as ->. congruence.
Qed.

(** C4 (amended).  When the name of the handle is registered to a handle
    with equal compared fields, [spawn] returns the requesting handle
    with its pid set to the pid of the registered one, and changes nothing
    else: no OS process is created, no thread started, the registry is as
    it was, and every other handle, the registered one among them, keeps
    its state.  The handle returned has the compared fields and the pid of
    the registered one; its running flag and its output queue stay those
    of the request. *)
Theorem spawn_again (w : World) (self r : nat) (me existing : t) :
  objs w !! self = Some me →
  processes w !! name me = Some r →
  objs w !! r = Some existing →
  config me = config existing →
  ∃ w' me',
    spawn self w = (Ok self, w') ∧
    os w' = os w ∧ next_pid w' = next_pid w ∧ threads w' = threads w ∧
    processes w' = processes w ∧
    objs w' = <[self:=me']> (objs w) ∧
    pid me' = pid existing ∧ config me' = config existing ∧
    running me' = running me ∧ _output me' = _output me ∧
    (self ≠ r → objs w' !! r = Some existing).
Proof.
  intros Hme Hreg Hex Hcfg. pose proof Hcfg as Heq. apply eq_config in Heq.
  exists (set_objs <[self:=set_pid (pid existing) me]> w),
         (set_pid (pid existing) me).
  split.
  { unfold spawn. run_monad. rewrite Hme, Hreg, Hex, Heq. done. }
  repeat (split; [done|]).
  intros Hne. simpl. by rewrite lookup_insert_ne.
Qed.

Lemma spawn_again_witness :
  ∃ w' me', spawn 1 sample_again = (Ok 1%nat, w') ∧
            os w' = os sample_again ∧
            objs w' !! 1%nat = Some me' ∧ pid me' = 100.
Proof.
  assert (∃ me ex, objs sample_again !! 1%nat = Some me ∧
                   objs sample_again !! 0%nat = Some ex ∧
                   processes sample_again !! name me = Some 0%nat ∧
                   config me = config ex ∧ pid ex = 100)
    as (me & ex & Hme & Hex & Hreg & Hcfg & Hpid) by (vm_compute; eauto 10).
  destruct (spawn_again sample_again 1 0 me ex Hme Hreg Hex Hcfg)
    as (w' & me' & Hs & Hos & _ & _ & _ & Hobjs & Hp & _).
  exists w', me'. split; [exact Hs|]. split; [exact Hos|].
  split; [rewrite Hobjs; apply lookup_insert_eq | congruence].
Defined.

(** *** A capacity of zero *)

Lemma fresh_ref (w : World) : objs w !! fresh (dom (objs w)) = None.
Proof. apply not_elem_of_dom, is_fresh. Qed.

Lemma wait_set_off (p : t) : out p = 0 → err p = ErrInt 0 → wait_set p = [].
Proof. intros Ho He. unfold wait_set. by rewrite Ho, He. Qed.

(** C10, as stated, fails: the worker of a handle created with capacity
    zero appends an output event, the CLOSED one. *)
Lemma zero_capacity_as_stated_fails :
  ¬ (∀ plat name args env rlimits wd sh uid gid so se bs p w c self w1 w2 p2 qu,
       convert_size_string_to_bytes bs = Ok 0 →
       __init__ plat name args env rlimits wd sh uid gid so se bs = Ok p →
       processes w !! name = None →
       (new p ≫= spawn) w = (Ok self, w1) →
       (_watch c self w1).2 = w2 →
       objs w2 !! self = Some p2 → _output p2 = Some qu →
       OutputQueue.q qu = []).
Proof.
  intros H.
  assert (∃ p, sample_silent = Ok p) as [p Hp] by (vm_compute; eauto).
  assert (∃ self w1, (new p ≫= spawn) empty_world = (Ok self, w1) ∧
            ∃ p2 qu, objs (_watch sample_child self w1).2 !! self = Some p2 ∧
                     _output p2 = Some qu ∧ OutputQueue.q qu ≠ [])
    as (self & w1 & Hs & p2 & qu & Hp2 & Hqu & Hne).
  { vm_compute in Hp. injection Hp as <-.
    eexists _, _. split; [vm_compute; reflexivity|].
    eexists _, _. split; [vm_compute; reflexivity|].
    split; [reflexivity | discriminate]. }
  apply Hne.
  exact (H bare "s" ["/bin/cat"] ∅ ∅ None None None None "1" "1" "0" p
           empty_world sample_child self w1 _ p2 qu eq_refl Hp eq_refl Hs
           eq_refl Hp2 Hqu).
Qed.

(** C10 (amended).  A handle created with a size string that converts to
    0 has [out = 0] and [err = 0], whatever the selectors, and the
    selectors are not even read.  Spawned under a free name it gets an OS
    process with neither [stdout] nor [stderr] piped, and its worker,
    whatever the child does, leaves the read loop out, appends the CLOSED
    event with the exit status as the only event of the queue, and clears
    the running flag: no STDOUT or STDERR event is ever appended. *)
Theorem zero_capacity_captures_nothing
    plat name args env rlimits wd sh uid gid so se bs p (w : World) (c : child) :
  convert_size_string_to_bytes bs = Ok 0 →
  __init__ plat name args env rlimits wd sh uid gid so se bs = Ok p →
  processes w !! name = None →
  __init__capture so se bs = Ok (0, 0, ErrInt 0) ∧
  out p = 0 ∧ err p = ErrInt 0 ∧
  ∃ self w1 w2 worker p2,
    (new p ≫= spawn) w = (Ok self, w1) ∧
    os w1 = os w ++ [worker] ∧
    popen_stdout worker = None ∧ popen_stderr worker = None ∧
    _watch c self w1 = (Ok Finished, w2) ∧
    objs w2 !! self = Some p2 ∧ running p2 = false ∧
    _output p2 =
      Some (OutputQueue.mk 0
              [OutputQueue.mkItem OutputQueue.CLOSED
                 (clock w + exit_after c) (DInt (exit_status c))] 0).
Proof.
  intros Hbs Hp Hfree.
  pose proof (CreateSpec.capture_zero so se bs Hbs) as Hcap.
  destruct (CreateSpec.init_fields _ _ _ _ _ _ _ _ _ _ _ _ _ _ _ _ Hcap Hp)
    as (Hname & Hbuf & Hout & Herr & Hrun & Hq & Hpid).
  split; [done|]. split; [done|]. split; [done|].
  pose proof (fresh_ref w) as Hfresh.
  set (self := fresh (dom (objs w))) in *.
  eexists self, _, _, _, _.
  split.
  { unfold new, spawn. run_monad. fold self. simpl.
    rewrite lookup_insert_eq. simpl. rewrite Hname, Hfree. reflexivity. }
  split; [reflexivity|].
  split; [simpl; unfold extra_stdout; by rewrite Hout|].
  split; [simpl; unfold extra_stderr; by rewrite Herr|].
  split.
  { unfold _watch, with_output, elapse, time. run_monad. simpl.
    rewrite lookup_insert_eq. simpl.
    rewrite wait_set_off by done. simpl.
    rewrite lookup_insert_eq. simpl.
    rewrite lookup_insert_eq. simpl. reflexivity. }
  split; [simpl; apply lookup_insert_eq|].
  split; [reflexivity|]. simpl. by rewrite Hbuf.
Qed.

Lemma zero_capacity_captures_nothing_witness :
  ∃ p self w1 w2 p2,
    sample_silent = Ok p ∧
    (new p ≫= spawn) empty_world = (Ok self, w1) ∧
    _watch sample_child self w1 = (Ok Finished, w2) ∧
    objs w2 !! self = Some p2 ∧ running p2 = false.
Proof.
  assert (∃ p, sample_silent = Ok p) as [p Hp] by (vm_compute; eauto).
  destruct (zero_capacity_captures_nothing bare "s" ["/bin/cat"] ∅ ∅
              None None None None "1" "1" "0" p empty_world sample_child
              eq_refl Hp eq_refl)
    as (_ & _ & _ & self & w1 & w2 & worker & p2 & Hs & _ & _ & _ & Hw & Hp2 & Hr & _).
  exists p, self, w1, w2, p2. repeat split; assumption.
Defined.

(** *** The capture worker and a pipe that closes first *)

(** C3 fails on the code: with both streams captured, a child that
    closes its standard error and goes on writing to its standard output
    makes the worker leave its read loop at the first round, as [data]
    holds the empty read of the pipe read last.  The chunk ["b"], ready in
    the next round, is never read; the queue ends as the first chunk and
    the CLOSED event, with the wait set as it was. *)
Theorem watch_leaves_at_first_closed_pipe :
  ∃ me w2 p2,
    objs sample_running !! 0%nat = Some me ∧
    wait_set me = [Stdout; Stderr] ∧
    _watch sample_child 0 sample_running = (Ok Finished, w2) ∧
    objs w2 !! 0%nat = Some p2 ∧ running p2 = false ∧
    wait_set p2 = [Stdout; Stderr] ∧
    OutputQueue.q <$> _output p2 =
      Some [OutputQueue.mkItem OutputQueue.STDOUT 1001 (DBytes "a");
            OutputQueue.mkItem OutputQueue.CLOSED 1002 (DInt 0)].
Proof. vm_compute. eauto 10. Qed.

End ProcessSpec.

(** ** The watch session *)

Module WatchSpec.

Ltac run_monad :=
  unfold mbind, M_bind, bind, mret, M_ret, ret, raise, get, put, lift,
    Process.deref, Process.assign in *.

(** *** Reading a queue leaves the state as it was *)

Lemma set_objs_id w r h :
  Process.objs w !! r = Some h → Process.set_objs <[r:=h]> w = w.
Proof.
  destruct w. unfold Process.set_objs. simpl. intros H.
  f_equal. by apply insert_id.
Qed.

Lemma set_output_id h queue :
  Process._output h = Some queue → Process.set_output (Some queue) h = h.
Proof. destruct h. simpl. by intros ->. Qed.

Lemma watch_read w r h queue :
  Process.objs w !! r = Some h → Process._output h = Some queue →
  Process.watch r w = (Ok (OutputQueue.retrieve queue), w).
Proof.
  intros Hh Hq. unfold Process.watch, Process.with_output. run_monad.
  rewrite Hh, Hq. simpl.
  by rewrite (set_output_id h queue Hq), (set_objs_id w r h Hh).
Qed.

Lemma watch_cases w r :
  (∃ h queue, Process.objs w !! r = Some h ∧ Process._output h = Some queue ∧
              Process.watch r w = (Ok (OutputQueue.retrieve queue), w)) ∨
  (¬ has_output w r ∧ ∃ e, Process.watch r w = (Raise e, w)).
Proof.
  destruct (Process.objs w !! r) as [h|] eqn:Hh.
  - destruct (Process._output h) as [queue|] eqn:Hq.
    + left. exists h, queue. split; [done|]. split; [done|].
      exact (watch_read w r h queue Hh Hq).
    + right. split.
      * intros (h' & q' & H1 & H2). congruence.
      * exists AttributeError. unfold Process.watch, Process.with_output.
        run_monad. by rewrite Hh, Hq.
  - right. split.
    + intros (h' & q' & H1 & H2). congruence.
    + exists Dangling. unfold Process.watch, Process.with_output.
      run_monad. by rewrite Hh.
Qed.

Lemma last_cons {A} (x : A) l : ∃ y, last (x :: l) = Some y.
Proof.
  revert x. induction l as [|z l IH]; intros x; [by exists x|].
  destruct (IH z) as [y Hy]. exists y. by rewrite last_cons_cons.
Qed.

Section Session.

Variable str_time : Z -> string.
Variable wildcard_iter :
  gmap string nat -> list string -> result (list (string * nat)).

(** *** Frames *)

Lemma frames_wf name item :
  OutputQueue.item_wf item = true →
  frames str_time name item = Ok (event_frames str_time name item).
Proof.
  unfold OutputQueue.item_wf. intros H. apply orb_true_iff in H as [H|H].
  - pose proof (OutputQueueSpec.stream_not_closed _ H) as Hc.
    unfold frames, event_frames. rewrite Hc.
    unfold OutputQueue.stream_item in H. apply andb_true_iff in H as [Hty Hd].
    destruct (OutputQueue.data item) eqn:D; try done. simpl.
    apply orb_true_iff in Hty as [Hty|Hty]; apply Z.eqb_eq in Hty;
      by rewrite Hty.
  - apply andb_true_iff in H as [Hc Hd]. unfold frames, event_frames.
    rewrite Hc. by destruct (OutputQueue.data item).
Qed.

Lemma frames_of_wf name items :
  forallb OutputQueue.item_wf items = true →
  frames_of str_time name items =
    Ok (concat (map (event_frames str_time name) items),
        existsb (λ i, OutputQueue.type i =? OutputQueue.CLOSED) items).
Proof.
  induction items as [|item items IH]; simpl; [done|]. intros H.
  apply andb_true_iff in H as [Hi Hs].
  rewrite (frames_wf _ _ Hi), (IH Hs). done.
Qed.

(** A well-formed item gives a frame at least. *)
Lemma event_frames_nonempty name item :
  OutputQueue.item_wf item = true → event_frames str_time name item ≠ [].
Proof.
  unfold OutputQueue.item_wf, OutputQueue.stream_item, event_frames.
  destruct (OutputQueue.data item); try done.
  rewrite !andb_false_r. done.
Qed.

Lemma snapshot_frames_nonempty snap :
  snapshot_wf snap → snap ≠ [] → snapshot_frames str_time snap ≠ [].
Proof.
  intros Hwf Hne. destruct snap as [|[name items] snap]; [done|].
  apply Forall_cons in Hwf as [[Hi Hw] _]. simpl in *.
  destruct items as [|item items]; [done|]. simpl in Hw.
  apply andb_true_iff in Hw as [Hw _].
  unfold snapshot_frames. simpl.
  pose proof (event_frames_nonempty name item Hw).
  destruct (event_frames str_time name item); [done|]. done.
Qed.

(** *** collect *)

#[local] Arguments frames_of : simpl never.

Lemma collect_state procs : ∀ w, (collect str_time procs w).2 = w.
Proof.
  induction procs as [|[name proc] procs IH]; intros w; simpl; [done|].
  run_monad.
  destruct (watch_cases w (p proc)) as [(h & queue & _ & _ & ->)|(_ & e & ->)];
    [|done].
  destruct (OutputQueue.retrieve queue) as [ts l].
  specialize (IH w).
  destruct l as [[|item items]|];
    try (destruct (frames_of str_time name (item :: items)) as [[fs c]|e];
         [|done]);
    destruct (collect str_time procs w) as [[[d r]|e] s2]; simpl in *; done.
Qed.

Lemma collect_ok procs : ∀ w data procs1 w1,
  wf_world w →
  collect str_time procs w = (Ok (data, procs1), w1) →
  w1 = w ∧
  data = snapshot_frames str_time (snapshot (Process.objs w) procs) ∧
  snapshot_wf (snapshot (Process.objs w) procs) ∧
  procs1 = observe (Process.objs w) procs ∧
  Forall (λ np, has_output w (p np.2)) procs.
Proof.
  induction procs as [|[name proc] procs IH]; intros w data procs1 w1 Hwf.
  - simpl. intros [= <- <- <-]. repeat split; constructor.
  - intros H. pose proof (collect_state ((name, proc) :: procs) w) as Hst.
    rewrite H in Hst. simpl in Hst. subst w1. split; [done|].
    simpl in H. run_monad.
    destruct (watch_cases w (p proc))
      as [(h & queue & Hh & Hq & Hw)|(_ & e & Hw)]; rewrite Hw in H; [|done].
    assert (has_output w (p proc)) as Hout by (by exists h, queue).
    specialize (Hwf _ _ _ Hh Hq) as Hitems.
    unfold OutputQueue.retrieve in H.
    simpl snapshot. unfold observe. simpl map. fold (observe (Process.objs w) procs).
    rewrite Hh. simpl. rewrite Hq.
    destruct (OutputQueue.q queue) as [|item items] eqn:Eq.
    + simpl in H.
      destruct (collect str_time procs w) as [[[d r]|e] s2] eqn:E; [|done].
      injection H as <- <- <-.
      destruct (IH _ _ _ _ Hwf E) as (_ & -> & Hs & -> & Hall).
      repeat split; try done. by constructor.
    + destruct (last_cons item items) as [y Hy]. rewrite Hy in H |- *.
      rewrite (frames_of_wf _ _ Hitems) in H. simpl in H.
      destruct (collect str_time procs w) as [[[d r]|e] s2] eqn:E; [|done].
      injection H as <- <- <-.
      destruct (IH _ _ _ _ Hwf E) as (_ & -> & Hs & -> & Hall).
      repeat split; try done.
      * constructor; [|done]. simpl. split; [done|]. exact Hitems.
      * by constructor.
Qed.

End Session.

(** *** What the steps of a turn leave untouched *)

Lemma with_output_run {A} (c : M OutputQueue.t A) r w :
  match Process.objs w !! r with
  | Some h =>
      match Process._output h with
      | Some queue =>
          Process.with_output r c w =
            ((c queue).1,
             Process.set_objs <[r:=Process.set_output (Some (c queue).2) h]> w)
      | None => Process.with_output r c w = (Raise AttributeError, w)
      end
  | None => Process.with_output r c w = (Raise Dangling, w)
  end.
Proof.
  unfold Process.with_output. run_monad.
  destruct (Process.objs w !! r) as [h|]; [|done].
  destruct (Process._output h) as [queue|]; [|done].
  destruct (c queue) as [[a|e] queue']; done.
Qed.

Lemma has_output_update w r h o r' :
  Process.objs w !! r = Some h →
  has_output w r' →
  has_output (Process.set_objs <[r:=Process.set_output (Some o) h]> w) r'.
Proof.
  intros Hh (h' & q' & H1 & H2). unfold has_output. simpl.
  destruct (decide (r = r')) as [->|Hne].
  - rewrite lookup_insert_eq. eauto.
  - rewrite lookup_insert_ne by done. eauto.
Qed.

Lemma wf_update w r h o :
  wf_world w → forallb OutputQueue.item_wf (OutputQueue.q o) = true →
  wf_world (Process.set_objs <[r:=Process.set_output (Some o) h]> w).
Proof.
  intros Hwf Ho r' h' q'. simpl.
  destruct (decide (r = r')) as [->|Hne].
  - rewrite lookup_insert_eq. intros [= <-]. simpl. by intros [= <-].
  - rewrite lookup_insert_ne by done. apply Hwf.
Qed.

Lemma quiet_ret {A} (a : A) : quiet (mret a).
Proof. by intros w. Qed.

Lemma quiet_bind {A B} (c : M Process.World A) (k : A → M Process.World B) :
  quiet c → (∀ a, quiet (k a)) → quiet (c ≫= k).
Proof.
  intros Hc Hk w. run_monad. specialize (Hc w).
  destruct (c w) as [[a|e] w1]; simpl in *; [|done].
  destruct Hc as (H1 & H2 & H3 & H4). specialize (Hk a w1).
  destruct Hk as (K1 & K2 & K3 & K4).
  repeat split; try congruence. auto.
Qed.

Lemma keeps_wf_bind {A B} (c : M Process.World A) (k : A → M Process.World B) :
  keeps_wf c → (∀ a, keeps_wf (k a)) → keeps_wf (c ≫= k).
Proof.
  intros Hc Hk w Hw. run_monad. specialize (Hc w Hw).
  destruct (c w) as [[a|e] w1]; simpl in *; [|done]. by apply Hk.
Qed.

Lemma quiet_with_output {A} (c : M OutputQueue.t A) r :
  quiet (Process.with_output r c).
Proof.
  intros w. pose proof (with_output_run c r w) as H.
  destruct (Process.objs w !! r) as [h|] eqn:Hh; [|by rewrite H].
  destruct (Process._output h) as [queue|]; rewrite H; [|done].
  simpl. repeat split; try done. intros r'. by apply has_output_update.
Qed.

Lemma keeps_wf_with_output {A} (c : M OutputQueue.t A) r :
  (∀ queue, forallb OutputQueue.item_wf (OutputQueue.q queue) = true →
            forallb OutputQueue.item_wf (OutputQueue.q (c queue).2) = true) →
  keeps_wf (Process.with_output r c).
Proof.
  intros Hc w Hw. pose proof (with_output_run c r w) as H.
  destruct (Process.objs w !! r) as [h|] eqn:Hh; [|by rewrite H].
  destruct (Process._output h) as [queue|] eqn:Hq; rewrite H; [|done].
  simpl. apply wf_update; [done|]. apply Hc. by apply (Hw r h).
Qed.

Lemma quiet_elapse dt : quiet (Process.elapse dt).
Proof. by intros w. Qed.

Lemma quiet_time : quiet Process.time.
Proof. by intros w. Qed.

Lemma quiet_in_thread {A} (c : M Process.World A) : quiet c → quiet (in_thread c).
Proof. intros Hc w. apply Hc. Qed.

Lemma quiet_set_running r b :
  quiet (me ← Process.deref r; Process.assign r (Process.set_running b me)).
Proof.
  intros w. run_monad. destruct (Process.objs w !! r) as [h|] eqn:Hh; [|done].
  simpl. repeat split; try done.
  intros r' (h' & q' & H1 & H2). unfold has_output. simpl.
  destruct (decide (r = r')) as [->|Hne].
  - rewrite lookup_insert_eq. rewrite Hh in H1. injection H1 as ->.
    exists (Process.set_running b h'), q'. by destruct h'.
  - rewrite lookup_insert_ne by done. eauto.
Qed.

Lemma quiet_act a : quiet (act a).
Proof.
  destruct a as [r ty d|r|dt]; simpl.
  - apply quiet_in_thread, quiet_bind; [apply quiet_time|].
    intros now. apply quiet_with_output.
  - apply quiet_in_thread, quiet_set_running.
  - apply quiet_elapse.
Qed.

Lemma quiet_interfere acts : quiet (interfere acts).
Proof.
  induction acts as [|a acts IH]; simpl; [apply quiet_ret|].
  apply quiet_bind; [apply quiet_act | by intros _].
Qed.

Lemma interfere_ok acts w : (interfere acts w).1 = Ok tt.
Proof.
  revert w. induction acts as [|a acts IH]; intros w; simpl; [done|].
  run_monad. destruct a as [r ty d|r|dt]; simpl; apply IH.
Qed.

Lemma quiet_remove_output r ts : quiet (Process.remove_output r ts).
Proof. apply quiet_with_output. Qed.

Lemma quiet_trim procs : quiet (trim procs).
Proof.
  induction procs as [|[name proc] procs IH]; simpl; [apply quiet_ret|].
  apply quiet_bind.
  - destruct (negb (t proc =? 0)); [|apply quiet_ret].
    apply quiet_bind; [apply quiet_remove_output | intros _; apply quiet_ret].
  - intros c. apply quiet_bind; [done | intros cs; apply quiet_ret].
Qed.

(** *** Well-formed queues stay so *)

Lemma evict_suffix cap q0 : ∀ used,
  ∃ ev, q0 = ev ++ (OutputQueue.evict cap used q0).2.2.
Proof.
  induction q0 as [|a q0 IH]; intros used; simpl.
  - destruct (cap <? used); by exists [].
  - destruct (cap <? used); [|by exists []].
    destruct (py_len (OutputQueue.data a)) as [n|e].
    + destruct (IH (used - n)) as [ev Hev]. exists (a :: ev). simpl. by f_equal.
    + by exists [a].
Qed.

Lemma add_keeps_wf now ty d queue :
  OutputQueue.op_wf (OutputQueue.mkOp 0 ty d) = true →
  forallb OutputQueue.item_wf (OutputQueue.q queue) = true →
  forallb OutputQueue.item_wf
    (OutputQueue.q (OutputQueue.add now ty d queue).2) = true.
Proof.
  intros Ho Hq.
  assert (OutputQueue.item_wf (OutputQueue.mkItem ty now d) = true) as Hit
    by exact Ho.
  unfold OutputQueue.add.
  destruct (negb (ty =? OutputQueue.CLOSED) && truthy d).
  - destruct (py_len d) as [n|e]; [|done].
    destruct (OutputQueue.bufsize queue <=? n); simpl.
    + by rewrite Hit.
    + destruct (evict_suffix (OutputQueue.bufsize queue)
                  (OutputQueue.q queue) (OutputQueue._used queue + n))
        as [ev Hev].
      destruct (OutputQueue.evict _ _ _) as [[e|] [u q']]; simpl in *;
        rewrite Hev, forallb_app in Hq; apply andb_true_iff in Hq as [_ Hq];
        [done|].
      rewrite forallb_app, Hq. simpl. by rewrite Hit.
  - simpl. rewrite forallb_app, Hq. simpl. by rewrite Hit.
Qed.

Lemma remove_keeps_wf ts queue :
  forallb OutputQueue.item_wf (OutputQueue.q queue) = true →
  forallb OutputQueue.item_wf (OutputQueue.q (OutputQueue.remove ts queue)) = true.
Proof.
  intros Hq. simpl.
  destruct (OutputQueueSpec.popleft_while_split ts (OutputQueue.q queue))
    as (pre & Hpre & _).
  rewrite Hpre, forallb_app in Hq. by apply andb_true_iff in Hq as [_ ?].
Qed.

Lemma keeps_wf_ret {A} (a : A) : keeps_wf (mret a : M Process.World A).
Proof. by intros w. Qed.

Lemma keeps_wf_act a : act_wf a = true → keeps_wf (act a).
Proof.
  destruct a as [r ty d|r|dt]; simpl; intros Ha w Hw.
  - unfold in_thread. simpl. run_monad. unfold Process.time.
    apply (keeps_wf_with_output (OutputQueue.add (Process.clock w) ty d) r);
      [intros queue; by apply add_keeps_wf | done].
  - unfold in_thread. simpl. run_monad.
    destruct (Process.objs w !! r) as [h|] eqn:Hh; [|done]. simpl.
    intros r' h' q'. simpl. destruct (decide (r = r')) as [->|Hne].
    + rewrite lookup_insert_eq. intros [= <-]. destruct h. simpl.
      intros Hq. by apply (Hw r' _ _ Hh).
    + rewrite lookup_insert_ne by done. apply Hw.
  - intros r' h' q'. apply Hw.
Qed.

Lemma keeps_wf_interfere acts :
  forallb act_wf acts = true → keeps_wf (interfere acts).
Proof.
  induction acts as [|a acts IH]; simpl; [intros _; apply keeps_wf_ret|].
  intros H. apply andb_true_iff in H as [Ha Hs].
  apply keeps_wf_bind; [by apply keeps_wf_act | intros _; by apply IH].
Qed.

Lemma keeps_wf_trim procs : keeps_wf (trim procs).
Proof.
  induction procs as [|[name proc] procs IH]; simpl; [apply keeps_wf_ret|].
  apply keeps_wf_bind.
  - destruct (negb (t proc =? 0)); [|apply keeps_wf_ret].
    apply keeps_wf_bind; [|intros _; apply keeps_wf_ret].
    apply keeps_wf_with_output. intros queue. apply remove_keeps_wf.
  - intros c. apply keeps_wf_bind; [done | intros cs; apply keeps_wf_ret].
Qed.

Lemma prune_frame closed : ∀ procs w,
  Process.sent (prune closed procs w).2 = Process.sent w ∧
  Process.objs (prune closed procs w).2 = Process.objs w ∧
  Process.inbox (prune closed procs w).2 = Process.inbox w.
Proof.
  induction closed as [|name closed IH]; intros procs w; simpl; [done|].
  run_monad. destruct (dict_del name procs) as [procs'|e]; [|done].
  destruct (Process.processes w !! name); [|done].
  destruct (IH procs' (Process.set_processes (delete name) w)) as (H1 & H2 & H3).
  done.
Qed.

Lemma keeps_wf_prune closed procs : keeps_wf (prune closed procs).
Proof.
  intros w Hw r h queue. destruct (prune_frame closed procs w) as (_ & -> & _).
  apply Hw.
Qed.

(** *** One turn of the loop *)

Lemma join_snoc (data : list string) (x : string) :
  data ≠ [] → Py.join LF (data ++ [x]) = Py.join LF data +:+ LF +:+ x.
Proof.
  induction data as [|a data IH]; [done|]. intros _.
  destruct data as [|b data]; [done|].
  change (Py.join LF ((a :: b :: data) ++ [x]))
    with (a +:+ LF +:+ Py.join LF ((b :: data) ++ [x])).
  rewrite IH by done.
  change (Py.join LF (a :: b :: data)) with (a +:+ LF +:+ Py.join LF (b :: data)).
  by rewrite !SizeSpec.append_assoc.
Qed.

Section Turns.

Variable str_time : Z -> string.

#[local] Arguments collect : simpl never.
#[local] Arguments trim : simpl never.
#[local] Arguments prune : simpl never.
#[local] Arguments interfere : simpl never.
#[local] Arguments Py.join : simpl never.
#[local] Arguments Py.lower : simpl never.

(** The body of [while True], step by step. *)
Lemma do_watch_turn acts script procs w :
  _do_watch str_time (acts :: script) procs w =
  match collect str_time procs w with
  | (Raise e, w1) => (Raise e, w1)
  | (Ok (data, procs1), w1) =>
      match data with
      | [] => _do_watch str_time script procs1 (interfere acts w1).2
      | _ :: _ =>
          let ws :=
            Process.set_sent
              (Process.sent w1 ++ [Py.join LF (data ++ ["] "])]) w1 in
          match Process.inbox ws with
          | [] => (Ok Suspended, ws)
          | line :: rest =>
              let w2 := (interfere acts (Process.set_inbox rest ws)).2 in
              match trim procs1 w2 with
              | (Raise e, w3) => (Raise e, w3)
              | (Ok closed, w3) =>
                  match prune closed procs1 w3 with
                  | (Raise e, w4) => (Raise e, w4)
                  | (Ok procs2, w4) =>
                      match procs2 with
                      | [] => (Ok (Returned "Nothing left to watch"), w4)
                      | _ :: _ =>
                          if String.eqb (Py.lower line) "q"
                          then (Ok (Returned "Stopped watching"), w4)
                          else _do_watch str_time script procs2 w4
                      end
                  end
              end
          end
      end
  end.
Proof.
  simpl. run_monad.
  destruct (collect str_time procs w) as [[[data procs1]|e] w1]; [|done].
  destruct data as [|frame data].
  - pose proof (interfere_ok acts w1) as Hi.
    destruct (interfere acts w1) as [[[]|e] w2]; simpl in *; [done|discriminate].
  - unfold sendall, readline. simpl.
    destruct (Process.inbox w1) as [|line rest]; [done|]. simpl.
    match goal with |- context [interfere acts ?w] =>
      pose proof (interfere_ok acts w) as Hi;
      destruct (interfere acts w) as [[[]|e] w2]; simpl in *; [|discriminate]
    end.
    destruct (trim procs1 w2) as [[closed|e] w3]; [|done].
    destruct (prune closed procs1 w3) as [[procs2|e] w4]; [|done].
    destruct procs2; [done|]. by destruct (String.eqb (Py.lower line) "q").
Qed.

Lemma snapshot_frames_nil : snapshot_frames str_time [] = [].
Proof. done. Qed.

Lemma collect_total procs : ∀ w,
  wf_world w → Forall (λ np, has_output w (p np.2)) procs →
  collect str_time procs w =
    (Ok (snapshot_frames str_time (snapshot (Process.objs w) procs),
         observe (Process.objs w) procs), w).
Proof.
  intros w Hwf Hall.
  assert (∃ data procs1, collect str_time procs w = (Ok (data, procs1), w))
    as (data & procs1 & E).
  { induction procs as [|[name proc] procs IH].
    - by exists [], [].
    - apply Forall_cons in Hall as [(h & queue & Hh & Hq) Hall].
      destruct (IH Hall) as (d & ps & E). simpl in Hh.
      unfold collect. fold (collect str_time). run_monad.
      rewrite (watch_read w _ h queue Hh Hq).
      unfold OutputQueue.retrieve.
      pose proof (Hwf _ _ _ Hh Hq) as Hitems.
      destruct (OutputQueue.q queue) as [|item items] eqn:Eq.
      + simpl. rewrite E. eauto.
      + destruct (last_cons item items) as [y ->].
        rewrite (frames_of_wf str_time name _ Hitems). simpl. rewrite E. eauto. }
  destruct (collect_ok str_time procs w data procs1 w Hwf E)
    as (_ & -> & _ & -> & _).
  exact E.
Qed.

(** *** Batches *)

(** C6.  Along a session over well-formed queues, whatever the capture
    threads add meanwhile, all that is sent is a sequence of batches, and
    every batch is the frames of a snapshot joined by line feeds and
    followed by a line feed and the terminator "] ".  The frames of a
    snapshot are, process by process and item by item, a header
    [<out|err>:<name>:<timestamp>:<byte-length>] followed by the payload
    as it is for a STDOUT or STDERR item, and the single frame
    [closed:<name>:<timestamp>:<exit-status>] for a CLOSED item.  The
    batch of the first turn is that of the items the tracked queues hold
    at that time. *)
Theorem batches_framed (script : list (list env_action)) :
  ∀ procs w,
    wf_world w → Forall (λ acts, forallb act_wf acts = true) script →
    ∃ batches,
      Process.sent (_do_watch str_time script procs w).2
      = Process.sent w ++ batches ∧
      Forall (λ b, ∃ snap, snap ≠ [] ∧ snapshot_wf snap ∧
                           b = batch_of (snapshot_frames str_time snap))
             batches ∧
      (∀ acts script',
         script = acts :: script' →
         Forall (λ np, has_output w (p np.2)) procs →
         snapshot (Process.objs w) procs ≠ [] →
         ∃ rest,
           batches =
             batch_of (snapshot_frames str_time
                         (snapshot (Process.objs w) procs)) :: rest).
Proof.
  induction script as [|acts script IH]; intros procs w Hwf Hs.
  { exists []. simpl. rewrite app_nil_r. split; [done|].
    split; [constructor|]. intros; discriminate. }
  apply Forall_cons in Hs as [Hacts Hs].
  rewrite do_watch_turn.
  pose proof (collect_state str_time procs w) as Hst.
  destruct (collect str_time procs w) as [[[data procs1]|e] w1] eqn:E;
    simpl in Hst; subst w1.
  2:{ exists []. simpl. rewrite app_nil_r. split; [done|].
      split; [constructor|]. intros a s' _ Hall Hne.
      rewrite (collect_total procs w Hwf Hall) in E. discriminate. }
  destruct (collect_ok str_time procs w data procs1 w Hwf E)
    as (_ & Hdata & Hsnap & _ & Hall).
  set (snap := snapshot (Process.objs w) procs) in *.
  destruct data as [|frame data].
  { (* nothing to send: sleep and go on *)
    destruct (quiet_interfere acts w) as (Hsent & _).
    destruct (IH procs1 (interfere acts w).2
                (keeps_wf_interfere acts Hacts w Hwf) Hs)
      as (batches & Hb & Hall' & _).
    exists batches. rewrite Hb, Hsent. split; [done|]. split; [done|].
    intros a s' _ _ Hne. exfalso.
    by apply (snapshot_frames_nonempty str_time snap Hsnap Hne). }
  assert (snap ≠ []) as Hne.
  { intros Hnil. rewrite Hnil in Hdata. discriminate. }
  assert (Py.join LF ((frame :: data) ++ ["] "])
          = batch_of (snapshot_frames str_time snap)) as Hbatch.
  { rewrite join_snoc by done. by rewrite Hdata. }
  rewrite Hbatch. clear Hbatch.
  set (b := batch_of (snapshot_frames str_time snap)).
  assert (Forall (λ b, ∃ snap, snap ≠ [] ∧ snapshot_wf snap ∧
                               b = batch_of (snapshot_frames str_time snap)) [b])
    as Hone.
  { constructor; [|constructor]. by exists snap. }
  set (ws := Process.set_sent (Process.sent w ++ [b]) w).
  assert (wf_world ws) as Hws by (intros r h queue; apply Hwf).
  cbv zeta.
  destruct (Process.inbox ws) as [|line rest] eqn:Hin.
  { exists [b]. split; [done|]. split; [done|]. intros. by exists []. }
  set (wr := Process.set_inbox rest ws).
  assert (wf_world wr) as Hwr by (intros r h queue; apply Hwf).
  destruct (quiet_interfere acts wr) as (Hs2 & _).
  pose proof (keeps_wf_interfere acts Hacts wr Hwr) as Hw2.
  set (w2 := (interfere acts wr).2) in *.
  destruct (quiet_trim procs1 w2) as (Hs3 & _).
  pose proof (keeps_wf_trim procs1 w2 Hw2) as Hw3.
  destruct (trim procs1 w2) as [[closed|e] w3]; simpl in Hs3, Hw3.
  2:{ exists [b]. simpl. rewrite Hs3, Hs2. split; [done|]. split; [done|].
      intros. by exists []. }
  destruct (prune_frame closed procs1 w3) as (Hs4 & _).
  pose proof (keeps_wf_prune closed procs1 w3 Hw3) as Hw4.
  destruct (prune closed procs1 w3) as [[procs2|e] w4]; simpl in Hs4, Hw4.
  2:{ exists [b]. simpl. rewrite Hs4, Hs3, Hs2. split; [done|]. split; [done|].
      intros. by exists []. }
  assert (Process.sent w4 = Process.sent w ++ [b]) as Hsent
    by (by rewrite Hs4, Hs3, Hs2).
  destruct procs2 as [|tracked2 procs2].
  { exists [b]. split; [done|]. split; [done|]. intros. by exists []. }
  destruct (String.eqb (Py.lower line) "q").
  { exists [b]. split; [done|]. split; [done|]. intros. by exists []. }
  destruct (IH (tracked2 :: procs2) w4 Hw4 Hs) as (batches & Hb & Hall' & _).
  exists (b :: batches). rewrite Hb, Hsent, <- app_assoc. split; [done|].
  split; [by constructor; [exists snap|]|]. intros. by exists batches.
Qed.

End Turns.

Lemma wf_world_check w : wf_worldb w = true → wf_world w.
Proof.
  unfold wf_worldb. rewrite forallb_forall. intros H r h queue Hh Hq.
  apply elem_of_map_to_list, list_elem_of_In in Hh.
  specialize (H (r, h) Hh). simpl in H. by rewrite Hq in H.
Qed.

Lemma batches_framed_witness :
  ∃ batches,
    Process.sent
      (_do_watch decimal_time sample_script sample_tracked sample_streaming).2
    = Process.sent sample_streaming ++ batches ∧
    Forall (λ b, ∃ snap, snap ≠ [] ∧ snapshot_wf snap ∧
                         b = batch_of (snapshot_frames decimal_time snap))
           batches.
Proof.
  assert (wf_world sample_streaming) as Hwf
    by (apply wf_world_check; vm_compute; reflexivity).
  assert (Forall (λ acts, forallb act_wf acts = true) sample_script) as Hs
    by (repeat constructor).
  destruct (batches_framed decimal_time sample_script sample_tracked
              sample_streaming Hwf Hs) as (batches & H1 & H2 & _).
  exists batches. split; [exact H1 | exact H2].
Defined.

(** *** Trimming and pruning after the acknowledgment *)

Lemma pruned_cons name proc rest :
  pruned ((name, proc) :: rest) =
  (if negb (t proc =? 0) && closed proc then [name] else []) ++ pruned rest.
Proof.
  unfold pruned. rewrite filter_cons. simpl.
  destruct (negb (t proc =? 0) && closed proc); by case_decide.
Qed.

Lemma trim_ok procs : ∀ w,
  Forall (λ np, has_output w (p np.2)) procs →
  (trim procs w).1 = Ok (pruned procs).
Proof.
  induction procs as [|[name proc] procs IH]; intros w Hall; [done|].
  apply Forall_cons in Hall as [(h & queue & Hh & Hq) Hall]. simpl in Hh.
  rewrite pruned_cons. simpl. run_monad.
  destruct (t proc =? 0) eqn:Et; simpl.
  - specialize (IH w Hall).
    destruct (trim procs w) as [[cs|e] w1]; simpl in *; [|discriminate].
    by injection IH as ->.
  - unfold Process.remove_output.
    pose proof (with_output_run
                  (λ queue, (Ok tt, OutputQueue.remove (t proc) queue))
                  (p proc) w) as Hrun.
    rewrite Hh, Hq in Hrun. rewrite Hrun. simpl.
    match goal with |- context [trim procs ?w1] =>
      assert (Forall (λ np, has_output w1 (p np.2)) procs) as Hall1
    end.
    { eapply Forall_impl; [exact Hall|]. intros np Hnp.
      by apply has_output_update. }
    specialize (IH _ Hall1).
    destruct (trim procs _) as [[cs|e] w1]; simpl in *; [|discriminate].
    injection IH as ->. by destruct (closed proc).
Qed.

Lemma pruned_has procs n : n ∈ pruned procs → dict_has n procs = true.
Proof.
  unfold pruned. intros H. apply list_elem_of_fmap in H as (kv & -> & Hin).
  apply list_elem_of_filter in Hin as [_ Hin].
  unfold dict_has. apply existsb_exists. exists kv.
  split; [by apply list_elem_of_In | apply String.eqb_refl].
Qed.

Lemma pruned_NoDup procs : NoDup (map fst procs) → NoDup (pruned procs).
Proof.
  unfold pruned. induction procs as [|kv procs IH]; simpl; [done|].
  rewrite NoDup_cons. intros [Hn Hd]. rewrite filter_cons.
  case_decide; [|by apply IH]. simpl. apply NoDup_cons. split; [|by apply IH].
  intros Hin. apply Hn. apply list_elem_of_fmap in Hin as (kv' & -> & Hin).
  apply list_elem_of_filter in Hin as [_ Hin].
  by apply list_elem_of_fmap_2.
Qed.

Lemma observe_keys objs procs : map fst (observe objs procs) = map fst procs.
Proof.
  induction procs as [|[name proc] procs IH]; simpl; [done|].
  rewrite IH. f_equal.
  destruct (objs !! p proc ≫= Process._output) as [queue|]; [|done].
  by destruct (last (OutputQueue.q queue)).
Qed.

Lemma observe_has_output w objs procs :
  Forall (λ np, has_output w (p np.2)) procs →
  Forall (λ np, has_output w (p np.2)) (observe objs procs).
Proof.
  induction procs as [|[name proc] procs IH]; simpl; [done|].
  intros H. apply Forall_cons in H as [Hh Hall]. constructor; [|by apply IH].
  destruct (objs !! p proc ≫= Process._output) as [queue|]; [|done].
  by destruct (last (OutputQueue.q queue)).
Qed.

Lemma dict_has_filter n name (procs : list (string * tracked)) :
  n ≠ name → dict_has n procs = true →
  dict_has n (filter (λ kv, kv.1 ≠ name) procs) = true.
Proof.
  intros Hne. unfold dict_has. induction procs as [|kv procs IH]; simpl; [done|].
  rewrite filter_cons. intros H. apply orb_true_iff in H as [H|H].
  - apply String.eqb_eq in H. rewrite decide_True by congruence.
    simpl. rewrite H, String.eqb_refl. done.
  - case_decide; simpl; [|by apply IH]. rewrite (IH H). apply orb_true_r.
Qed.




Lemma prune_missing closed : ∀ procs w n,
  NoDup closed → (∀ m, m ∈ closed → dict_has m procs = true) →
  n ∈ closed → Process.processes w !! n = None →
  (prune closed procs w).1 = Raise KeyError.
Proof.
  induction closed as [|name closed IH]; intros procs w n Hnd Hhas Hn Hw.
  { by apply elem_of_nil in Hn. }
  apply NoDup_cons in Hnd as [Hnot Hnd]. simpl. run_monad.
  unfold dict_del. rewrite (Hhas name) by apply list_elem_of_here. simpl.
  destruct (Process.processes w !! name) as [r|] eqn:Hr; [|done]. simpl.
  apply elem_of_cons in Hn as [->|Hn]; [congruence|].
  apply (IH _ _ n); [done | | done |].
  - intros m Hm. apply dict_has_filter.
    + intros ->. done.
    + apply Hhas. by apply list_elem_of_further.
  - simpl. rewrite lookup_delete_ne; [done|]. intros ->. done.
Qed.

Lemma has_output_same_objs w w' r :
  Process.objs w' = Process.objs w → has_output w r → has_output w' r.
Proof. intros H (h & q & H1 & H2). exists h, q. by rewrite H. Qed.

(** *** How a session ends *)




Section Sessions.

Variable str_time : Z -> string.
Variable wildcard_iter :
  gmap string nat -> list string -> result (list (string * nat)).



End Sessions.


End WatchSpec.

(* ================================================================== *)
(** * Further properties *)
(* ================================================================== *)

(** ** The queue under [add], [retrieve] and [remove] together *)

Module QueueUse.
Import OutputQueue.

(** Whatever the state of the queue, an [add] that returns has appended
    the new item, stamped with the time of the call, behind what is left
    of the old queue, which lost items at its front only; a [retrieve]
    right after it answers with that time and the whole queue, and the
    queue is never empty then. *)
Theorem add_appends_latest (now ty : Z) (d : PyData) (s s' : t) :
  add now ty d s = (Ok tt, s') →
  bufsize s' = bufsize s ∧
  (∃ dropped kept, q s = dropped ++ kept ∧ q s' = kept ++ [mkItem ty now d]) ∧
  retrieve s' = (now, Some (q s')) ∧
  (1 <= __len__ s' <= __len__ s + 1)%nat.
Proof.
  intros H.
  assert (bufsize s' = bufsize s ∧
          ∃ dropped kept, q s = dropped ++ kept ∧
                          q s' = kept ++ [mkItem ty now d])
    as (Hb & dropped & kept & Hq & Hq').
  { unfold add in H.
    destruct (negb (ty =? CLOSED) && truthy d).
    - destruct (py_len d) as [n|e]; [|done].
      destruct (bufsize s <=? n).
      + injection H as <-. split; [done|]. exists (q s), []. simpl.
        by rewrite app_nil_r.
      + destruct (WatchSpec.evict_suffix (bufsize s) (q s) (_used s + n))
          as [ev Hev].
        destruct (evict (bufsize s) (_used s + n) (q s)) as [[e|] [u q']];
          [done|]. injection H as <-. split; [done|]. by exists ev, q'.
    - injection H as <-. split; [done|]. by exists [], (q s). }
  split; [done|]. split; [by exists dropped, kept|]. split.
  - unfold retrieve. by rewrite Hq', last_snoc.
  - unfold __len__. rewrite Hq, Hq', !length_app. simpl. lia.
Qed.

Lemma add_appends_latest_witness :
  ∃ s', add 9 STDOUT (DBytes "xyz") sample_queue = (Ok tt, s') ∧
        retrieve s' = (9, Some (q s')) ∧ (1 <= __len__ s')%nat.
Proof.
  eexists. split; [vm_compute; reflexivity|].
  destruct (add_appends_latest 9 STDOUT (DBytes "xyz") sample_queue _ eq_refl)
    as (_ & _ & Hr & Hl). split; [exact Hr | exact (proj1 Hl)].
Defined.

(** *** What [remove] does to the accounting *)

Lemma evict_dry cap q0 : ∀ used,
  forallb stream_item q0 = true → cap < used - retained q0 →
  evict cap used q0 = (Some IndexError, (used - retained q0, [])).
Proof.
  induction q0 as [|a q0 IH]; intros used Hs Hlt; simpl in *.
  - assert ((cap <? used) = true) as -> by lia. do 2 f_equal; lia.
  - apply andb_true_iff in Hs as [Ha Hq].
    pose proof (OutputQueueSpec.retained_nonneg q0).
    pose proof (OutputQueueSpec.payload_nonneg a).
    assert ((cap <? used) = true) as -> by lia.
    rewrite (OutputQueueSpec.stream_payload _ Ha).
    rewrite IH; [|done|lia]. do 2 f_equal; lia.
Qed.

(** [remove] pops items and leaves [_used] as it was, so the count runs
    ahead of the payload retained by the bytes removed.  On a queue of
    stream items, an [add] of a non-empty payload shorter than the
    capacity raises [IndexError] exactly when that excess together with
    the new payload is above the capacity: the eviction loop then pops
    every item and asks the empty deque for one more.  The queue is left
    empty and the new item is not appended.  Otherwise the [add] returns. *)
Theorem add_raises_on_drift (now ty : Z) (b : string) (s : t) :
  forallb stream_item (q s) = true →
  ty ≠ CLOSED → b ≠ "" →
  Z.of_nat (String.length b) < bufsize s →
  let n := Z.of_nat (String.length b) in
  if bufsize s <? (_used s - retained (q s)) + n
  then add now ty (DBytes b) s
       = (Raise IndexError, mk (bufsize s) [] (_used s + n - retained (q s)))
  else ∃ s', add now ty (DBytes b) s = (Ok tt, s').
Proof.
  intros Hs Hty Hb Hn n. unfold add.
  assert ((ty =? CLOSED) = false) as -> by lia.
  assert (truthy (DBytes b) = true) as ->.
  { simpl. apply negb_true_iff, String.eqb_neq. done. }
  simpl. fold n.
  assert ((bufsize s <=? n) = false) as -> by lia.
  destruct (bufsize s <? _used s - retained (q s) + n) eqn:E.
  - rewrite evict_dry; [done | done | lia].
  - destruct (OutputQueueSpec.evict_total (bufsize s) (q s) (_used s + n) Hs)
      as (u' & q' & ->); [lia|]. eauto.
Qed.

Lemma add_raises_on_drift_witness :
  ∃ s1, add 1 STDOUT (DBytes "123456") (__init__ 10) = (Ok tt, s1) ∧
        add 2 STDOUT (DBytes "abcdef") (remove 1 s1)
        = (Raise IndexError, mk 10 [] 12).
Proof.
  eexists. split; [vm_compute; reflexivity|].
  exact (add_raises_on_drift 2 STDOUT "abcdef"
           (remove 1 (mk 10 [mkItem STDOUT 1 (DBytes "123456")] 6))
           eq_refl ltac:(discriminate) ltac:(discriminate) ltac:(simpl; lia)).
Defined.

Lemma retained_suffix pre q0 : retained q0 <= retained (pre ++ q0).
Proof.
  rewrite OutputQueueSpec.retained_app.
  pose proof (OutputQueueSpec.retained_nonneg pre). lia.
Qed.

Lemma retained_zero_suffix pre q0 : retained (pre ++ q0) = 0 → retained q0 = 0.
Proof.
  rewrite OutputQueueSpec.retained_app.
  pose proof (OutputQueueSpec.retained_nonneg pre).
  pose proof (OutputQueueSpec.retained_nonneg q0). lia.
Qed.

Lemma wf_suffix pre q0 :
  forallb item_wf (pre ++ q0) = true → forallb item_wf q0 = true.
Proof. rewrite forallb_app. by intros [_ ?]%andb_true_iff. Qed.

Lemma shared_inv_remove ts s :
  0 <= bufsize s → shared_inv s → shared_inv (remove ts s).
Proof.
  intros Hcap (Hwf & Hu & Hb).
  destruct (OutputQueueSpec.popleft_while_split ts (q s)) as (pre & Hq & _).
  unfold shared_inv. simpl. revert Hq.
  generalize (popleft_while ts (q s)). intros k Hq.
  rewrite Hq in Hwf, Hu, Hb.
  split; [by apply (wf_suffix pre)|].
  pose proof (retained_suffix pre k).
  split; [lia|].
  destruct Hb as [Hb | (it & rest & Heq & Hbig & Hrest)]; [left; lia|].
  destruct pre as [|a pre]; simpl in Heq.
  - right. by exists it, rest.
  - injection Heq as -> <-. left.
    rewrite (retained_zero_suffix pre _ Hrest). done.
Qed.

Lemma shared_inv_add o s s' :
  shared_inv s → op_wf o = true → add_op o s = (Ok tt, s') →
  shared_inv s' ∧ bufsize s' = bufsize s.
Proof.
  intros (Hwf & Hu & Hb) Ho. pose proof (OutputQueueSpec.item_wf_of_op _ Ho) as Hit.
  unfold add_op, add. fold (item_of o).
  destruct (negb (op_type o =? CLOSED) && truthy (op_data o)) eqn:Hacc.
  - destruct (py_len (op_data o)) as [n|e] eqn:L; [|done].
    destruct (OutputQueueSpec.wf_len_payload (item_of o) n Hit L) as [Hp _].
    destruct (bufsize s <=? n) eqn:Hbig.
    + intros [= <-]. split; [|done]. unfold shared_inv. simpl.
      rewrite Hit. split; [done|]. split; [lia|].
      right. exists (item_of o), []. split; [done|]. split; [lia|done].
    + destruct (evict (bufsize s) (_used s + n) (q s)) as [[e|] [used' q']] eqn:E;
        [done|]. intros [= <-].
      destruct (OutputQueueSpec.evict_ok _ _ _ _ _ Hwf E)
        as (ev & Hq & Hu' & Hle & _).
      split; [|done]. unfold shared_inv. simpl.
      rewrite Hq in Hwf, Hu. rewrite OutputQueueSpec.retained_app in Hu.
      rewrite forallb_app, (wf_suffix ev q' Hwf). simpl. rewrite Hit.
      rewrite OutputQueueSpec.retained_app. simpl.
      split; [done|]. split; [lia|]. left. lia.
  - intros [= <-]. split; [|done]. unfold shared_inv. simpl.
    assert (payload (item_of o) = 0) as Hz.
    { unfold payload, item_of; simpl.
      apply andb_false_iff in Hacc as [H|H].
      - apply negb_false_iff in H. by rewrite H.
      - destruct (op_type o =? CLOSED); [done|].
        destruct (op_data o) as [b| |]; try done. simpl in H.
        apply negb_false_iff, String.eqb_eq in H. by subst. }
    rewrite forallb_app, Hwf. simpl. rewrite Hit.
    rewrite OutputQueueSpec.retained_app. simpl. rewrite Hz.
    split; [done|]. split; [lia|].
    destruct Hb as [Hb | (it & rest & Heq & Hbig & Hrest)]; [left; lia|].
    right. exists it, (rest ++ [item_of o]). rewrite Heq. split; [done|].
    split; [done|]. rewrite OutputQueueSpec.retained_app. simpl. lia.
Qed.

(** Along every interleaving of well-formed [add]s with [retrieve]s and
    [remove]s on a fresh queue of a capacity that is not negative, as
    long as the calls return: the count [_used] is never below the
    payload retained, and the payload retained is within the capacity,
    or else it is the payload of one oversize item at the front. *)
Theorem retained_bounded_under_remove (cap : Z) (cs : list call) (s : t) :
  0 <= cap → forallb call_wf cs = true →
  do_calls cs (__init__ cap) = (Ok tt, s) →
  bufsize s = cap ∧ retained (q s) <= _used s ∧
  (retained (q s) <= cap ∨ lone_oversize cap (q s)).
Proof.
  intros Hcap Hcs Hrun.
  assert (∀ s0, shared_inv s0 → bufsize s0 = cap →
            do_calls cs s0 = (Ok tt, s) → shared_inv s ∧ bufsize s = cap) as Hgen.
  { clear Hrun. induction cs as [|c cs IH]; intros s0 Hi Hb; simpl.
    - by intros [= <-].
    - simpl in Hcs. apply andb_true_iff in Hcs as [Hc Hcs].
      unfold mbind, M_bind, bind.
      destruct (do_call c s0) as [[[]|e] s1] eqn:E; [|done].
      intros H. destruct c as [o| |ts]; simpl in E.
      + destruct (shared_inv_add _ _ _ Hi Hc E) as [Hi1 Hb1].
        apply (IH Hcs s1); [done | congruence | done].
      + injection E as <-. by apply (IH Hcs s0).
      + injection E as <-. apply (IH Hcs (remove ts s0)); [|done|done].
        apply shared_inv_remove; [lia | done]. }
  destruct (Hgen (__init__ cap)) as [(_ & Hu & Hb) Hbs]; [|done|done|].
  - split; [done|]. split; [simpl; lia | left; simpl; lia].
  - rewrite Hbs in Hb. done.
Qed.

Lemma retained_bounded_under_remove_witness :
  ∃ s, do_calls [Add (mkOp 1 STDOUT (DBytes "123456")); Retrieve; Remove 1;
                 Add (mkOp 2 STDERR (DBytes "ab"))] (__init__ 10) = (Ok tt, s) ∧
       retained (q s) <= _used s.
Proof.
  eexists. split; [vm_compute; reflexivity|].
  destruct (retained_bounded_under_remove 10
              [Add (mkOp 1 STDOUT (DBytes "123456")); Retrieve; Remove 1;
               Add (mkOp 2 STDERR (DBytes "ab"))] _
              ltac:(lia) eq_refl eq_refl) as (_ & Hu & _).
  exact Hu.
Defined.

(** *** Acknowledging what was retrieved *)

Lemma nondecreasing_le_last q0 : ∀ it,
  nondecreasing q0 = true → last q0 = Some it →
  Forall (λ i, timestamp i <= timestamp it) q0.
Proof.
  induction q0 as [|a q0 IH]; intros it Hs Hl; [constructor|].
  destruct q0 as [|b q0].
  - simpl in Hl. injection Hl as ->. constructor; [lia | constructor].
  - simpl in Hs. apply andb_true_iff in Hs as [Hab Hs].
    change (last (a :: b :: q0)) with (last (b :: q0)) in Hl.
    specialize (IH it Hs Hl). constructor; [|done].
    apply Forall_cons in IH as [Hb _]. lia.
Qed.

Lemma popleft_while_all ts pre rest :
  Forall (λ i, timestamp i <= ts) pre →
  popleft_while ts (pre ++ rest) = popleft_while ts rest.
Proof.
  induction pre as [|a pre IH]; [done|]. intros [Ha Hpre]%Forall_cons.
  simpl. assert ((timestamp a <=? ts) = true) as -> by lia. by apply IH.
Qed.

(** With timestamps that never decrease, removing up to the timestamp
    that [retrieve] answered removes exactly the items retrieved: the
    items added since with a later timestamp are all kept, in order. *)
Theorem remove_retrieved (s s' : t) (ts : Z) (l later : list Item) :
  nondecreasing (q s) = true →
  retrieve s = (ts, Some l) →
  q s' = q s ++ later → Forall (λ it, ts < timestamp it) later →
  l = q s ∧ q (remove ts s') = later.
Proof.
  intros Hs Hr Hq Hl. unfold retrieve in Hr.
  destruct (last (q s)) as [it|] eqn:El; [|done]. injection Hr as <- <-.
  split; [done|]. simpl. rewrite Hq.
  rewrite popleft_while_all by (by apply nondecreasing_le_last).
  destruct later as [|a later]; [done|]. apply Forall_cons in Hl as [Ha _].
  simpl. by assert ((timestamp a <=? timestamp it) = false) as -> by lia.
Qed.

Lemma remove_retrieved_witness :
  q (remove 7 (mk 16 (q sample_queue ++ [mkItem STDOUT 8 (DBytes "d")]) 4))
  = [mkItem STDOUT 8 (DBytes "d")].
Proof.
  apply (remove_retrieved sample_queue
           (mk 16 (q sample_queue ++ [mkItem STDOUT 8 (DBytes "d")]) 4)
           7 (q sample_queue)
           [mkItem STDOUT 8 (DBytes "d")] eq_refl eq_refl eq_refl).
  constructor; [simpl; lia | constructor].
Defined.

(** The comparison of [remove] is [<=]: an item added after a
    [retrieve] at the very clock reading of the last item retrieved is
    removed with the items retrieved, though it was never retrieved. *)
Theorem remove_drops_same_stamp (s s' : t) (ts : Z) (l : list Item) (it : Item) :
  nondecreasing (q s) = true →
  retrieve s = (ts, Some l) →
  q s' = q s ++ [it] → timestamp it = ts →
  length l = length (q s) ∧ q (remove ts s') = [].
Proof.
  intros Hs Hr Hq Hit. unfold retrieve in Hr.
  destruct (last (q s)) as [it0|] eqn:El; [|done]. injection Hr as <- <-.
  split; [done|]. simpl. rewrite Hq.
  rewrite popleft_while_all by (by apply nondecreasing_le_last).
  simpl. by assert ((timestamp it <=? timestamp it0) = true) as -> by lia.
Qed.

Lemma remove_drops_same_stamp_witness :
  q (remove 7 (mk 16 (q sample_queue ++ [mkItem STDOUT 7 (DBytes "late")]) 7))
  = [].
Proof.
  apply (remove_drops_same_stamp sample_queue
           (mk 16 (q sample_queue ++ [mkItem STDOUT 7 (DBytes "late")]) 7)
           7 (q sample_queue)
           (mkItem STDOUT 7 (DBytes "late")) eq_refl eq_refl eq_refl eq_refl).
Defined.

End QueueUse.

(** ** Handles: identity, the registry and the capture worker *)

Module HandleUse.
Import Process.

Ltac run_monad :=
  unfold mbind, M_bind, bind, mret, M_ret, ret, raise, get, put, lift,
    deref, assign in *.

(** [__eq__] does not compare [username].  A user given by name and the
    same user given by the number the database has for that name make
    equal handles, whenever both creations succeed: with the first
    spawned, spawning the second starts nothing. *)
Theorem same_user_by_name_or_id plat db (nm num : string) pw
    name args env rlimits wd sh gid so se bs (a b : t) :
  Platform.pwd plat = Some db →
  nm ≠ "" → Py.int nm = Raise ValueError →
  Platform.getpwnam db nm = Some pw →
  Py.int num = Ok (Platform.pw_uid pw) →
  __init__ plat name args env rlimits wd sh (Some nm) gid so se bs = Ok a →
  __init__ plat name args env rlimits wd sh (Some num) gid so se bs = Ok b →
  __eq__ a b = true ∧
  uid a = Some (Platform.pw_uid pw) ∧ uid b = Some (Platform.pw_uid pw) ∧
  username a = Some nm.
Proof.
  intros Hdb Hnm Hint Hpw Hnum Ha Hb.
  assert (num ≠ "") as Hnum0 by (intros ->; discriminate Hnum).
  unfold __init__ in Ha, Hb.
  destruct (__init__capture so se bs) as [[[bufsize0 out0] err0]|e]; [|done].
  simpl in Ha, Hb. unfold __init__uid, given in Ha, Hb.
  apply String.eqb_neq in Hnm, Hnum0. rewrite Hnm, Hdb, Hint, Hpw in Ha.
  rewrite Hnum0, Hdb, Hnum in Hb. simpl in Ha, Hb.
  destruct (Platform.getpwuid db (Platform.pw_uid pw)) as [pw'|] eqn:Epw;
    [|done]. simpl in Hb.
  destruct (__init__gid plat gid (Some (Platform.pw_uid pw))) as [g|e]; [|done].
  simpl in Ha, Hb. injection Ha as <-. injection Hb as <-.
  split; [|done]. by apply ProcessSpec.eq_config.
Qed.

Lemma same_user_by_name_or_id_witness :
  ∃ a b,
    __init__ posix "a" ["/bin/cat"] ∅ ∅ None None (Some "alice") None "1" "1" "1m"
    = Ok a ∧
    __init__ posix "a" ["/bin/cat"] ∅ ∅ None None (Some "1001") None "1" "1" "1m"
    = Ok b ∧
    __eq__ a b = true.
Proof.
  eexists _, _. split; [vm_compute; reflexivity|].
  split; [vm_compute; reflexivity|].
  refine (proj1 (same_user_by_name_or_id posix sample_pwd "alice" "1001"
                   (Platform.mkPasswd "alice" 1001 2000)
                   "a" ["/bin/cat"] ∅ ∅ None None None "1" "1" "1m" _ _
                   eq_refl _ eq_refl eq_refl eq_refl eq_refl eq_refl)).
  discriminate.
Defined.

(** *** The capture worker with one pipe *)

Lemma world_eta (w : World) :
  mkWorld (objs w) (processes w) (os w) (next_pid w) (threads w) (clock w)
          (sent w) (inbox w) = w.
Proof. by destruct w. Qed.

Lemma set_output_twice o o' (h : t) :
  set_output o (set_output o' h) = set_output o h.
Proof. done. Qed.

Lemma add_all_cons o ops s s' :
  OutputQueue.add_all (o :: ops) s = (Ok tt, s') →
  ∃ s1, OutputQueue.add_op o s = (Ok tt, s1) ∧
        OutputQueue.add_all ops s1 = (Ok tt, s').
Proof.
  simpl. unfold mbind, M_bind, bind.
  destruct (OutputQueue.add_op o s) as [[[]|e] s1]; [|done]. eauto.
Qed.

Lemma read_next pp st ch cs :
  chunks_of pp st = ch :: cs →
  ∃ st', read pp st = (ch, st') ∧ chunks_of pp st' = cs.
Proof.
  destruct pp, st as [so se]; simpl; intros ->; eauto.
Qed.

Lemma read_end pp st : chunks_of pp st = [] → read pp st = ("", st).
Proof. destruct pp, st as [so se]; simpl; by intros ->. Qed.

Lemma type_of_pipe pp :
  (if decide (pp = Stdout) then OutputQueue.STDOUT else OutputQueue.STDERR)
  = type_of pp.
Proof. by destruct pp. Qed.

(** The read loop over a wait set of one pipe. *)
Lemma watch_loop_single self pp : ∀ cs rs st w me queue queue' rest,
  objs w !! self = Some me → _output me = Some queue →
  chunks_of pp st = cs → Forall (λ ch, ch ≠ "") cs →
  length rs = S (length cs) →
  Forall (λ r, filter (λ x, x ∈ [pp]) (ready r) = [pp]) rs →
  OutputQueue.add_all (stamped (type_of pp) (clock w) rs cs) queue
  = (Ok tt, queue') →
  watch_loop self [pp] (rs ++ rest) st true w =
    (Ok Finished,
     set_clock (clock w + total_elapsed rs)
       (set_objs <[self := set_output (Some queue') me]> w)).
Proof.
  induction cs as [|ch cs IH];
    intros rs st w me queue queue' rest Hme Hq Hcs Hne Hlen Hready Hadd.
  - destruct rs as [|r [|r' rs]]; try done.
    apply Forall_cons in Hready as [Hr _].
    simpl in Hadd. injection Hadd as <-.
    simpl. unfold elapse. run_monad. rewrite Hr. simpl.
    rewrite (read_end _ _ Hcs). simpl.
    rewrite (WatchSpec.set_output_id me queue Hq).
    rewrite (WatchSpec.set_objs_id w self me Hme).
    unfold total_elapsed. simpl. rewrite Z.add_0_r. by destruct rest.
  - destruct rs as [|r rs]; [done|]. simpl in Hlen.
    apply Forall_cons in Hready as [Hr Hready].
    apply Forall_cons in Hne as [Hch Hne].
    destruct (read_next _ _ _ _ Hcs) as (st' & Hread & Hcs').
    simpl in Hadd. apply add_all_cons in Hadd as (q1 & Hadd1 & Hadd).
    unfold OutputQueue.add_op in Hadd1. simpl in Hadd1.
    assert (truthy (DBytes ch) = true) as Htr.
    { simpl. by apply negb_true_iff, String.eqb_neq. }
    change (watch_loop self [pp] ((r :: rs) ++ rest) st true w) with
      ((elapse (elapsed r) ≫= λ _,
        '(st', data') ←
           read_ready self (filter (λ x, x ∈ [pp]) (ready r)) st true;
        watch_loop self [pp] (rs ++ rest) st' data') w).
    simpl in Htr.
    unfold elapse. run_monad. rewrite Hr. simpl. rewrite Hread, Htr.
    unfold time. run_monad. simpl. rewrite type_of_pipe.
    pose proof (WatchSpec.with_output_run
                  (OutputQueue.add (clock w + elapsed r) (type_of pp) (DBytes ch))
                  self (set_clock (clock w + elapsed r) w)) as Hrun.
    unfold set_clock in Hrun |- *. simpl in Hrun.
    rewrite Hme, Hq, Hadd1 in Hrun. rewrite Hrun. simpl.
    erewrite (IH rs st' _ (set_output (Some q1) me) q1 queue' rest);
      [| simpl; apply lookup_insert_eq | done | done | done | lia | done
       | exact Hadd ].
    simpl. unfold set_clock, set_objs. simpl.
    rewrite insert_insert_eq. unfold total_elapsed. simpl.
    do 2 f_equal. lia.
Qed.

(** When one pipe is captured, the worker reads it to its end: with the
    pipe ready at each return of [select], it adds every chunk the child
    wrote, in order and each stamped with the clock at that return,
    leaves the loop at the empty read, and then adds the CLOSED event
    with the exit status and clears the running flag.  Nothing else of
    the state changes. *)
Theorem single_pipe_reads_all (c : child) (self : nat) (w : World)
    (me : t) (queue queue' : OutputQueue.t) (pp : pipe)
    (rs rest : list round) :
  objs w !! self = Some me → _output me = Some queue →
  wait_set me = [pp] →
  let chunks := chunks_of pp (stdout_chunks c, stderr_chunks c) in
  let finish := clock w + total_elapsed rs + exit_after c in
  Forall (λ ch, ch ≠ "") chunks →
  rounds c = rs ++ rest → length rs = S (length chunks) →
  Forall (λ r, filter (λ x, x ∈ [pp]) (ready r) = [pp]) rs →
  OutputQueue.add_all
    (stamped (type_of pp) (clock w) rs chunks ++
     [OutputQueue.mkOp finish OutputQueue.CLOSED (DInt (exit_status c))])
    queue = (Ok tt, queue') →
  _watch c self w =
    (Ok Finished,
     set_clock finish
       (set_objs <[self := set_running false (set_output (Some queue') me)]> w)).
Proof.
  intros Hme Hq Hws chunks finish Hne Hrounds Hlen Hready Hadd.
  rewrite OutputQueueSpec.add_all_app in Hadd.
  destruct (OutputQueue.add_all (stamped (type_of pp) (clock w) rs chunks) queue)
    as [[[]|e] q1] eqn:Hloop; [|done].
  simpl in Hadd. unfold mbind, M_bind, bind in Hadd.
  destruct (OutputQueue.add_op _ q1) as [[[]|e] q2] eqn:Hclosed; [|done].
  injection Hadd as <-. unfold OutputQueue.add_op in Hclosed. simpl in Hclosed.
  unfold _watch. run_monad. rewrite Hme, Hws, Hrounds.
  rewrite (watch_loop_single self pp chunks rs _ w me queue q1 rest);
    try done.
  unfold elapse, time. simpl.
  pose proof (WatchSpec.with_output_run
                (OutputQueue.add finish OutputQueue.CLOSED (DInt (exit_status c)))
                self
                (set_clock finish
                   (set_objs <[self := set_output (Some q1) me]> w))) as Hrun.
  unfold set_clock, set_objs in Hrun |- *. simpl in Hrun.
  rewrite lookup_insert_eq in Hrun. simpl in Hrun.
  unfold OutputQueue.add in Hclosed. simpl in Hclosed. injection Hclosed as <-.
  simpl. change (clock w + total_elapsed rs + exit_after c) with finish.
  rewrite Hrun. simpl. rewrite lookup_insert_eq. simpl.
  by rewrite !insert_insert_eq.
Qed.

Lemma single_pipe_reads_all_witness :
  ∃ w' me', _watch sample_writer 0 sample_merged_running = (Ok Finished, w') ∧
    objs w' !! 0%nat = Some me' ∧ running me' = false ∧
    OutputQueue.q <$> _output me' =
      Some [OutputQueue.mkItem OutputQueue.STDOUT 1001 (DBytes "a");
            OutputQueue.mkItem OutputQueue.STDOUT 1003 (DBytes "b");
            OutputQueue.mkItem OutputQueue.CLOSED 1007 (DInt 0)].
Proof.
  assert (∃ me queue, objs sample_merged_running !! 0%nat = Some me ∧
                      _output me = Some queue ∧ wait_set me = [Stdout])
    as (me & queue & Hme & Hq & Hws) by (vm_compute; eauto).
  assert (∃ queue',
            OutputQueue.add_all
              (stamped (type_of Stdout) (clock sample_merged_running)
                 (take 3 (rounds sample_writer))
                 (chunks_of Stdout (stdout_chunks sample_writer,
                                    stderr_chunks sample_writer)) ++
               [OutputQueue.mkOp
                  (clock sample_merged_running +
                   total_elapsed (take 3 (rounds sample_writer)) +
                   exit_after sample_writer)
                  OutputQueue.CLOSED (DInt (exit_status sample_writer))])
              queue = (Ok tt, queue') ∧
            OutputQueue.q queue' =
              [OutputQueue.mkItem OutputQueue.STDOUT 1001 (DBytes "a");
               OutputQueue.mkItem OutputQueue.STDOUT 1003 (DBytes "b");
               OutputQueue.mkItem OutputQueue.CLOSED 1007 (DInt 0)])
    as (queue' & Hadd & Hitems).
  { vm_compute in Hme. injection Hme as <-. vm_compute in Hq.
    injection Hq as <-. eexists. split; vm_compute; reflexivity. }
  eexists _, _. split.
  - apply (single_pipe_reads_all sample_writer 0 sample_merged_running
             me queue queue' Stdout (take 3 (rounds sample_writer))
             (drop 3 (rounds sample_writer)) Hme Hq Hws).
    + repeat constructor; discriminate.
    + reflexivity.
    + reflexivity.
    + repeat constructor.
    + exact Hadd.
  - simpl. rewrite lookup_insert_eq. split; [reflexivity|].
    split; [reflexivity|]. simpl. by rewrite Hitems.
Defined.

End HandleUse.

(** ** Sessions and the registry *)

Module SessionUse.

Ltac run_monad :=
  unfold mbind, M_bind, bind, mret, M_ret, ret, raise, get, put, lift,
    Process.deref, Process.assign in *.

(** *** What watching and trimming leave in place *)

Lemma evolves_refl ns w : evolves ns w w.
Proof. repeat split; try done. intros r h Hh. exists h. eauto. Qed.

Lemma evolves_trans ns w1 w2 w3 :
  evolves ns w1 w2 → evolves ns w2 w3 → evolves ns w1 w3.
Proof.
  intros (A1 & A2 & A3 & A4 & A5 & A6) (B1 & B2 & B3 & B4 & B5 & B6).
  repeat split; try congruence.
  - intros n r H. by apply A1, B1.
  - intros n Hn. rewrite B2, A2; done.
  - intros r h Hh. destruct (A6 r h Hh) as (h2 & Hh2 & Hn2 & Ho2).
    destruct (B6 r h2 Hh2) as (h3 & Hh3 & Hn3 & Ho3).
    exists h3. repeat split; [done | congruence | auto].
Qed.

Lemma evolves_mono ns ms w w' :
  (∀ n, n ∈ ns → n ∈ ms) → evolves ns w w' → evolves ms w w'.
Proof.
  intros Hsub (A1 & A2 & A3). repeat split; try tauto.
  intros n Hn. apply A2. intros H. by apply Hn, Hsub.
Qed.

Lemma evolves_bind {A B} ns (c : M Process.World A) (k : A → M Process.World B) :
  (∀ w, evolves ns w (c w).2) → (∀ a w, evolves ns w (k a w).2) →
  ∀ w, evolves ns w ((c ≫= k) w).2.
Proof.
  intros Hc Hk w. run_monad. specialize (Hc w).
  destruct (c w) as [[a|e] w1]; simpl in *; [|done].
  eapply evolves_trans; [exact Hc | apply Hk].
Qed.

Lemma gentle_ret {A} (a : A) : gentle (mret a).
Proof. intros w. apply evolves_refl. Qed.

Lemma gentle_bind {A B} (c : M Process.World A) (k : A → M Process.World B) :
  gentle c → (∀ a, gentle (k a)) → gentle (c ≫= k).
Proof. intros Hc Hk w. apply evolves_bind; [apply Hc | intros a; apply Hk]. Qed.

Lemma evolves_update w r h h' :
  Process.objs w !! r = Some h → Process.name h' = Process.name h →
  (is_Some (Process._output h) → is_Some (Process._output h')) →
  evolves [] w (Process.set_objs <[r:=h']> w).
Proof.
  intros Hh Hn Ho. repeat split; try done. simpl. intros r0 h0 Hh0.
  destruct (decide (r = r0)) as [->|Hne].
  - rewrite lookup_insert_eq. exists h'. split; [done|]. by simplify_eq.
  - rewrite lookup_insert_ne by done. exists h0. eauto.
Qed.

Lemma gentle_with_output {A} (c : M OutputQueue.t A) r :
  gentle (Process.with_output r c).
Proof.
  intros w. pose proof (WatchSpec.with_output_run c r w) as H.
  destruct (Process.objs w !! r) as [h|] eqn:Hh;
    [|rewrite H; apply evolves_refl].
  destruct (Process._output h) as [queue|]; rewrite H;
    [|apply evolves_refl].
  simpl. apply (evolves_update w r h); [done | by destruct h | eauto].
Qed.

Lemma gentle_elapse dt : gentle (Process.elapse dt).
Proof. intros w. repeat split; try done. intros r h Hh. exists h. eauto. Qed.

Lemma gentle_time : gentle Process.time.
Proof. intros w. apply evolves_refl. Qed.

Lemma gentle_set_running r b :
  gentle (me ← Process.deref r; Process.assign r (Process.set_running b me)).
Proof.
  intros w. run_monad.
  destruct (Process.objs w !! r) as [h|] eqn:Hh; [|apply evolves_refl].
  simpl. apply (evolves_update w r h); [done | by destruct h | by destruct h].
Qed.

Lemma gentle_in_thread {A} (c : M Process.World A) :
  gentle c → gentle (in_thread c).
Proof. intros Hc w. apply Hc. Qed.

Lemma gentle_act a : gentle (act a).
Proof.
  destruct a as [r ty d|r|dt]; simpl.
  - apply gentle_in_thread, gentle_bind; [apply gentle_time|].
    intros now. apply gentle_with_output.
  - apply gentle_in_thread, gentle_set_running.
  - apply gentle_elapse.
Qed.

Lemma gentle_interfere acts : gentle (interfere acts).
Proof.
  induction acts as [|a acts IH]; simpl; [apply gentle_ret|].
  apply gentle_bind; [apply gentle_act | by intros _].
Qed.

Lemma gentle_trim procs : gentle (trim procs).
Proof.
  induction procs as [|[name proc] procs IH]; simpl; [apply gentle_ret|].
  apply gentle_bind.
  - destruct (negb (t proc =? 0)); [|apply gentle_ret].
    apply gentle_bind; [apply gentle_with_output | intros _; apply gentle_ret].
  - intros c. apply gentle_bind; [done | intros cs; apply gentle_ret].
Qed.

Lemma gentle_sendall out : gentle (sendall out).
Proof. intros w. repeat split; try done. intros r h Hh. exists h. eauto. Qed.

Lemma gentle_readline : gentle readline.
Proof.
  intros w. unfold readline. destruct (Process.inbox w); [apply evolves_refl|].
  repeat split; try done. intros r h Hh. exists h. eauto.
Qed.

Lemma gentle_read_ready self out : ∀ st data,
  gentle (Process.read_ready self out st data).
Proof.
  induction out as [|pp out IH]; intros st data; simpl; [apply gentle_ret|].
  destruct (Process.read pp st) as [chunk st'].
  apply gentle_bind; [|intros _; apply IH].
  destruct (String.eqb chunk ""); simpl; [apply gentle_ret|].
  apply gentle_bind; [apply gentle_time | intros now; apply gentle_with_output].
Qed.

Lemma gentle_watch_loop self pipes rs : ∀ st data,
  gentle (Process.watch_loop self pipes rs st data).
Proof.
  induction rs as [|r rs IH]; intros st data; simpl.
  - destruct data; apply gentle_ret.
  - destruct data; [|apply gentle_ret].
    apply gentle_bind; [apply gentle_elapse|]. intros _.
    apply gentle_bind; [apply gentle_read_ready|]. intros [st' data'].
    apply IH.
Qed.

Lemma gentle_deref r : gentle (Process.deref r).
Proof.
  intros w. unfold Process.deref.
  destruct (Process.objs w !! r); apply evolves_refl.
Qed.

Lemma gentle_watch c self : gentle (Process._watch c self).
Proof.
  unfold Process._watch. apply gentle_bind; [apply gentle_deref|]. intros me.
  apply gentle_bind.
  - destruct (Process.wait_set me); [apply gentle_ret | apply gentle_watch_loop].
  - intros [|]; [|apply gentle_ret].
    apply gentle_bind; [apply gentle_elapse|]. intros _.
    apply gentle_bind; [apply gentle_time|]. intros now.
    apply gentle_bind; [apply gentle_with_output|]. intros _.
    intros w0. run_monad.
    destruct (Process.objs w0 !! self) as [h|] eqn:Hh; [|apply evolves_refl].
    simpl. apply (evolves_update w0 self h); [done | by destruct h | by destruct h].
Qed.

Lemma evolves_prune closed : ∀ procs w,
  evolves closed w (prune closed procs w).2.
Proof.
  induction closed as [|name closed IH]; intros procs w; simpl;
    [apply evolves_refl|].
  run_monad. destruct (dict_del name procs) as [procs'|e]; [|apply evolves_refl].
  simpl. destruct (Process.processes w !! name) as [r|] eqn:Hr;
    [|apply evolves_refl].
  simpl. eapply evolves_trans;
    [|eapply evolves_mono; [|apply IH]; intros n Hn; by apply list_elem_of_further].
  repeat split; try done; simpl.
  - intros n r0 H. apply lookup_delete_Some in H as [_ H]. done.
  - intros n Hn. apply lookup_delete_ne. intros ->. apply Hn, list_elem_of_here.
  - intros r0 h Hh. exists h. eauto.
Qed.

Lemma prune_keys closed : ∀ procs w procs2 w',
  prune closed procs w = (Ok procs2, w') →
  ∀ n, n ∈ map fst procs2 → n ∈ map fst procs.
Proof.
  induction closed as [|name closed IH]; intros procs w procs2 w'; simpl.
  - by intros [= <- <-].
  - run_monad. unfold dict_del.
    destruct (dict_has name procs); [|done]. simpl.
    destruct (Process.processes w !! name) as [r|]; [|done]. simpl.
    intros H n Hn. specialize (IH _ _ _ _ H n Hn).
    apply list_elem_of_fmap in IH as (kv & -> & Hkv).
    apply list_elem_of_filter in Hkv as [_ Hkv].
    by apply list_elem_of_fmap_2.
Qed.

Lemma trim_names procs : ∀ w cl,
  (trim procs w).1 = Ok cl → ∀ n, n ∈ cl → n ∈ map fst procs.
Proof.
  induction procs as [|[name proc] procs IH]; intros w cl; simpl.
  - intros [= <-] n Hn. by apply elem_of_nil in Hn.
  - run_monad.
    destruct (negb (t proc =? 0)).
    + destruct (Process.remove_output (p proc) (t proc) w) as [[[]|e] w1];
        [|done]. simpl.
      destruct (trim procs w1) as [[cs|e] w2] eqn:E; [|done]. simpl.
      intros [= <-] n Hn. apply elem_of_app in Hn as [Hn|Hn].
      * destruct (closed proc); [|by apply elem_of_nil in Hn].
        apply list_elem_of_singleton in Hn as ->. apply list_elem_of_here.
      * apply list_elem_of_further. apply (IH w1 cs); [by rewrite E | done].
    + simpl. destruct (trim procs w) as [[cs|e] w2] eqn:E; [|done]. simpl.
      intros [= <-] n Hn. apply list_elem_of_further.
      apply (IH w cs); [by rewrite E | done].
Qed.

Section Sessions.

Variable str_time : Z -> string.

#[local] Arguments frames_of : simpl never.

Lemma collect_keys procs : ∀ w data procs1 w1,
  collect str_time procs w = (Ok (data, procs1), w1) →
  map fst procs1 = map fst procs.
Proof.
  induction procs as [|[name proc] procs IH]; intros w data procs1 w1; simpl.
  - by intros [= <- <- <-].
  - run_monad.
    destruct (Process.watch (p proc) w) as [[[ts l]|e] w2]; [|done].
    destruct l as [[|item items]|];
      try (destruct (frames_of str_time name (item :: items)) as [[fs c]|e];
           [|done]); simpl;
      destruct (collect str_time procs w2) as [[[d r]|e] w3] eqn:E; try done;
      intros [= <- <- <-]; simpl; f_equal; by apply (IH _ _ _ _ E).
Qed.

Lemma gentle_collect procs : gentle (collect str_time procs).
Proof.
  intros w. rewrite (WatchSpec.collect_state str_time procs w).
  apply evolves_refl.
Qed.

Lemma evolves_do_watch script : ∀ procs w,
  evolves (map fst procs) w (_do_watch str_time script procs w).2.
Proof.
  induction script as [|acts script IH]; intros procs w;
    [apply evolves_refl|].
  rewrite WatchSpec.do_watch_turn.
  pose proof (WatchSpec.collect_state str_time procs w) as Hst.
  destruct (collect str_time procs w) as [[[data procs1]|e] w1] eqn:E;
    simpl in Hst; subst w1; [|apply evolves_refl].
  pose proof (collect_keys _ _ _ _ _ E) as Hkeys.
  assert (∀ w0 w', evolves [] w0 w' → evolves (map fst procs) w0 w') as Hup.
  { intros w0 w'. apply evolves_mono. intros n Hn. by apply elem_of_nil in Hn. }
  destruct data as [|frame data].
  - eapply evolves_trans; [apply Hup, gentle_interfere|].
    rewrite <- Hkeys. apply IH.
  - cbv zeta.
    set (ws := Process.set_sent _ w).
    assert (evolves (map fst procs) w ws) as Hws by (apply Hup, gentle_sendall).
    destruct (Process.inbox ws) as [|line rest] eqn:Hin; [done|].
    set (wr := Process.set_inbox rest ws).
    assert (evolves (map fst procs) w wr) as Hwr.
    { eapply evolves_trans; [exact Hws|]. apply Hup.
      repeat split; try done. intros r h Hh. exists h. eauto. }
    pose proof (gentle_interfere acts wr) as H2.
    set (w2 := (interfere acts wr).2) in *.
    pose proof (gentle_trim procs1 w2) as H3.
    pose proof (trim_names procs1 w2) as Hcl.
    destruct (trim procs1 w2) as [[closed|e] w3]; simpl in *.
    2:{ eapply evolves_trans; [exact Hwr|].
        eapply evolves_trans; apply Hup; done. }
    assert (evolves (map fst procs) w w3) as Hw3.
    { eapply evolves_trans; [exact Hwr|].
      eapply evolves_trans; apply Hup; done. }
    pose proof (evolves_prune closed procs1 w3) as H4.
    pose proof (prune_keys closed procs1 w3) as Hk2.
    assert (∀ n, n ∈ closed → n ∈ map fst procs) as Hsub.
    { intros n Hn. rewrite <- Hkeys. by apply (Hcl closed). }
    destruct (prune closed procs1 w3) as [[procs2|e] w4]; simpl in *.
    2:{ eapply evolves_trans; [exact Hw3|]. by eapply evolves_mono. }
    assert (evolves (map fst procs) w w4) as Hw4.
    { eapply evolves_trans; [exact Hw3|]. by eapply evolves_mono. }
    destruct procs2 as [|tracked2 procs2]; [done|].
    destruct (String.eqb (Py.lower line) "q"); [done|].
    eapply evolves_trans; [exact Hw4|].
    eapply evolves_mono; [|apply IH].
    intros n Hn. rewrite <- Hkeys. by apply (Hk2 _ _ eq_refl).
Qed.

(** Whatever the script, the client and the state of the handles, a
    session of [_do_watch], also one that ends by raising, takes out of
    the registry only names it tracks and adds none; it creates no OS
    process and starts no thread; and every handle stays in place under
    its name, with an output queue if it had one. *)
Theorem session_touches_tracked_only (script : list (list env_action))
    (procs : list (string * tracked)) (w : Process.World) :
  let w' := (_do_watch str_time script procs w).2 in
  (∀ n r, Process.processes w' !! n = Some r →
          Process.processes w !! n = Some r) ∧
  (∀ n, n ∉ map fst procs →
        Process.processes w' !! n = Process.processes w !! n) ∧
  Process.os w' = Process.os w ∧ Process.threads w' = Process.threads w ∧
  ∀ r h, Process.objs w !! r = Some h →
    ∃ h', Process.objs w' !! r = Some h' ∧ Process.name h' = Process.name h ∧
          (is_Some (Process._output h) → is_Some (Process._output h')).
Proof.
  destruct (evolves_do_watch script procs w) as (H1 & H2 & H3 & H4 & _ & H6).
  done.
Qed.

End Sessions.

End SessionUse.

(** ** Sessions: the registry they keep and the edges of a turn *)

Module SessionRuns.

Ltac run_monad :=
  unfold mbind, M_bind, bind, mret, M_ret, ret, raise, get, put, lift,
    Process.deref, Process.assign in *.

Lemma registry_wf_evolves ns w w' :
  registry_wf w → evolves ns w w' → registry_wf w'.
Proof.
  intros Hwf (H1 & _ & _ & _ & _ & H6) n r Hr.
  destruct (Hwf n r (H1 n r Hr)) as (h & queue & Hh & Hn & Hq).
  destruct (H6 r h Hh) as (h' & Hh' & Hn' & Ho').
  destruct Ho' as [queue' Hq']; [by rewrite Hq|].
  exists h', queue'. split; [done|]. split; [congruence | done].
Qed.

Lemma registry_wf_new w p0 :
  registry_wf w → registry_wf (Process.new p0 w).2.
Proof.
  intros Hwf n r Hr. simpl in *.
  destruct (Hwf n r Hr) as (h & queue & Hh & Hn & Hq).
  exists h, queue. split; [|done].
  rewrite lookup_insert_ne; [done|]. intros <-.
  by rewrite ProcessSpec.fresh_ref in Hh.
Qed.

Lemma registry_wf_spawn w self :
  registry_wf w → registry_wf (Process.spawn self w).2.
Proof.
  intros Hwf. unfold Process.spawn. run_monad.
  destruct (Process.objs w !! self) as [me|] eqn:Hme; [|done].
  destruct (Process.processes w !! Process.name me) as [r|] eqn:Hreg.
  - destruct (Process.objs w !! r) as [existing|] eqn:Hex; [|done].
    destruct (Process.__eq__ me existing); [|done]. simpl.
    apply (registry_wf_evolves [] w); [done|].
    apply (SessionUse.evolves_update w self me); done.
  - simpl. intros n r Hr. simpl in Hr.
    destruct (decide (n = Process.name me)) as [->|Hne].
    + rewrite lookup_insert_eq in Hr. injection Hr as <-.
      eexists _, _. simpl. rewrite lookup_insert_eq. done.
    + rewrite lookup_insert_ne in Hr by done.
      destruct (Hwf n r Hr) as (h & queue & Hh & Hn & Hq).
      exists h, queue. split; [|done]. simpl.
      rewrite lookup_insert_ne; [done|]. intros <-. congruence.
Qed.

(** The registry stays well-formed: if every registered name refers to
    a handle of that name with an output queue, it is so again after a
    handle is created and spawned, whether the spawn starts a process,
    finds the same process or raises; after a capture worker has run;
    and after a watch session, however it ends. *)
Theorem registry_stays_wf (w : Process.World) :
  registry_wf w →
  (∀ created, registry_wf (Process.start created w).2) ∧
  (∀ self, registry_wf (Process.spawn self w).2) ∧
  (∀ c self, registry_wf (Process._watch c self w).2) ∧
  (∀ str_time script procs,
     registry_wf (_do_watch str_time script procs w).2).
Proof.
  intros Hwf. split; [|split; [|split]].
  - intros [p0|e]; unfold Process.start; run_monad; simpl; [|done].
    apply (registry_wf_spawn (Process.new p0 w).2), registry_wf_new, Hwf.
  - intros self. by apply registry_wf_spawn.
  - intros c self. eapply registry_wf_evolves; [done|].
    apply SessionUse.gentle_watch.
  - intros str_time script procs. eapply registry_wf_evolves; [done|].
    apply SessionUse.evolves_do_watch.
Qed.

Lemma registry_stays_wf_witness :
  registry_wf Process.sample_running ∧
  registry_wf (Process.start Process.sample_handle Process.sample_running).2.
Proof.
  assert (registry_wf Process.sample_running) as Hwf.
  { intros n r Hr.
    assert (Process.processes Process.sample_running = {[ "a" := 0%nat ]}) as E
      by (vm_compute; reflexivity).
    rewrite E in Hr. apply lookup_singleton_Some in Hr as [<- <-].
    vm_compute. eauto. }
  split; [exact Hwf|].
  exact (proj1 (registry_stays_wf Process.sample_running Hwf)
           Process.sample_handle).
Defined.

Lemma no_items_act a w r :
  silent a = true → no_items w r → no_items (act a w).2 r.
Proof.
  destruct a as [r0 ty d|r0|dt]; [done| |]; intros _ (h & queue & Hh & Hq & He).
  - simpl. unfold in_thread. simpl. run_monad.
    destruct (Process.objs w !! r0) as [h0|] eqn:Hh0; [|by exists h, queue].
    simpl. destruct (decide (r0 = r)) as [->|Hne].
    + exists (Process.set_running false h), queue. simpl.
      rewrite lookup_insert_eq. rewrite Hh in Hh0. injection Hh0 as <-.
      by destruct h.
    + exists h, queue. simpl. by rewrite lookup_insert_ne.
  - by exists h, queue.
Qed.

Lemma no_items_interfere acts : ∀ w r,
  forallb silent acts = true → no_items w r → no_items (interfere acts w).2 r.
Proof.
  induction acts as [|a acts IH]; intros w r Hs Hn; [done|].
  simpl in Hs. apply andb_true_iff in Hs as [Ha Hs]. simpl. run_monad.
  pose proof (no_items_act a w r Ha Hn) as H1.
  destruct (act a w) as [[[]|e] w1] eqn:E; simpl in *.
  - by apply IH.
  - destruct a; simpl in E; unfold in_thread, Process.elapse in E; done.
Qed.

Section Edges.

Variable str_time : Z -> string.

#[local] Arguments collect : simpl never.
#[local] Arguments trim : simpl never.
#[local] Arguments prune : simpl never.
#[local] Arguments interfere : simpl never.
#[local] Arguments Py.join : simpl never.
#[local] Arguments Py.lower : simpl never.

(** [del all_processes[name]] has no guard.  When a tracked process
    whose CLOSED event the session has seen is no longer registered, as
    after another session has removed it, the turn sends its batch,
    reads the answer of the client and then raises [KeyError]. *)
Theorem closed_unregistered_raises acts script procs w line rest n :
  wf_world w → NoDup (map fst procs) →
  Forall (λ np, has_output w (p np.2)) procs →
  snapshot (Process.objs w) procs ≠ [] →
  Process.inbox w = line :: rest →
  n ∈ pruned (observe (Process.objs w) procs) →
  Process.processes w !! n = None →
  ∃ w', _do_watch str_time (acts :: script) procs w = (Raise KeyError, w') ∧
        Process.sent w' =
          Process.sent w ++
          [batch_of (snapshot_frames str_time
                       (snapshot (Process.objs w) procs))] ∧
        Process.inbox w' = rest.
Proof.
  intros Hwf Hnd Hall Hne Hin Hn Hnone.
  rewrite WatchSpec.do_watch_turn.
  pose proof (WatchSpec.collect_total str_time procs w Hwf Hall) as Hc.
  destruct (WatchSpec.collect_ok str_time procs w _ _ w Hwf Hc)
    as (_ & _ & Hsnap & _).
  rewrite Hc. set (procs1 := observe (Process.objs w) procs) in *.
  pose proof (WatchSpec.snapshot_frames_nonempty str_time _ Hsnap Hne) as Hdata.
  set (snap := snapshot (Process.objs w) procs) in *.
  assert (∀ data, data = snapshot_frames str_time snap →
            Py.join LF (data ++ ["] "]) = batch_of data) as Hjoin.
  { intros data ->. by apply WatchSpec.join_snoc. }
  destruct (snapshot_frames str_time snap) as [|frame data] eqn:Ed; [done|].
  rewrite (Hjoin _ eq_refl). cbv zeta.
  set (b := batch_of (frame :: data)).
  change (Process.inbox (Process.set_sent (Process.sent w ++ [b]) w))
    with (Process.inbox w).
  rewrite Hin.
  set (wr := Process.set_inbox rest
               (Process.set_sent (Process.sent w ++ [b]) w)).
  destruct (WatchSpec.quiet_interfere acts wr) as (Hs2 & Hi2 & Hp2 & Ho2).
  set (w2 := (interfere acts wr).2) in *.
  assert (Forall (λ np, has_output w2 (p np.2)) procs1) as Hall2.
  { eapply Forall_impl; [apply (WatchSpec.observe_has_output w), Hall|].
    intros np Hnp. apply Ho2. by apply (WatchSpec.has_output_same_objs w). }
  pose proof (WatchSpec.trim_ok procs1 w2 Hall2) as Htrim.
  destruct (WatchSpec.quiet_trim procs1 w2) as (Hs3 & Hi3 & Hp3 & _).
  destruct (trim procs1 w2) as [[closed|e] w3]; simpl in *; [|discriminate].
  injection Htrim as ->.
  pose proof (WatchSpec.prune_missing (pruned procs1) procs1 w3 n) as Hraise.
  destruct (WatchSpec.prune_frame (pruned procs1) procs1 w3) as (Hs4 & _ & Hi4).
  destruct (prune (pruned procs1) procs1 w3) as [r4 w4]; simpl in *.
  rewrite Hraise.
  - exists w4. split; [done|]. split; [by rewrite Hs4, Hs3, Hs2|].
    by rewrite Hi4, Hi3, Hi2.
  - apply WatchSpec.pruned_NoDup. unfold procs1.
    by rewrite WatchSpec.observe_keys.
  - apply WatchSpec.pruned_has.
  - done.
  - by rewrite Hp3, Hp2.
Qed.

Lemma collect_idle procs : ∀ w,
  Forall (λ np, no_items w (p np.2)) procs →
  collect str_time procs w = (Ok ([], procs), w).
Proof.
  induction procs as [|[name proc] procs IH]; intros w Hall; [done|].
  apply Forall_cons in Hall as [(h & queue & Hh & Hq & He) Hall].
  simpl in Hh. unfold collect. fold (collect str_time). run_monad.
  rewrite (WatchSpec.watch_read w _ h queue Hh Hq).
  unfold OutputQueue.retrieve. rewrite He. simpl. by rewrite (IH w Hall).
Qed.

(** The answer of the client is read only after a batch was sent.
    While the tracked queues are empty and the capture threads add
    nothing, a session sends nothing and reads nothing, whatever the
    client has written, a [q] among it: it goes on waiting, and the lines
    of the client stay unread. *)
Theorem idle_session_waits (script : list (list env_action)) :
  ∀ procs w,
    Forall (λ np, no_items w (p np.2)) procs →
    Forall (λ acts, forallb silent acts = true) script →
    ∃ w', _do_watch str_time script procs w = (Ok Suspended, w') ∧
          Process.sent w' = Process.sent w ∧
          Process.inbox w' = Process.inbox w ∧
          Process.processes w' = Process.processes w.
Proof.
  induction script as [|acts script IH]; intros procs w Hall Hs;
    [by exists w|].
  apply Forall_cons in Hs as [Hacts Hs].
  rewrite WatchSpec.do_watch_turn, (collect_idle procs w Hall).
  destruct (WatchSpec.quiet_interfere acts w) as (Hs1 & Hi1 & Hp1 & _).
  destruct (IH procs (interfere acts w).2) as (w' & Hrun & Hs' & Hi' & Hp');
    [|done|].
  - eapply Forall_impl; [exact Hall|]. intros np Hnp.
    by apply no_items_interfere.
  - exists w'. split; [done|]. split; [congruence|]. split; congruence.
Qed.

End Edges.

Lemma closed_unregistered_raises_witness :
  ∃ w', _do_watch decimal_time [[]] sample_tracked
          (Process.set_processes (delete "a") sample_finished)
        = (Raise KeyError, w') ∧
        Process.inbox w' = [].
Proof.
  destruct (closed_unregistered_raises decimal_time [] [] sample_tracked
              (Process.set_processes (delete "a") sample_finished) "q" [] "a")
    as (w' & Hrun & _ & Hi).
  - apply WatchSpec.wf_world_check; vm_compute; reflexivity.
  - apply NoDup_singleton.
  - constructor; [|constructor]. eexists _, _. split; vm_compute; reflexivity.
  - vm_compute. discriminate.
  - reflexivity.
  - vm_compute. apply list_elem_of_here.
  - vm_compute. reflexivity.
  - exists w'. split; [exact Hrun | exact Hi].
Defined.

Lemma idle_session_waits_witness :
  ∃ w', _do_watch decimal_time [[Elapse 5]; [WorkerExit 0]; []] sample_tracked
          (Process.set_inbox ["q"] Process.sample_running)
        = (Ok Suspended, w') ∧
        Process.inbox w' = ["q"].
Proof.
  destruct (idle_session_waits decimal_time [[Elapse 5]; [WorkerExit 0]; []]
              sample_tracked (Process.set_inbox ["q"] Process.sample_running))
    as (w' & Hrun & _ & Hi & _).
  - constructor; [|constructor]. eexists _, _.
    split; [vm_compute; reflexivity|]. split; reflexivity.
  - repeat constructor.
  - exists w'. split; [exact Hrun | exact Hi].
Defined.


End SessionRuns.

(** ** The commands [process] and [processes] *)

Module CommandUse.

Ltac run_monad :=
  unfold mbind, M_bind, bind, mret, M_ret, ret, raise, get, put, lift,
    Process.deref, Process.assign in *.

(** *** Dictionaries in insertion order *)

Lemma dict_has_set {V} k k' (v : V) d :
  dict_has k (dict_set k' v d) = String.eqb k k' || dict_has k d.
Proof.
  unfold dict_has. induction d as [|[k0 v0] d IH]; simpl.
  - by rewrite orb_false_r.
  - destruct (String.eqb k' k0) eqn:E; simpl.
    + apply String.eqb_eq in E as <-.
      destruct (String.eqb k k'); simpl; [done|]. done.
    + rewrite IH. destruct (String.eqb k k0), (String.eqb k k'); done.
Qed.

Lemma dict_has_elem {V} k (d : list (string * V)) :
  dict_has k d = true → ∃ v, (k, v) ∈ d.
Proof.
  unfold dict_has. intros H. apply existsb_exists in H as ([k0 v] & Hin & He).
  apply String.eqb_eq in He. simpl in He. subst k0. exists v.
  by apply list_elem_of_In.
Qed.

Lemma dict_get_set {V} k k' (v : V) d :
  dict_get k (dict_set k' v d) = if String.eqb k k' then Some v else dict_get k d.
Proof.
  induction d as [|[k0 v0] d IH]; simpl.
  - by destruct (String.eqb k k').
  - destruct (String.eqb k' k0) eqn:E; simpl.
    + apply String.eqb_eq in E as <-. by destruct (String.eqb k k').
    + rewrite IH. destruct (String.eqb k k0) eqn:E0; [|done].
      apply String.eqb_eq in E0 as ->.
      destruct (String.eqb k0 k') eqn:E1; [|done].
      apply String.eqb_eq in E1 as ->. by rewrite String.eqb_refl in E.
Qed.


(** *** Prefixes *)




Section Commands.

Variable str_time : Z -> string.
Variable plat : Platform.t.
Variable resource : option (string -> option Z).
Variable extract_name_value_pairs :
  list string -> result (list (string * string) * list string).


Lemma read_options_app pre post : ∀ o,
  read_options resource o (pre ++ post) =
  match read_options resource o pre with
  | Ok o' => read_options resource o' post
  | Raise e => Raise e
  end.
Proof.
  induction pre as [|[key value] pre IH]; intros o; simpl; [done|].
  unfold mbind, result_bind.
  destruct (option_step resource o key value) as [o'|e]; [apply IH | done].
Qed.

Lemma option_step_keeps o key value o' k :
  option_step resource o key value = Ok o' →
  dict_has k (opt_kwargs o) = true → dict_has k (opt_kwargs o') = true.
Proof.
  unfold option_step.
  destruct (PyText.startswith "env." key); [by intros [= <-]|].
  destruct (PyText.startswith "rlimit." key).
  - destruct (Py.int value) as [n|[]]; try done.
    destruct (getattr_rlimit resource _) as [limit|[]]; try done.
    by intros [= <-].
  - intros [= <-] H. simpl. rewrite dict_has_set, H. apply orb_true_r.
Qed.

Lemma read_options_keeps pairs : ∀ o o' k,
  read_options resource o pairs = Ok o' →
  dict_has k (opt_kwargs o) = true → dict_has k (opt_kwargs o') = true.
Proof.
  induction pairs as [|[key value] pairs IH]; intros o o' k; simpl.
  - by intros [= <-].
  - unfold mbind, result_bind.
    destruct (option_step resource o key value) as [o1|e] eqn:E; [|done].
    intros H Hk. apply (IH o1); [done|]. by apply (option_step_keeps o key value).
Qed.

Lemma read_options_plain pairs : ∀ o o' key,
  read_options resource o pairs = Ok o' → key ∈ map fst pairs →
  PyText.startswith "env." key = false →
  PyText.startswith "rlimit." key = false →
  dict_has key (opt_kwargs o') = true.
Proof.
  induction pairs as [|[k v] pairs IH]; intros o o' key H Hin He Hr.
  { by apply elem_of_nil in Hin. }
  simpl in H, Hin. unfold mbind, result_bind in H.
  destruct (option_step resource o k v) as [o1|e] eqn:E; [|done].
  apply elem_of_cons in Hin as [->|Hin]; [|by apply (IH o1)].
  apply (read_options_keeps pairs o1); [done|].
  unfold option_step in E. rewrite He, Hr in E. injection E as <-. simpl.
  by rewrite dict_has_set, String.eqb_refl.
Qed.

Lemma rlimit_key k :
  PyText.startswith "env." ("rlimit." +:+ k) = false ∧
  PyText.startswith "rlimit." ("rlimit." +:+ k) = true ∧
  PyText.slice_from 7 ("rlimit." +:+ k) = k.
Proof. repeat split; try reflexivity; by destruct k. Qed.

(** *** What the options leave in the dictionaries *)



Lemma option_step_kwargs o key value o' k v :
  PyText.startswith "env." k = false → PyText.startswith "rlimit." k = false →
  option_step resource o key value = Ok o' →
  dict_get k (opt_kwargs o') = Some v ↔
  key = k ∧ value = v ∨ key ≠ k ∧ dict_get k (opt_kwargs o) = Some v.
Proof.
  intros Hke Hkr. unfold option_step.
  assert (∀ prefix, PyText.startswith prefix key = true →
                    PyText.startswith prefix k = false →
                    opt_kwargs o' = opt_kwargs o →
                    dict_get k (opt_kwargs o') = Some v ↔
                    key = k ∧ value = v ∨
                    key ≠ k ∧ dict_get k (opt_kwargs o) = Some v) as Hsame.
  { intros prefix Hp Hk ->. assert (key ≠ k) by congruence.
    split; [by right | by intros [[? _]|[_ ?]]]. }
  destruct (PyText.startswith "env." key) eqn:He.
  { intros [= <-]. by apply (Hsame "env."). }
  destruct (PyText.startswith "rlimit." key) eqn:Hr.
  { destruct (Py.int value) as [n|[]]; try done.
    destruct (getattr_rlimit resource _) as [limit|[]]; try done.
    intros [= <-]. by apply (Hsame "rlimit."). }
  intros [= <-]. simpl. rewrite dict_get_set.
  destruct (String.eqb k key) eqn:E.
  - apply String.eqb_eq in E as ->. split.
    + intros [= ->]. by left.
    + by intros [[_ ->]|[Hne _]].
  - apply String.eqb_neq in E. split.
    + intros H. right. split; [congruence | done].
    + intros [[Heq _]|[_ H]]; [congruence | done].
Qed.

Lemma read_options_kwargs_in pairs : ∀ o o' k v,
  PyText.startswith "env." k = false → PyText.startswith "rlimit." k = false →
  read_options resource o pairs = Ok o' →
  dict_get k (opt_kwargs o') = Some v →
  (k, v) ∈ pairs ∨ dict_get k (opt_kwargs o) = Some v.
Proof.
  induction pairs as [|[key value] pairs IH]; intros o o' k v Hke Hkr; simpl.
  - intros [= <-]. by right.
  - unfold mbind, result_bind.
    destruct (option_step resource o key value) as [o1|e] eqn:E; [|done].
    intros H Hget. destruct (IH o1 o' k v Hke Hkr H Hget) as [Hin|Ho1].
    + left. by right.
    + apply (option_step_kwargs o key value o1 k v Hke Hkr E) in Ho1
        as [[-> ->]|[_ Ho]]; [left; by left | by right].
Qed.



(** *** Options that are no keyword of [Process] *)

(** An option whose key is neither prefixed by [env.] or [rlimit.], nor
    [watch], nor one of the seven keyword parameters of
    [Process.__init__] makes [process_command] raise [TypeError], the
    other options being in order; nothing is created, and the state is as
    it was.  The option [output] that the help text of the command
    documents is such a key: the parameter is called [bufsize]. *)
Theorem unknown_option_raises_TypeError script name args w pairs cmd o
    key watch kwargs :
  extract_name_value_pairs args = Ok (pairs, cmd) →
  read_options resource (mkOptions ∅ ∅ []) pairs = Ok o →
  pop_watch (opt_kwargs o) = Ok (watch, kwargs) →
  key ∈ map fst pairs →
  PyText.startswith "env." key = false →
  PyText.startswith "rlimit." key = false →
  key ≠ "watch" → key ∉ keywords →
  process_command str_time plat resource extract_name_value_pairs
      script (name :: args) w = (Raise TypeError, w).
Proof.
  intros Hex Hread Hpop Hin He Hr Hw Hk.
  pose proof (read_options_plain _ _ _ _ Hread Hin He Hr) as Hhas.
  apply dict_has_elem in Hhas as [v Hv].
  assert ((key, v) ∈ kwargs) as Hkw.
  { unfold pop_watch in Hpop. destruct (dict_get "watch" (opt_kwargs o)).
    - destruct (Py.int s) as [n|e]; [|done]. simpl in Hpop.
      injection Hpop as <- <-. by apply list_elem_of_filter.
    - by injection Hpop as <- <-. }
  unfold process_command. run_monad. rewrite Hex. simpl. rewrite Hread. simpl.
  rewrite Hpop. simpl. unfold Process.start, Process_call.
  assert (forallb (λ kv : string * string, bool_decide (kv.1 ∈ keywords)) kwargs
          = false) as ->; [|done].
  apply not_true_is_false. intros Hall. rewrite forallb_forall in Hall.
  apply list_elem_of_In in Hkw. specialize (Hall _ Hkw). simpl in Hall.
  by apply bool_decide_eq_true in Hall.
Qed.

(** *** Resource limits *)

(** An [rlimit.] option is checked value first.  If the value is no
    integer, the command fails with the error that asks for an integer,
    also when the limit is unknown; if the value is an integer and the
    module [resource] is missing or has no such limit, it fails with the
    error that names the unknown limit.  The options before it are in
    order in both cases, and nothing is created. *)
Theorem rlimit_option_errors script name args w pre post cmd o k value :
  extract_name_value_pairs args
  = Ok (pre ++ ("rlimit." +:+ k, value) :: post, cmd) →
  read_options resource (mkOptions ∅ ∅ []) pre = Ok o →
  (Py.int value = Raise ValueError →
   process_command str_time plat resource extract_name_value_pairs
      script (name :: args) w =
     (Raise (Error ("The rlimit value for " +:+ PyText.DQ +:+ k +:+
                    PyText.DQ +:+ " must be an integer, not " +:+
                    PyText.DQ +:+ value +:+ PyText.DQ)), w)) ∧
  (∀ n, Py.int value = Ok n →
        (∀ attrs, resource = Some attrs →
                  attrs ("RLIMIT_" +:+ PyText.upper k) = None) →
        process_command str_time plat resource extract_name_value_pairs
      script (name :: args) w =
          (Raise (Error ("Unknown rlimit " +:+ PyText.DQ +:+ k +:+ PyText.DQ)),
           w)).
Proof.
  intros Hex Hread.
  assert (∀ e, option_step resource o ("rlimit." +:+ k) value = Raise e →
               process_command str_time plat resource extract_name_value_pairs
      script (name :: args) w = (Raise e, w)) as Hfail.
  { intros e He. unfold process_command. run_monad. rewrite Hex. simpl.
    rewrite read_options_app, Hread. simpl. unfold mbind, result_bind.
    by rewrite He. }
  destruct (rlimit_key k) as (He & Hr & Hk).
  split.
  - intros Hv. apply Hfail. unfold option_step. by rewrite He, Hr, Hk, Hv.
  - intros n Hv Hnone. apply Hfail. unfold option_step. rewrite He, Hr, Hk, Hv.
    unfold getattr_rlimit. destruct resource as [attrs|]; [|done].
    by rewrite (Hnone attrs eq_refl).
Qed.

(** *** A process started *)

Lemma Process_call_fields name args env rlimits kwargs h :
  Process_call plat name args env rlimits kwargs = Ok h →
  Process.name h = name ∧ Process.args h = args ∧ Process.env h = env ∧
  Process.shell h = dict_get "shell" kwargs ∧
  Process.working_dir h = dict_get "working_dir" kwargs ∧
  Process.pid h = 0 ∧ Process._output h = None.
Proof.
  unfold Process_call. destruct (forallb _ kwargs); [|done].
  unfold Process.__init__.
  destruct (Process.__init__capture _ _ _) as [[[b out] err]|e]; [simpl|done].
  destruct (Process.__init__uid plat _) as [[nm id]|?]; [simpl|done].
  destruct (Process.__init__gid plat _ id) as [g|?]; [simpl|done].
  by intros [= <-].
Qed.


(** *** Watching a process that is running already *)

(** [process_command] with [watch] watches the handle that [spawn]
    returns.  When the name is registered already with an equal
    configuration, that handle is the new one, which has no output
    queue: the command creates no process and starts no thread, sends
    the line [<name> pid=<pid of the running process>], and then raises
    [AttributeError] at the first turn of the session; the output of the
    running process is not delivered. *)
Theorem watch_again_raises acts script name args w pairs cmd o watch kwargs
    h r existing :
  extract_name_value_pairs args = Ok (pairs, cmd) →
  read_options resource (mkOptions ∅ ∅ []) pairs = Ok o →
  pop_watch (opt_kwargs o) = Ok (watch, kwargs) → watch ≠ 0 →
  Process_call plat name cmd (opt_env o) (opt_rlimits o) kwargs = Ok h →
  Process.processes w !! name = Some r →
  Process.objs w !! r = Some existing →
  Process.config h = Process.config existing →
  ∃ w',
    process_command str_time plat resource extract_name_value_pairs
      (acts :: script) (name :: args) w = (Raise AttributeError, w') ∧
    Process.sent w' =
      Process.sent w ++
      [(name +:+ " pid=" +:+ Py.str (Process.pid existing)) +:+ LF] ∧
    Process.os w' = Process.os w ∧
    Process.threads w' = Process.threads w ∧
    Process.processes w' = Process.processes w ∧
    Process.objs w' !! r = Some existing.
Proof.
  intros Hex Hread Hpop Hw Hcall Hreg Hexi Hcfg.
  destruct (Process_call_fields _ _ _ _ _ _ Hcall)
    as (Hname & _ & _ & _ & _ & _ & Hout).
  apply ProcessSpec.eq_config in Hcfg.
  pose proof (ProcessSpec.fresh_ref w) as Hfresh.
  set (self := fresh (dom (Process.objs w))) in *.
  assert (self ≠ r) as Hne by (intros ->; congruence).
  apply Z.eqb_neq in Hw.
  eexists.
  unfold process_command. run_monad. rewrite Hex. simpl. rewrite Hread. simpl.
  rewrite Hpop. simpl. rewrite Hcall. unfold Process.start, Process.new,
    Process.spawn. run_monad. simpl. fold self.
  rewrite lookup_insert_eq. simpl. rewrite Hname, Hreg. simpl.
  rewrite lookup_insert_ne by done. rewrite Hexi. simpl. rewrite Hcfg. simpl.
  rewrite lookup_insert_eq. simpl. rewrite Hw. simpl.
  unfold sendall. simpl. unfold Process.watch, Process.with_output. run_monad.
  simpl. rewrite lookup_insert_eq. simpl. rewrite Hout.
  split; [reflexivity|]. simpl. unfold Process.__str__. simpl. rewrite Hname.
  split; [done|]. split; [done|]. split; [done|]. split; [done|].
  rewrite insert_insert_eq. by rewrite lookup_insert_ne.
Qed.

(** *** A command that fails *)

(** A [process] command that does not ask for [watch] and raises leaves
    no process behind: whenever no [watch] option reads as an integer
    other than 0 and [process_command] raises, be it for its arguments,
    an option, the creation of the handle or a conflict with a registered
    process, no OS process was created, no thread started, and the
    registry is as it was. *)
Theorem failed_command_creates_nothing script args w e w' :
  (∀ pairs cmd v n,
     extract_name_value_pairs (tail args) = Ok (pairs, cmd) →
     ("watch", v) ∈ pairs → Py.int v = Ok n → n = 0) →
  process_command str_time plat resource extract_name_value_pairs
    script args w = (Raise e, w') →
  Process.os w' = Process.os w ∧
  Process.processes w' = Process.processes w ∧
  Process.threads w' = Process.threads w.
Proof.
  intros Hnowatch. unfold process_command.
  destruct args as [|name args]; [by intros [= _ <-]|].
  simpl in Hnowatch. run_monad.
  destruct (extract_name_value_pairs args) as [[pairs cmd]|e0];
    [simpl|by intros [= _ <-]].
  destruct (read_options resource _ pairs) as [o|e0] eqn:Hread;
    [simpl|by intros [= _ <-]].
  destruct (pop_watch (opt_kwargs o)) as [[watch kwargs]|e0] eqn:Hpop;
    [simpl|by intros [= _ <-]].
  assert (watch = 0) as ->.
  { unfold pop_watch in Hpop.
    destruct (dict_get "watch" (opt_kwargs o)) as [v|] eqn:Hv;
      [|by injection Hpop as <- _].
    destruct (Py.int v) as [n|e0] eqn:Hn; [|done]. simpl in Hpop.
    injection Hpop as <- _.
    destruct (read_options_kwargs_in pairs _ o "watch" v eq_refl eq_refl
                Hread Hv) as [Hin|Hnone]; [|done].
    by apply (Hnowatch pairs cmd v n). }
  destruct (Process_call plat name cmd (opt_env o) (opt_rlimits o) kwargs)
    as [h|e0] eqn:Hcall; [|by intros [= _ <-]].
  destruct (Process_call_fields _ _ _ _ _ _ Hcall)
    as (Hname & _ & _ & _ & _ & _ & Hout).
  unfold Process.start, Process.new, Process.spawn. run_monad. simpl.
  set (self := fresh (dom (Process.objs w))) in *.
  rewrite lookup_insert_eq. simpl. rewrite Hname.
  destruct (Process.processes w !! name) as [r|] eqn:Hreg.
  - simpl.
    destruct (<[self:=h]> (Process.objs w) !! r) as [existing|];
      [|by intros [= _ <-]].
    destruct (Process.__eq__ h existing); [|by intros [= _ <-]]. simpl.
    by rewrite lookup_insert_eq.
  - simpl. by rewrite lookup_insert_eq.
Qed.

End Commands.

(** *** Witnesses of the properties of [process_command] *)

Lemma unknown_option_raises_TypeError_witness :
  process_command decimal_time Process.bare sample_resource sample_extract []
    ["a"; "output=1m"; "/bin/cat"] Process.empty_world
  = (Raise TypeError, Process.empty_world).
Proof.
  eapply (unknown_option_raises_TypeError decimal_time Process.bare
            sample_resource sample_extract [] "a" ["output=1m"; "/bin/cat"]
            Process.empty_world [("output", "1m")] ["/bin/cat"] _ "output").
  - reflexivity.
  - vm_compute; reflexivity.
  - vm_compute; reflexivity.
  - apply list_elem_of_here.
  - reflexivity.
  - reflexivity.
  - discriminate.
  - intros H. repeat (apply elem_of_cons in H as [H|H]; [discriminate|]).
    by apply elem_of_nil in H.
Defined.

Lemma rlimit_option_errors_witness :
  process_command decimal_time Process.bare sample_resource sample_extract []
    ["a"; "rlimit.bogus=abc"; "/bin/cat"] Process.empty_world
  = (Raise (Error ("The rlimit value for " +:+ PyText.DQ +:+ "bogus" +:+
                   PyText.DQ +:+ " must be an integer, not " +:+
                   PyText.DQ +:+ "abc" +:+ PyText.DQ)),
     Process.empty_world).
Proof.
  apply (proj1 (rlimit_option_errors decimal_time Process.bare sample_resource
                  sample_extract [] "a" ["rlimit.bogus=abc"; "/bin/cat"]
                  Process.empty_world [] [] ["/bin/cat"] (mkOptions ∅ ∅ [])
                  "bogus" "abc" eq_refl eq_refl)).
  reflexivity.
Defined.


Lemma watch_again_raises_witness :
  ∃ w', process_command decimal_time Process.bare sample_resource
          sample_extract [[]] ["a"; "watch=1"; "/bin/cat"]
          Process.sample_running
        = (Raise AttributeError, w') ∧
        Process.sent w' = ["a pid=100" +:+ LF] ∧
        Process.os w' = Process.os Process.sample_running.
Proof.
  assert (∃ existing h,
            Process.objs Process.sample_running !! 0%nat = Some existing ∧
            Process_call Process.bare "a" ["/bin/cat"] ∅ ∅ [] = Ok h ∧
            Process.config h = Process.config existing ∧
            Process.pid existing = 100)
    as (existing & h & Hex & Hcall & Hcfg & Hpid)
    by (vm_compute; eexists _, _; repeat split; reflexivity).
  destruct (watch_again_raises decimal_time Process.bare sample_resource
              sample_extract [] [] "a" ["watch=1"; "/bin/cat"]
              Process.sample_running [("watch", "1")] ["/bin/cat"]
              (mkOptions ∅ ∅ [("watch", "1")]) 1 [] h 0%nat existing
              eq_refl eq_refl eq_refl ltac:(lia) Hcall eq_refl Hex Hcfg)
    as (w' & Hrun & Hsent & Hos & _).
  exists w'. split; [exact Hrun|]. split; [|exact Hos].
  rewrite Hsent, Hpid. reflexivity.
Defined.

Lemma failed_command_creates_nothing_witness :
  ∃ e w', process_command decimal_time Process.bare sample_resource
            sample_extract [] ["a"; "/bin/ls"] Process.sample_running
          = (Raise e, w') ∧
          Process.os w' = Process.os Process.sample_running.
Proof.
  assert (∃ e w', process_command decimal_time Process.bare sample_resource
                    sample_extract [] ["a"; "/bin/ls"] Process.sample_running
                  = (Raise e, w')) as (e & w' & Hrun) by (vm_compute; eauto).
  exists e, w'. split; [exact Hrun|].
  apply (failed_command_creates_nothing decimal_time Process.bare
           sample_resource sample_extract [] ["a"; "/bin/ls"]
           Process.sample_running e w').
  - intros pairs cmd v n [= <- _] Hin. by apply elem_of_nil in Hin.
  - exact Hrun.
Defined.

End CommandUse.

(** ** The listing of [processes_command] *)

Module ListingUse.

Ltac run_monad :=
  unfold mbind, M_bind, bind, mret, M_ret, ret, raise, get, put, lift,
    Process.deref, Process.assign in *.

(** *** The order of strings *)

Lemma str_le_trans a : ∀ b c, str_le a b → str_le b c → str_le a c.
Proof.
  unfold str_le, String.leb.
  induction a as [|x a IH]; intros [|y b] [|z c]; simpl; try done.
  unfold Ascii.compare.
  destruct (N.compare_spec (N_of_ascii x) (N_of_ascii y)) as [Hxy|Hxy|Hxy],
           (N.compare_spec (N_of_ascii y) (N_of_ascii z)) as [Hyz|Hyz|Hyz],
           (N.compare_spec (N_of_ascii x) (N_of_ascii z)) as [Hxz|Hxz|Hxz];
    try done; try lia.
  apply IH.
Qed.

#[local] Instance str_le_transitive : Transitive str_le.
Proof. intros a b c. apply str_le_trans. Qed.

#[local] Instance str_le_antisym : AntiSymm eq str_le.
Proof. intros a b. apply String.leb_antisym. Qed.

Lemma str_le_total a b : str_le a b ∨ str_le b a.
Proof. apply String.leb_total. Qed.

(** *** [sorted] *)

Lemma insort_perm x l : PyText.insort x l ≡ₚ x :: l.
Proof.
  induction l as [|y l IH]; simpl; [done|].
  destruct (String.leb x y); [done|]. rewrite IH. apply Permutation_swap.
Qed.

Lemma sorted_perm l : PyText.sorted l ≡ₚ l.
Proof.
  induction l as [|x l IH]; simpl; [done|].
  unfold PyText.sorted in *. simpl. by rewrite insort_perm, IH.
Qed.

Lemma insort_sorted x l :
  Sorted str_le l → Sorted str_le (PyText.insort x l).
Proof.
  induction l as [|y l IH]; simpl; intros Hs.
  - repeat constructor.
  - destruct (String.leb x y) eqn:E.
    + constructor; [done|]. by constructor.
    + assert (str_le y x) as Hyx.
      { destruct (str_le_total x y) as [H|H]; [|done].
        unfold str_le in H. congruence. }
      apply Sorted_inv in Hs as [Hs Hhd]. constructor; [by apply IH|].
      destruct l as [|z l]; simpl; [by constructor|].
      destruct (String.leb x z); constructor; [done|].
      by apply HdRel_inv in Hhd.
Qed.

Lemma sorted_sorted l : Sorted str_le (PyText.sorted l).
Proof.
  induction l as [|x l IH]; [constructor|].
  unfold PyText.sorted in *. simpl. by apply insort_sorted.
Qed.

Lemma sorted_of_perm l1 l2 :
  l1 ≡ₚ l2 → PyText.sorted l1 = PyText.sorted l2.
Proof.
  intros Hp. apply (Sorted_unique str_le); try apply sorted_sorted.
  by rewrite !sorted_perm.
Qed.

Section Listing.

Variable wildcard_iter :
  gmap string nat -> list string -> result (list (string * nat)).

Lemma proc_lines_ok pairs : ∀ w,
  Forall (λ np : string * nat, is_Some (Process.objs w !! np.2)) pairs →
  proc_lines pairs w = (Ok (listing w pairs), w).
Proof.
  induction pairs as [|[n r] pairs IH]; intros w Hall; [done|].
  apply Forall_cons in Hall as [[h Hh] Hall]. simpl in Hh.
  unfold listing. simpl. run_monad. rewrite Hh. simpl.
  by rewrite (IH w Hall).
Qed.

(** [processes_command] answers with one line [<name> pid=<pid>] for each
    process that [wildcard_iter] yields, the lines in the order of
    Python on strings and joined by line feeds, and changes nothing.  The
    answer does not depend on the order in which the registry is
    enumerated. *)
Theorem processes_listed_sorted (args : list string) (w : Process.World)
    (pairs : list (string * nat)) :
  wildcard_iter (Process.processes w) args = Ok pairs →
  Forall (λ np, is_Some (Process.objs w !! np.2)) pairs →
  ∃ lines,
    processes_command wildcard_iter args w = (Ok (Py.join LF lines), w) ∧
    Sorted str_le lines ∧ lines ≡ₚ listing w pairs ∧
    ∀ pairs', pairs' ≡ₚ pairs → PyText.sorted (listing w pairs') = lines.
Proof.
  intros Hw Hall. exists (PyText.sorted (listing w pairs)).
  split; [|split; [apply sorted_sorted | split; [apply sorted_perm|]]].
  - unfold processes_command. run_monad. rewrite Hw. simpl.
    by rewrite (proc_lines_ok pairs w Hall).
  - intros pairs' Hp. apply sorted_of_perm. unfold listing. by rewrite Hp.
Qed.

End Listing.

Lemma processes_listed_sorted_witness :
  processes_command
    (λ _ _, Ok [("b", 1%nat); ("a", 0%nat)]) []
    (Process.start
       (Process.__init__ Process.bare "b" ["/bin/ls"] ∅ ∅ None None None None
          "1" "1" "1m") Process.sample_running).2
  = (Ok ("a pid=100" +:+ LF +:+ "b pid=101"),
     (Process.start
        (Process.__init__ Process.bare "b" ["/bin/ls"] ∅ ∅ None None None None
           "1" "1" "1m") Process.sample_running).2).
Proof.
  set (w := (Process.start _ Process.sample_running).2).
  destruct (processes_listed_sorted (λ _ _, Ok [("b", 1%nat); ("a", 0%nat)])
              [] w [("b", 1%nat); ("a", 0%nat)] eq_refl)
    as (lines & Hrun & _ & _ & Hlines).
  - repeat constructor; vm_compute; eauto.
  - rewrite Hrun. rewrite <- (Hlines _ (reflexivity _)). reflexivity.
Defined.

End ListingUse.
